(** * cloak: directory encryption (internal/cloak/cloak.go)

    A shallow embedding of the Go package [cloak] and the properties its
    specification states.  Byte slices that the program only reads are
    lists of bytes; byte slices it overwrites in place (passwords, keys,
    the plaintext archive) live in a heap of mutable arrays.  The file
    system, the terminal, the random source and standard output are
    fields of an explicit world that every operation threads through.
    The cryptographic and archive libraries the package imports
    (argon2, AES-GCM, archive/tar, compress/gzip) are an interface
    ([Library]) with the part of their contract the package relies on
    ([LibraryOk]). *)

From Stdlib Require Import ZArith Strings.Byte Ascii String Lia.
From stdpp Require Import gmap strings list fin_maps sorting pretty.

Local Open Scope Z_scope.

(** ** Bytes *)

Abbreviation byte := Byte.byte.

#[global] Instance byte_eq_dec : EqDecision byte := Byte.byte_eq_dec.

Definition byte_to_Z (b : byte) : Z := Z.of_N (Byte.to_N b).

Definition byte_of_Z (z : Z) : byte :=
  match Byte.of_N (Z.to_N (z mod 256)) with
  | Some b => b
  | None => x00
  end.

(** [[]byte(s)] for a Go string [s]. *)
Definition bytes_of_string (s : string) : list byte := String.list_byte_of_string s.

(** ** Errors and results

    A Go [(T, error)] pair is a [result]: [Ok] carries the value and a nil
    error, [Err] carries the error text and the zero value (a nil slice),
    [Panic] is a run-time panic.  [fmt.Errorf("ctx: %w", err)] prefixes
    the text. *)

Definition error := string.

Inductive result (A : Type) : Type :=
  | Ok (a : A)
  | Err (e : error)
  | Panic (msg : string).
Arguments Ok {A} a.
Arguments Err {A} e.
Arguments Panic {A} msg.

Definition wrapf (ctx : string) (e : error) : error := ctx +:+ ": " +:+ e.

(** The plaintext a Go caller receives next to the error: nil unless the
    call succeeded. *)
Definition returned_bytes (r : result (list byte)) : option (list byte) :=
  match r with
  | Ok p => Some p
  | _ => None
  end.

Definition is_Ok {A} (r : result A) : bool :=
  match r with
  | Ok _ => true
  | _ => false
  end.

(** ** Constants (cloak.go, lines 25-42) *)

Definition MagicBytes : string := "CLOAK01".
Definition SaltSize : Z := 32.
Definition NonceSize : Z := 12.
Definition KeySize : Z := 32.
Definition argonTime : Z := 3.
Definition argonMemory : Z := 64 * 1024.
Definition argonThreads : Z := 4.

(** ** encoding/binary: big-endian 64-bit integers *)

(** [binary.BigEndian.PutUint64(b, v)] on a fresh 8-byte slice. *)
Definition PutUint64 (v : Z) : list byte :=
  [ byte_of_Z (Z.shiftr v 56); byte_of_Z (Z.shiftr v 48);
    byte_of_Z (Z.shiftr v 40); byte_of_Z (Z.shiftr v 32);
    byte_of_Z (Z.shiftr v 24); byte_of_Z (Z.shiftr v 16);
    byte_of_Z (Z.shiftr v 8); byte_of_Z v ].

(** [binary.BigEndian.Uint64(b)]: the first eight bytes, most significant
    first. *)
Definition Uint64 (b : list byte) : Z :=
  match b with
  | b0 :: b1 :: b2 :: b3 :: b4 :: b5 :: b6 :: b7 :: _ =>
      Z.lor (Z.shiftl (byte_to_Z b0) 56)
     (Z.lor (Z.shiftl (byte_to_Z b1) 48)
     (Z.lor (Z.shiftl (byte_to_Z b2) 40)
     (Z.lor (Z.shiftl (byte_to_Z b3) 32)
     (Z.lor (Z.shiftl (byte_to_Z b4) 24)
     (Z.lor (Z.shiftl (byte_to_Z b5) 16)
     (Z.lor (Z.shiftl (byte_to_Z b6) 8) (byte_to_Z b7)))))))
  | _ => 0
  end.

(** [uint64(n)] for a Go [int] [n]: reduction modulo 2^64. *)
Definition uint64 (n : Z) : Z := n mod 2 ^ 64.

(** Go slicing [b[lo:hi]] and [b[lo:]] within bounds. *)
Definition slice (b : list byte) (lo hi : Z) : list byte :=
  take (Z.to_nat (hi - lo)) (drop (Z.to_nat lo) b).
Definition slice_from (b : list byte) (lo : Z) : list byte :=
  drop (Z.to_nat lo) b.

Definition len {A} (l : list A) : Z := Z.of_nat (length l).

(** ** package strings *)

Module strings.

Definition HasPrefix (s prefix : string) : bool := String.prefix prefix s.

Definition HasSuffix (s suffix : string) : bool :=
  String.prefix (String.rev suffix) (String.rev s).

Definition TrimSuffix (s suffix : string) : string :=
  if HasSuffix s suffix
  then String.substring 0 (String.length s - String.length suffix) s
  else s.

(** [strings.Split(s, "/")]. *)
Fixpoint Split (s : string) : list string :=
  match s with
  | EmptyString => [EmptyString]
  | String c s' =>
      if bool_decide (c = "/"%char) then EmptyString :: Split s'
      else match Split s' with
           | e :: es => String c e :: es
           | [] => [String c EmptyString]
           end
  end.

(** [strings.Join(elems, "/")]. *)
Definition Join (elems : list string) : string := String.concat "/" elems.

End strings.

(** ** package path/filepath (Unix: separator [/], no volume names)

    The functions work on the elements between separators, as the
    library's byte loops do. *)

Module filepath.

Definition Separator : string := "/".

Definition IsAbs (path : string) : bool := strings.HasPrefix path "/".

(** The element loop of [Clean]: [out] is the output so far, last
    element first.  An empty element or [.] is dropped; [..] removes
    the last real element, is dropped at the root, and is kept where a
    relative path has nothing left to remove. *)
Fixpoint clean_elems (rooted : bool) (out : list string) (elems : list string)
  : list string :=
  match elems with
  | [] => out
  | e :: rest =>
      if bool_decide (e = "" ∨ e = ".") then clean_elems rooted out rest
      else if bool_decide (e = "..") then
        match out with
        | top :: out' =>
            if bool_decide (top = "..") then clean_elems rooted (e :: out) rest
            else clean_elems rooted out' rest
        | [] =>
            if rooted then clean_elems rooted [] rest
            else clean_elems rooted [e] rest
        end
      else clean_elems rooted (e :: out) rest
  end.

Definition Clean (path : string) : string :=
  if bool_decide (path = "") then "."
  else
    let rooted := IsAbs path in
    let out := reverse (clean_elems rooted [] (strings.Split path)) in
    if rooted then "/" +:+ strings.Join out
    else if bool_decide (out = []) then "." else strings.Join out.

(** [Join(elem...)]: the elements from the first non-empty one on,
    joined with the separator and cleaned. *)
Fixpoint Join (elem : list string) : string :=
  match elem with
  | [] => ""
  | e :: rest =>
      if bool_decide (e = "") then Join rest
      else Clean (strings.Join elem)
  end.

(** [path[:i+1]] for the index [i] of the last separator. *)
Definition upto_last_sep (path : string) : string :=
  match reverse (strings.Split path) with
  | _ :: ((_ :: _) as pre) => strings.Join (reverse pre) +:+ "/"
  | _ => ""
  end.

Definition Dir (path : string) : string := Clean (upto_last_sep path).

Fixpoint drop_empty_front (elems : list string) : list string :=
  match elems with
  | e :: rest => if bool_decide (e = "") then drop_empty_front rest else elems
  | [] => []
  end.

Definition Base (path : string) : string :=
  if bool_decide (path = "") then "."
  else
    match drop_empty_front (reverse (strings.Split path)) with
    | last :: _ => last
    | [] => "/"
    end.

(** The elements [Rel] steps through in a cleaned path. *)
Definition rel_elems (p : string) : list string :=
  if bool_decide (p = "") then []
  else if bool_decide (p = "/") then [""]
  else strings.Split p.

Fixpoint strip_common (b t : list string) : list string * list string :=
  match b, t with
  | x :: b', y :: t' => if bool_decide (x = y) then strip_common b' t' else (b, t)
  | _, _ => (b, t)
  end.

Definition Rel (basepath targpath : string) : result string :=
  let base := Clean basepath in
  let targ := Clean targpath in
  if bool_decide (targ = base) then Ok "."
  else
    let base := if bool_decide (base = ".") then "" else base in
    if negb (bool_decide (IsAbs base = IsAbs targ))
    then Err ("Rel: can't make " +:+ targpath +:+ " relative to " +:+ basepath)
    else
      match strip_common (rel_elems base) (rel_elems targ) with
      | (b0 :: b', (_ :: _) as t) =>
          if bool_decide (b0 = "..")
          then Err ("Rel: can't make " +:+ targpath +:+ " relative to " +:+ basepath)
          else Ok (strings.Join (replicate (length (b0 :: b')) ".." ++ t))
      | (b0 :: b', []) => Ok (strings.Join (replicate (length (b0 :: b')) ".."))
      | ([], t) => Ok (strings.Join t)
      end.

End filepath.

(** The first element of a path, and the paths that begin with the
    parent-directory element. *)
Definition first_elem (p : string) : string := default "" (head (strings.Split p)).

Definition escapes (p : string) : Prop := first_elem p = "..".

(** A file name: not empty, not [.] or [..], without separator and
    without NUL byte. *)
Definition name_char (c : ascii) : bool :=
  negb (Ascii.eqb c "/") && negb (Ascii.eqb c "000").

Definition valid_name (n : string) : bool :=
  negb (String.eqb n "") && negb (String.eqb n ".") && negb (String.eqb n "..")
  && forallb name_char (String.list_ascii_of_string n).

Definition no_sep (s : string) : Prop := "/"%char ∉ String.list_ascii_of_string s.

(** The cleaned path strings: absolute and relative, from their elements. *)
Definition abs_path (k : list string) : string := "/" +:+ strings.Join k.
Definition rel_path (k : list string) : string := strings.Join k.

(** ** The file system

    A map from canonical absolute paths (the list of elements from the
    root, which is [[]]) to nodes.  Permission bits are stored as given
    to the creating call; they are not enforced and no umask is applied.
    The node kinds are those of the archive entries the package handles. *)

Inductive node : Type :=
  | NFile (mode : Z) (data : list byte)
  | NDir (mode : Z)
  | NSymlink (target : string).

Inductive file_kind : Type := KRegular | KDir | KSymlink.

(** [os.FileInfo] *)
Record FileInfo := mkFileInfo {
  fi_Name : string;
  fi_Size : Z;
  fi_Perm : Z;
  fi_kind : file_kind
}.

Definition IsDir (fi : FileInfo) : bool :=
  match fi_kind fi with KDir => true | _ => false end.
Definition IsRegular (fi : FileInfo) : bool :=
  match fi_kind fi with KRegular => true | _ => false end.
Definition IsSymlink (fi : FileInfo) : bool :=
  match fi_kind fi with KSymlink => true | _ => false end.

Definition info_of (name : string) (n : node) : FileInfo :=
  match n with
  | NFile m d => mkFileInfo name (len d) m KRegular
  | NDir m => mkFileInfo name 0 m KDir
  | NSymlink t => mkFileInfo name (Z.of_nat (String.length t)) 511 KSymlink
  end.

Definition ENOENT : error := "no such file or directory".
Definition ENOTDIR : error := "not a directory".
Definition EEXIST : error := "file exists".
Definition EISDIR : error := "is a directory".
Definition EINVAL : error := "invalid argument".
Definition ELOOP : error := "too many levels of symbolic links".
Definition ENOTEMPTY : error := "directory not empty".

Definition PathError (op path : string) (e : error) : error :=
  op +:+ " " +:+ path +:+ ": " +:+ e.

(** The name of [k] inside directory [dir], when [k] is a child of it. *)
Definition child_name (dir k : list string) : option string :=
  match drop (length dir) k with
  | [n] => if bool_decide (take (length dir) k = dir) then Some n else None
  | _ => None
  end.

Definition children (fs : gmap (list string) node) (dir : list string) : list string :=
  omap (λ kv, child_name dir kv.1) (map_to_list fs).

Module os.

(** The non-empty elements of a path string. *)
Definition elems (p : string) : list string :=
  filter (λ e, e ≠ "") (strings.Split p).

(** For a path that names an existing object: a trailing separator
    asks for a directory, as a final [.] does. *)
Definition elems_lookup (p : string) : list string :=
  if bool_decide (elems p ≠ [] ∧ last (strings.Split p) = Some "")
  then elems p ++ ["."] else elems p.

Definition start (cwd : list string) (p : string) : list string :=
  if filepath.IsAbs p then [] else cwd.

(** Path resolution as the kernel does it: [cur] is the directory
    reached so far, [rest] the elements still to walk.  A symbolic
    link met on the way is followed ([hops] of them at most); the last
    element is followed only when [follow] is set.  The result is the
    canonical path of the object, which need not exist when only its
    last element is missing. *)
Fixpoint resolve_hops (hops : nat) (fs : gmap (list string) node) (follow : bool)
    (cur rest : list string) {struct hops} : result (list string) :=
  (fix walk (cur rest : list string) {struct rest} : result (list string) :=
     match rest with
     | [] => Ok cur
     | c :: rest' =>
         if bool_decide (c = ".") then walk cur rest'
         else if bool_decide (c = "..") then walk (removelast cur) rest'
         else
           let p := cur ++ [c] in
           match fs !! p with
           | Some (NDir _) => walk p rest'
           | Some (NFile _ _) =>
               match rest' with [] => Ok p | _ => Err ENOTDIR end
           | Some (NSymlink t) =>
               if bool_decide (rest' = []) && negb follow then Ok p
               else
                 match hops with
                 | O => Err ELOOP
                 | S h =>
                     if bool_decide (t = "") then Err ENOENT
                     else resolve_hops h fs follow
                            (if filepath.IsAbs t then [] else cur)
                            (elems_lookup t ++ rest')
                 end
           | None =>
               match rest' with [] => Ok p | _ => Err ENOENT end
           end
     end) cur rest.

Definition MAXSYMLINKS : nat := 40.

Definition resolve (fs : gmap (list string) node) (cwd : list string)
    (follow : bool) (p : string) : result (list string) :=
  if bool_decide (p = "") then Err ENOENT
  else resolve_hops MAXSYMLINKS fs follow (start cwd p) (elems_lookup p).

(** The directory that is to hold the last element of [p], and that
    element: what [mkdir], [symlink] and [open] with [O_CREAT] resolve. *)
Definition resolve_parent (fs : gmap (list string) node) (cwd : list string)
    (p : string) : result (list string * string) :=
  match reverse (elems p) with
  | [] => Err (if bool_decide (p = "") then ENOENT else EEXIST)
  | c :: rparent =>
      match resolve_hops MAXSYMLINKS fs true (start cwd p) (reverse rparent) with
      | Ok d =>
          match fs !! d with
          | Some (NDir _) => Ok (d, c)
          | Some _ => Err ENOTDIR
          | None => Err ENOENT
          end
      | Err e => Err e
      | Panic m => Panic m
      end
  end.

Definition lookup_path (follow : bool) (op : string)
    (fs : gmap (list string) node) (cwd : list string) (p : string)
  : result (list string * node) :=
  match resolve fs cwd follow p with
  | Ok k =>
      match fs !! k with
      | Some n => Ok (k, n)
      | None => Err (PathError op p ENOENT)
      end
  | Err e => Err (PathError op p e)
  | Panic m => Panic m
  end.

Definition Stat (fs : gmap (list string) node) (cwd : list string) (p : string)
  : result FileInfo :=
  match lookup_path true "stat" fs cwd p with
  | Ok (_, n) => Ok (info_of (filepath.Base p) n)
  | Err e => Err e
  | Panic m => Panic m
  end.

Definition Lstat (fs : gmap (list string) node) (cwd : list string) (p : string)
  : result FileInfo :=
  match lookup_path false "lstat" fs cwd p with
  | Ok (_, n) => Ok (info_of (filepath.Base p) n)
  | Err e => Err e
  | Panic m => Panic m
  end.

Definition Readlink (fs : gmap (list string) node) (cwd : list string) (p : string)
  : result string :=
  match lookup_path false "readlink" fs cwd p with
  | Ok (_, NSymlink t) => Ok t
  | Ok _ => Err (PathError "readlink" p EINVAL)
  | Err e => Err e
  | Panic m => Panic m
  end.

(** [os.Open] for reading followed by reading the whole file. *)
Definition ReadFile (fs : gmap (list string) node) (cwd : list string) (p : string)
  : result (list byte) :=
  match lookup_path true "open" fs cwd p with
  | Ok (_, NFile _ d) => Ok d
  | Ok _ => Err (PathError "read" p EISDIR)
  | Err e => Err e
  | Panic m => Panic m
  end.

(** [readDirNames] of path/filepath: the names in a directory, sorted. *)
Definition readDirNames (fs : gmap (list string) node) (cwd : list string) (p : string)
  : result (list string) :=
  match lookup_path true "open" fs cwd p with
  | Ok (k, NDir _) => Ok (merge_sort String.le (children fs k))
  | Ok _ => Err (PathError "readdirent" p ENOTDIR)
  | Err e => Err e
  | Panic m => Panic m
  end.

Definition Mkdir (fs : gmap (list string) node) (cwd : list string) (p : string)
    (perm : Z) : result (gmap (list string) node) :=
  match resolve_parent fs cwd p with
  | Ok (d, c) =>
      if bool_decide (c = "." ∨ c = "..") then Err (PathError "mkdir" p EEXIST)
      else match fs !! (d ++ [c]) with
           | Some _ => Err (PathError "mkdir" p EEXIST)
           | None => Ok (<[d ++ [c] := NDir perm]> fs)
           end
  | Err e => Err (PathError "mkdir" p e)
  | Panic m => Panic m
  end.

(** [path[:i+1]] of [MkdirAll]: the path without its last element,
    trailing separators skipped first. *)
Definition parent_string (p : string) : string :=
  match reverse (elems p) with
  | _ :: ((_ :: _) as rparent) =>
      (if filepath.IsAbs p then "/" else "") +:+ strings.Join (reverse rparent) +:+ "/"
  | [_] => if filepath.IsAbs p then "/" else ""
  | [] => ""
  end.

(** [MkdirAll]: nothing to do for a directory; otherwise the parent
    first, then [Mkdir], whose failure is forgiven when the directory
    is there after all.  [fuel] bounds the recursion on the parent,
    which is shorter than the path. *)
Fixpoint MkdirAll_fuel (fuel : nat) (fs : gmap (list string) node) (cwd : list string)
    (p : string) (perm : Z) : result (gmap (list string) node) :=
  match Stat fs cwd p with
  | Ok dir =>
      if IsDir dir then Ok fs else Err (PathError "mkdir" p ENOTDIR)
  | Panic m => Panic m
  | Err _ =>
      match fuel with
      | O => Err (PathError "mkdir" p ENOENT)
      | S fuel' =>
          let parent := parent_string p in
          let made :=
            if bool_decide (parent ≠ "") then MkdirAll_fuel fuel' fs cwd parent perm
            else Ok fs in
          match made with
          | Ok fs1 =>
              match Mkdir fs1 cwd p perm with
              | Ok fs2 => Ok fs2
              | Err e =>
                  match Lstat fs1 cwd p with
                  | Ok dir => if IsDir dir then Ok fs1 else Err e
                  | _ => Err e
                  end
              | Panic m => Panic m
              end
          | Err e => Err e
          | Panic m => Panic m
          end
      end
  end.

Definition MkdirAll (fs : gmap (list string) node) (cwd : list string)
    (p : string) (perm : Z) : result (gmap (list string) node) :=
  MkdirAll_fuel (S (String.length p)) fs cwd p perm.

(** [OpenFile(p, O_CREATE|O_WRONLY|O_TRUNC, perm)] and [Create]: the
    file is made empty, created with [perm] if missing; the handle is
    the canonical path of the file. *)
Definition OpenFile_create_trunc (fs : gmap (list string) node) (cwd : list string)
    (p : string) (perm : Z) : result (list string * gmap (list string) node) :=
  match resolve fs cwd true p with
  | Ok k =>
      match fs !! k with
      | Some (NFile m _) => Ok (k, <[k := NFile m []]> fs)
      | Some (NDir _) => Err (PathError "open" p EISDIR)
      | Some (NSymlink _) => Err (PathError "open" p ELOOP)
      | None =>
          match fs !! removelast k with
          | Some (NDir _) => Ok (k, <[k := NFile perm []]> fs)
          | _ => Err (PathError "open" p ENOENT)
          end
      end
  | Err e => Err (PathError "open" p e)
  | Panic m => Panic m
  end.

(** [File.Write]: the bytes are appended to the open file. *)
Definition Write (fs : gmap (list string) node) (h : list string) (b : list byte)
  : result (gmap (list string) node) :=
  match fs !! h with
  | Some (NFile m d) => Ok (<[h := NFile m (d ++ b)]> fs)
  | _ => Err "write: bad file descriptor"
  end.

Definition Remove (fs : gmap (list string) node) (cwd : list string) (p : string)
  : result (gmap (list string) node) :=
  match lookup_path false "remove" fs cwd p with
  | Ok (k, NDir _) =>
      if bool_decide (children fs k = [] ∧ k ≠ []) then Ok (delete k fs)
      else Err (PathError "remove" p ENOTEMPTY)
  | Ok (k, _) => Ok (delete k fs)
  | Err e => Err e
  | Panic m => Panic m
  end.

Definition Symlink (fs : gmap (list string) node) (cwd : list string)
    (oldname newname : string) : result (gmap (list string) node) :=
  match resolve_parent fs cwd newname with
  | Ok (d, c) =>
      if bool_decide (c = "." ∨ c = "..") then Err (PathError "symlink" newname EEXIST)
      else if bool_decide (oldname = "") then Err (PathError "symlink" newname ENOENT)
      else match fs !! (d ++ [c]) with
           | Some _ => Err (PathError "symlink" newname EEXIST)
           | None => Ok (<[d ++ [c] := NSymlink oldname]> fs)
           end
  | Err e => Err (PathError "symlink" newname e)
  | Panic m => Panic m
  end.

End os.

(** ** package archive/tar over compress/gzip *)

Inductive typeflag : Type :=
  | TypeReg
  | TypeDir
  | TypeSymlink
  | TypeOther (flag : byte).

(** The fields of [tar.Header] the package reads or writes. *)
Record Header := mkHeader {
  Name : string;
  Linkname : string;
  Typeflag : typeflag;
  Mode : Z;
  Size : Z
}.

Record tar_entry := mkEntry {
  te_header : Header;
  te_body : list byte
}.

(** What a [tar.Reader] over a gzip stream yields: entries, each with the
    bytes its body gives before the end of the body or a read error, and
    then the end of the archive or an error. *)
Inductive tar_stream : Type :=
  | TarEOF
  | TarErr (e : error)
  | TarNext (h : Header) (body : list byte) (body_err : option error) (rest : tar_stream).

Fixpoint stream_of (es : list tar_entry) : tar_stream :=
  match es with
  | [] => TarEOF
  | e :: es' => TarNext (te_header e) (te_body e) None (stream_of es')
  end.

Fixpoint tar_prepend (es : list tar_entry) (s : tar_stream) : tar_stream :=
  match es with
  | [] => s
  | e :: es' => TarNext (te_header e) (te_body e) None (tar_prepend es' s)
  end.

(** The bytes an entry may carry: [Size] for a regular file, none for a
    header-only entry. *)
Definition body_size (h : Header) : Z :=
  match Typeflag h with
  | TypeReg => Size h
  | TypeOther _ => Size h
  | _ => 0
  end.

Definition entry_complete (e : tar_entry) : bool :=
  bool_decide (len (te_body e) = body_size (te_header e)).

(** [tar.FileInfoHeader(fi, link)] for the three kinds of the file
    system; the name is the base name, with a separator after a
    directory's. *)
Definition FileInfoHeader (fi : FileInfo) (link : string) : result Header :=
  match fi_kind fi with
  | KRegular => Ok (mkHeader (fi_Name fi) "" TypeReg (fi_Perm fi) (fi_Size fi))
  | KDir => Ok (mkHeader (fi_Name fi +:+ "/") "" TypeDir (fi_Perm fi) 0)
  | KSymlink => Ok (mkHeader (fi_Name fi) link TypeSymlink (fi_Perm fi) 0)
  end.

Definition with_Name (h : Header) (name : string) : Header :=
  mkHeader name (Linkname h) (Typeflag h) (Mode h) (Size h).
Definition with_Linkname (h : Header) (link : string) : Header :=
  mkHeader (Name h) link (Typeflag h) (Mode h) (Size h).

Definition nul_free (s : string) : Prop :=
  "000"%char ∉ String.list_ascii_of_string s.

(** ** The imported libraries

    [argon2.IDKey], the AES-GCM [Seal] and [Open] of crypto/cipher (nil
    destination, no additional data), and the byte format of a gzipped
    tar archive.  [tar_encodable] says which headers [WriteHeader] can
    write. *)
Class Library := {
  argon2_IDKey : list byte → list byte → Z → Z → Z → Z → list byte;
  gcm_Seal : list byte → list byte → list byte → list byte;
  gcm_Open : list byte → list byte → list byte → option (list byte);
  tar_encodable : Header → bool;
  targz_bytes : list tar_entry → list byte;
  targz_read : list byte → option tar_stream
}.

(** The part of the libraries' contract the package relies on: the key
    has the requested length; [Open] undoes [Seal] under the same key and
    nonce of the lengths AES-GCM takes; a header whose names have no NUL byte and whose size is not
    negative can be written; reading back what was written yields the
    entries in order and then the end of the archive. *)
Class LibraryOk (L : Library) : Prop := {
  argon2_IDKey_length : ∀ password salt time memory threads keyLen,
    0 ≤ keyLen → len (argon2_IDKey password salt time memory threads keyLen) = keyLen;
  gcm_Open_Seal : ∀ key nonce plaintext,
    len key = 16 ∨ len key = 24 ∨ len key = 32 → len nonce = 12 →
    gcm_Open key nonce (gcm_Seal key nonce plaintext) = Some plaintext;
  tar_encodable_names : ∀ h,
    nul_free (Name h) → nul_free (Linkname h) → 0 ≤ Size h → tar_encodable h = true;
  targz_read_bytes : ∀ es,
    Forall (λ e, tar_encodable (te_header e) = true ∧ entry_complete e = true) es →
    targz_read (targz_bytes es) = Some (stream_of es)
}.

(** ** The world and the monad of the package's operations *)

Record World := mkWorld {
  w_fs : gmap (list string) node;      (* the file system *)
  w_cwd : list string;                 (* the working directory *)
  w_heap : list (list byte);           (* byte arrays that are written in place *)
  w_secure : list (option nat);        (* SecureBytes structs: the Data field *)
  w_tty : option (list (result (list byte)));
                                       (* stdin: not a terminal, or the
                                          outcomes of the next ReadPassword calls *)
  w_rand : list byte;                  (* the bytes crypto/rand will give *)
  w_out : list string                  (* what was printed, in order *)
}.

Definition set_fs (fs : gmap (list string) node) (w : World) : World :=
  mkWorld fs (w_cwd w) (w_heap w) (w_secure w) (w_tty w) (w_rand w) (w_out w).
Definition set_heap (h : list (list byte)) (w : World) : World :=
  mkWorld (w_fs w) (w_cwd w) h (w_secure w) (w_tty w) (w_rand w) (w_out w).
Definition set_secure (s : list (option nat)) (w : World) : World :=
  mkWorld (w_fs w) (w_cwd w) (w_heap w) s (w_tty w) (w_rand w) (w_out w).
Definition set_tty (t : option (list (result (list byte)))) (w : World) : World :=
  mkWorld (w_fs w) (w_cwd w) (w_heap w) (w_secure w) t (w_rand w) (w_out w).
Definition set_rand (r : list byte) (w : World) : World :=
  mkWorld (w_fs w) (w_cwd w) (w_heap w) (w_secure w) (w_tty w) r (w_out w).
Definition set_out (o : list string) (w : World) : World :=
  mkWorld (w_fs w) (w_cwd w) (w_heap w) (w_secure w) (w_tty w) (w_rand w) o.

Definition M (A : Type) : Type := World → result A * World.

Definition ret {A} (a : A) : M A := λ w, (Ok a, w).
Definition fail {A} (e : error) : M A := λ w, (Err e, w).
Definition bind {A B} (m : M A) (k : A → M B) : M B :=
  λ w, match m w with
       | (Ok a, w') => k a w'
       | (Err e, w') => (Err e, w')
       | (Panic msg, w') => (Panic msg, w')
       end.

Notation "'let*' x ':=' m 'in' k" := (bind m (λ x, k))
  (at level 10, x name, m at level 100, k at level 200).
Notation "m ';;;' k" := (bind m (λ _, k))
  (at level 100, k at level 200, right associativity).

(** [defer cleanup()] at the head of [body]: the cleanup runs when the
    body has returned, whatever it returned. *)
Definition defer {A} (cleanup : M unit) (body : M A) : M A :=
  λ w, let '(r, w1) := body w in
       let '(_, w2) := cleanup w1 in (r, w2).

Definition lift {A} (r : result A) : M A := λ w, (r, w).

(** An operation that reads the file system. *)
Definition fs_read {A} (f : gmap (list string) node → list string → result A) : M A :=
  λ w, (f (w_fs w) (w_cwd w), w).

(** An operation that changes the file system when it succeeds. *)
Definition fs_update (f : gmap (list string) node → list string
                          → result (gmap (list string) node)) : M unit :=
  λ w, match f (w_fs w) (w_cwd w) with
       | Ok fs' => (Ok tt, set_fs fs' w)
       | Err e => (Err e, w)
       | Panic m => (Panic m, w)
       end.

(** [fmt.Print], [fmt.Println], [fmt.Printf] with the text worked out. *)
Definition Print (s : string) : M unit := λ w, (Ok tt, set_out (w_out w ++ [s]) w).

(** [make([]byte, n)] filled with [b]: a fresh array in the heap. *)
Definition alloc (b : list byte) : M nat :=
  λ w, (Ok (length (w_heap w)), set_heap (w_heap w ++ [b]) w).

(** The current bytes of a slice; a nil slice has none. *)
Definition bytes_at (h : list (list byte)) (s : option nat) : list byte :=
  match s with
  | Some l => default [] (h !! l)
  | None => []
  end.

Definition load (s : option nat) : M (list byte) := λ w, (Ok (bytes_at (w_heap w) s), w).

(** [for i := range b { b[i] = 0 }] *)
Definition zero_loop (b : list byte) : list byte :=
  foldl (λ acc i, <[i := x00]> acc) b (seq 0 (length b)).

Definition zero (s : option nat) : M unit :=
  λ w, match s with
       | Some l =>
           match w_heap w !! l with
           | Some b => (Ok tt, set_heap (<[l := zero_loop b]> (w_heap w)) w)
           | None => (Ok tt, w)
           end
       | None => (Ok tt, w)
       end.

(** A step that can fail, with the error wrapped as [fmt.Errorf("ctx: %w")]. *)
Definition wrap {A} (ctx : string) (m : M A) : M A :=
  λ w, match m w with
       | (Err e, w') => (Err (wrapf ctx e), w')
       | rw => rw
       end.

Definition rwrap {A} (ctx : string) (r : result A) : result A :=
  match r with
  | Err e => Err (wrapf ctx e)
  | _ => r
  end.

Definition rbind {A B} (r : result A) (k : A → result B) : result B :=
  match r with
  | Ok a => k a
  | Err e => Err e
  | Panic m => Panic m
  end.

(** *** The tar writer

    The state of a [tar.Writer] is the entries written so far, the
    current one first. *)
Module tar.

Definition ErrWriteTooLong : error := "archive/tar: write too long".
Definition errMissed : error := "archive/tar: missed writing bytes".
Definition errEncode : error := "archive/tar: cannot encode header".

Definition current_complete (tw : list tar_entry) : bool :=
  match tw with
  | e :: _ => entry_complete e
  | [] => true
  end.

Definition WriteHeader `{Library} (tw : list tar_entry) (hdr : Header)
  : result (list tar_entry) :=
  if negb (current_complete tw) then Err errMissed
  else if negb (tar_encodable hdr) then Err errEncode
  else Ok (mkEntry hdr [] :: tw).

(** [io.Copy(tarWriter, file)] for a file of contents [data]. *)
Definition Write (tw : list tar_entry) (data : list byte) : result (list tar_entry) :=
  match tw with
  | e :: rest =>
      if bool_decide (len (te_body e ++ data) ≤ body_size (te_header e))
      then Ok (mkEntry (te_header e) (te_body e ++ data) :: rest)
      else Err ErrWriteTooLong
  | [] => if bool_decide (data = []) then Ok [] else Err ErrWriteTooLong
  end.

Definition Close (tw : list tar_entry) : result unit :=
  if current_complete tw then Ok tt else Err errMissed.

End tar.

(** ** package cloak *)

(** *** SecureBytes (lines 44-58)

    A [*SecureBytes] is the index of its struct in [w_secure]; the field
    [Data] is nil or a byte array of the heap. *)

Definition Data (s : nat) : M (option nat) :=
  λ w, match w_secure w !! s with
       | Some d => (Ok d, w)
       | None => (Panic "nil pointer dereference", w)
       end.

Definition new_SecureBytes (data : option nat) : M nat :=
  λ w, (Ok (length (w_secure w)), set_secure (w_secure w ++ [data]) w).

Definition Wipe (s : nat) : M unit :=
  let* d := Data s in
  match d with
  | Some l =>
      zero (Some l) ;;;
      (λ w, (Ok tt, set_secure (<[s := None]> (w_secure w)) w))
  | None => ret tt
  end.

(** The bytes a [*SecureBytes] holds: none once [Data] is nil. *)
Definition held (w : World) (s : nat) : list byte :=
  bytes_at (w_heap w) (default None (w_secure w !! s)).

(** *** ReadPasswordSecure (lines 60-81) *)

(** [term.ReadPassword]: the next outcome the terminal holds. *)
Definition term_ReadPassword : M (option nat) :=
  λ w, match w_tty w with
       | Some (Ok line :: rest) =>
           (let* l := alloc line in ret (Some l)) (set_tty (Some rest) w)
       | Some (Err e :: rest) => (Err e, set_tty (Some rest) w)
       | Some (Panic m :: rest) => (Panic m, set_tty (Some rest) w)
       | Some [] => (Err "EOF", w)
       | None => (Err "inappropriate ioctl for device", w)
       end.

Definition IsTerminal : M bool := λ w, (Ok (bool_decide (w_tty w ≠ None)), w).

Definition ReadPasswordSecure (prompt : string) : M nat :=
  Print prompt ;;;
  let* is_tty := IsTerminal in
  if negb is_tty
  then fail "password input requires a terminal (stdin must be a TTY)"
  else
    λ w, match term_ReadPassword w with
         | (r, w1) =>
             match Print (String "010"%char "") w1 with
             | (_, w2) =>
                 match r with
                 | Err e => (Err (wrapf "failed to read password" e), w2)
                 | Panic m => (Panic m, w2)
                 | Ok password =>
                     if bool_decide (len (bytes_at (w_heap w2) password) = 0)
                     then (Err "password cannot be empty", w2)
                     else new_SecureBytes password w2
                 end
             end
         end.

(** *** DeriveKey (lines 83-87) *)
Definition DeriveKey `{Library} (password salt : list byte) : M nat :=
  let* key := alloc (argon2_IDKey password salt argonTime argonMemory argonThreads KeySize) in
  new_SecureBytes (Some key).

(** *** GenerateRandomBytes (lines 89-97) *)
Definition rand_Read (size : Z) : M (list byte) :=
  λ w, if bool_decide (size ≤ len (w_rand w))
       then (Ok (take (Z.to_nat size) (w_rand w)),
             set_rand (drop (Z.to_nat size) (w_rand w)) w)
       else (Err "crypto/rand: no entropy", w).

Definition GenerateRandomBytes (size : Z) : M (list byte) :=
  wrap "failed to generate random bytes" (rand_Read size).

(** *** filepath.Walk

    [walkFn] receives the path, the [FileInfo] (nil after a failed
    [Lstat]) and the error, and works on the state [St] its closure
    captures.  The callback of this package returns neither [SkipDir] nor
    [SkipAll], so the special treatment of these two values is left out.
    The recursion descends one directory level per call; [fuel] is the
    number of levels allowed, and [Walk] allows more than the file system
    has. *)

Definition max_depth (fs : gmap (list string) node) : nat :=
  foldr (λ kv acc, Nat.max (length kv.1) acc) 0%nat (map_to_list fs).

Section Walk.
Context {St : Type}.

Definition WalkFunc : Type := string → option FileInfo → option error → St → M St.

(** The loop of [walk] over the names of a directory; [rec] is [walk]
    itself, one level further down. *)
Definition walk_names (rec : string → FileInfo → WalkFunc → St → M St)
    (path : string) (walkFn : WalkFunc) : list string → St → M St :=
  fix each (names : list string) (st : St) {struct names} : M St :=
    match names with
    | [] => ret st
    | name :: names' =>
        let filename := filepath.Join [path; name] in
        λ w,
          match os.Lstat (w_fs w) (w_cwd w) filename with
          | Err e =>
              (let* st' := walkFn filename None (Some e) st in
               each names' st') w
          | Panic m => (Panic m, w)
          | Ok fileInfo =>
              (let* st' := rec filename fileInfo walkFn st in
               each names' st') w
          end
    end.

Fixpoint walk (fuel : nat) (path : string) (info : FileInfo) (walkFn : WalkFunc)
    (st : St) {struct fuel} : M St :=
  if negb (IsDir info) then walkFn path (Some info) None st
  else λ w,
    match os.readDirNames (w_fs w) (w_cwd w) path with
    | Err e => walkFn path (Some info) (Some e) st w
    | Panic m => (Panic m, w)
    | Ok names =>
        (let* st1 := walkFn path (Some info) None st in
         match fuel with
         | O => fail "walk: directory tree too deep"
         | S fuel' => walk_names (walk fuel') path walkFn names st1
         end) w
    end.

Definition Walk (root : string) (fn : WalkFunc) (st : St) : M St :=
  λ w,
    match os.Lstat (w_fs w) (w_cwd w) root with
    | Err e => fn root None (Some e) st w
    | Panic m => (Panic m, w)
    | Ok info => walk (S (max_depth (w_fs w))) root info fn st w
    end.

End Walk.

(** *** ArchiveDirectory (lines 99-165) *)

(** The callback given to [filepath.Walk], lines 108-149; the state is
    the tar writer. *)
Definition ArchiveDirectory_visit `{Library} (dirPath : string)
  : @WalkFunc (list tar_entry) :=
  λ path info err tw,
    match err with
    | Some e => fail e
    | None =>
        match info with
        | None => lift (Panic "nil pointer dereference")
        | Some info =>
            let* header := lift (rwrap "failed to create tar header" (FileInfoHeader info "")) in
            let* relPath := lift (filepath.Rel (filepath.Dir dirPath) path) in
            let header := with_Name header relPath in
            let* header :=
              (if IsSymlink info
               then let* link := fs_read (λ fs cwd, os.Readlink fs cwd path) in
                    ret (with_Linkname header link)
               else ret header) in
            let* tw := lift (rwrap "failed to write tar header" (tar.WriteHeader tw header)) in
            if IsRegular info
            then
              let* file := fs_read (λ fs cwd, os.ReadFile fs cwd path) in
              lift (rwrap "failed to write file to archive" (tar.Write tw file))
            else ret tw
        end
    end.

Definition ArchiveDirectory `{Library} (dirPath : string) : M (option nat) :=
  let baseName := filepath.Base dirPath in
  let* tw := Walk dirPath (ArchiveDirectory_visit dirPath) [] in
  lift (rwrap "failed to close tar writer" (tar.Close tw)) ;;;
  let* buf := alloc (targz_bytes (reverse tw)) in
  let* bytes := load (Some buf) in
  Print ("Archived directory '" +:+ baseName +:+ "' (" +:+ pretty (len bytes)
         +:+ " bytes compressed)" +:+ String "010"%char "") ;;;
  ret (Some buf).

(** *** ExtractArchive (lines 167-228) *)

(** [os.FileMode(header.Mode)]: the conversion to an unsigned 32-bit value. *)
Definition FileMode (mode : Z) : Z := mode mod 2 ^ 32.

(** The loop body, lines 186-224, for one entry. *)
Definition ExtractArchive_entry (destDir : string) (header : Header)
    (body : list byte) (body_err : option error) : M unit :=
  let cleanName := filepath.Clean (Name header) in
  if strings.HasPrefix cleanName ".." || filepath.IsAbs cleanName
  then fail ("invalid path in archive: " +:+ Name header)
  else
    let targetPath := filepath.Join [destDir; cleanName] in
    match Typeflag header with
    | TypeDir =>
        wrap "failed to create directory"
          (fs_update (λ fs cwd, os.MkdirAll fs cwd targetPath (FileMode (Mode header))))
    | TypeReg =>
        fs_update (λ fs cwd, os.MkdirAll fs cwd (filepath.Dir targetPath) 493) ;;;
        let* file :=
          wrap "failed to create file"
            (λ w, match os.OpenFile_create_trunc (w_fs w) (w_cwd w) targetPath
                          (FileMode (Mode header)) with
                  | Ok (h, fs') => (Ok h, set_fs fs' w)
                  | Err e => (Err e, w)
                  | Panic m => (Panic m, w)
                  end) in
        wrap "failed to write file"
          (fs_update (λ fs _, os.Write fs file body) ;;;
           match body_err with
           | Some e => fail e
           | None => ret tt
           end)
    | TypeSymlink =>
        fs_update (λ fs cwd, os.MkdirAll fs cwd (filepath.Dir targetPath) 493) ;;;
        (λ w, match fs_update (λ fs cwd, os.Remove fs cwd targetPath) w with
              | (_, w') => (Ok tt, w')
              end) ;;;
        wrap "failed to create symlink"
          (fs_update (λ fs cwd, os.Symlink fs cwd (Linkname header) targetPath))
    | TypeOther _ => ret tt
    end.

(** The loop over [tarReader.Next()].  A body that was not read is
    skipped by the next call of [Next], which then meets its error. *)
Fixpoint ExtractArchive_loop (destDir : string) (s : tar_stream) : M unit :=
  match s with
  | TarEOF => ret tt
  | TarErr e => fail (wrapf "failed to read tar entry" e)
  | TarNext header body body_err rest =>
      ExtractArchive_entry destDir header body body_err ;;;
      match Typeflag header, body_err with
      | TypeReg, _ | _, None => ExtractArchive_loop destDir rest
      | _, Some e => fail (wrapf "failed to read tar entry" e)
      end
  end.

Definition ExtractArchive `{Library} (data : list byte) (destDir : string) : M unit :=
  match targz_read data with
  | None => fail (wrapf "failed to create gzip reader" "gzip: invalid header")
  | Some s => ExtractArchive_loop destDir s
  end.

(** *** EncryptData and DecryptData (lines 230-264) *)

(** [aes.NewCipher]: the key must have 16, 24 or 32 bytes. *)
Definition aes_NewCipher (key : list byte) : result (list byte) :=
  if bool_decide (len key = 16 ∨ len key = 24 ∨ len key = 32) then Ok key
  else Err ("crypto/aes: invalid key size " +:+ pretty (len key)).

(** [cipher.NewGCM] fails only for a block size other than 16 bytes,
    which the AES block never has. *)
Definition cipher_NewGCM (block : list byte) : result (list byte) := Ok block.

Definition gcm_NonceSize : Z := 12.
Definition errNonce : string := "crypto/cipher: incorrect nonce length given to GCM".

Definition EncryptData `{Library} (plaintext key nonce : list byte) : result (list byte) :=
  rbind (rwrap "failed to create AES cipher" (aes_NewCipher key)) (λ block,
  rbind (rwrap "failed to create GCM" (cipher_NewGCM block)) (λ gcm,
  if bool_decide (len nonce ≠ gcm_NonceSize) then Panic errNonce
  else Ok (gcm_Seal gcm nonce plaintext))).

Definition errDecrypt : error := "decryption failed: invalid password or corrupted file".

Definition DecryptData `{Library} (ciphertext key nonce : list byte) : result (list byte) :=
  rbind (rwrap "failed to create AES cipher" (aes_NewCipher key)) (λ block,
  rbind (rwrap "failed to create GCM" (cipher_NewGCM block)) (λ gcm,
  if bool_decide (len nonce ≠ gcm_NonceSize) then Panic errNonce
  else match gcm_Open gcm nonce ciphertext with
       | Some plaintext => Ok plaintext
       | None => Err errDecrypt
       end)).

(** *** Encrypt (lines 266-364) *)

(** [subtle.ConstantTimeCompare]: 1 for equal contents, 0 otherwise. *)
Definition ConstantTimeCompare (x y : list byte) : Z :=
  if bool_decide (x = y) then 1 else 0.

Definition Getwd (cwd : list string) : string := "/" +:+ strings.Join cwd.

(** [filepath.Abs] *)
Definition Abs (path : string) : M string :=
  λ w, if filepath.IsAbs path then (Ok (filepath.Clean path), w)
       else (Ok (filepath.Join [Getwd (w_cwd w); path]), w).

Definition newline : string := String "010"%char "".
Definition Println (s : string) : M unit := Print (s +:+ newline).

(** [os.Create]: [OpenFile] with [O_RDWR|O_CREATE|O_TRUNC] and mode 0666. *)
Definition Create (name : string) : M (list string) :=
  λ w, match os.OpenFile_create_trunc (w_fs w) (w_cwd w) name 438 with
       | Ok (h, fs') => (Ok h, set_fs fs' w)
       | Err e => (Err e, w)
       | Panic m => (Panic m, w)
       end.

Definition File_Write (f : list string) (b : list byte) : M unit :=
  fs_update (λ fs _, os.Write fs f b).

(** Lines 341-359: the container is written field by field. *)
Definition Encrypt_write (outFile : list string) (salt nonce ciphertext : list byte)
  : M unit :=
  File_Write outFile (bytes_of_string MagicBytes) ;;;
  File_Write outFile salt ;;;
  File_Write outFile nonce ;;;
  let sizeBytes := PutUint64 (uint64 (len ciphertext)) in
  File_Write outFile sizeBytes ;;;
  File_Write outFile ciphertext.

(** Lines 268-284: the checks made before a password is asked for; the
    result is the output path. *)
Definition Encrypt_validate (folderPath : string) : M string :=
  let* info := wrap "cannot access folder" (fs_read (λ fs cwd, os.Stat fs cwd folderPath)) in
  if negb (IsDir info) then fail "path is not a directory"
  else
    let* absPath := Abs folderPath in
    let outputPath := strings.TrimSuffix absPath filepath.Separator +:+ ".cloak" in
    λ w, match os.Stat (w_fs w) (w_cwd w) outputPath with
         | Ok _ => (Err ("output file already exists: " +:+ outputPath), w)
         | _ => (Ok outputPath, w)
         end.

(** Lines 302-363, with both passwords read and found equal. *)
Definition Encrypt_body `{Library} (folderPath outputPath : string) (password : nat)
  : M unit :=
  Println "Archiving directory..." ;;;
  let* archive := wrap "failed to archive directory" (ArchiveDirectory folderPath) in
  let* salt := GenerateRandomBytes SaltSize in
  let* nonce := GenerateRandomBytes NonceSize in
  Println "Deriving encryption key (this may take a moment)..." ;;;
  let* password_Data := Data password in
  let* password_bytes := load password_Data in
  let* key := DeriveKey password_bytes salt in
  defer (Wipe key)
    (Println "Encrypting data..." ;;;
     let* archive_bytes := load archive in
     let* key_Data := Data key in
     let* key_bytes := load key_Data in
     let* ciphertext := lift (EncryptData archive_bytes key_bytes nonce) in
     zero archive ;;;
     let* outFile := wrap "failed to create output file" (Create outputPath) in
     Encrypt_write outFile salt nonce ciphertext ;;;
     Print ("Successfully encrypted to: " +:+ outputPath +:+ newline) ;;;
     Print ("Original size: " +:+ pretty (len archive_bytes) +:+ " bytes, Encrypted size: "
            +:+ pretty (len ciphertext) +:+ " bytes" +:+ newline)).

Definition Encrypt `{Library} (folderPath : string) : M unit :=
  let* outputPath := Encrypt_validate folderPath in
  let* password := ReadPasswordSecure "Enter encryption password: " in
  defer (Wipe password)
    (let* confirmPassword := ReadPasswordSecure "Confirm password: " in
     defer (Wipe confirmPassword)
       (let* password_Data := Data password in
        let* confirm_Data := Data confirmPassword in
        let* p := load password_Data in
        let* c := load confirm_Data in
        if bool_decide (ConstantTimeCompare p c ≠ 1)
        then fail "passwords do not match"
        else Encrypt_body folderPath outputPath password)).

(** *** Decrypt (lines 366-442) *)

(** Lines 381-404: the header checks and the field slices. *)
Definition headerSize : Z := len (bytes_of_string MagicBytes) + SaltSize + NonceSize + 8.

Record container := Container {
  c_salt : list byte;
  c_nonce : list byte;
  c_ciphertext : list byte
}.

Definition errTooSmall : error := "invalid file: too small to be a valid encrypted file".
Definition errBadMagic : error := "invalid file: not a valid .cloak file".
Definition errSizeMismatch : error := "invalid file: size mismatch, file may be corrupted".

Definition Decrypt_parse (data : list byte) : result container :=
  if bool_decide (len data < headerSize) then Err errTooSmall
  else if bool_decide (slice data 0 (len (bytes_of_string MagicBytes))
                       ≠ bytes_of_string MagicBytes) then Err errBadMagic
  else
    let offset := len (bytes_of_string MagicBytes) in
    let salt := slice data offset (offset + SaltSize) in
    let offset := offset + SaltSize in
    let nonce := slice data offset (offset + NonceSize) in
    let offset := offset + NonceSize in
    let expectedSize := Uint64 (slice data offset (offset + 8)) in
    let offset := offset + 8 in
    let ciphertext := slice_from data offset in
    if bool_decide (uint64 (len ciphertext) ≠ expectedSize) then Err errSizeMismatch
    else Ok (Container salt nonce ciphertext).

(** A format error is one of the three texts above. *)
Definition FormatError (e : error) : Prop :=
  e = errTooSmall ∨ e = errBadMagic ∨ e = errSizeMismatch.

(** Lines 419-441, with the key derived: decrypt, extract into the
    directory of the container, clear the archive. *)
Definition Decrypt_body `{Library} (filePath : string) (c : container) (key : nat)
  : M unit :=
  Println "Decrypting data..." ;;;
  let* key_Data := Data key in
  let* key_bytes := load key_Data in
  let* plaintext := lift (DecryptData (c_ciphertext c) key_bytes (c_nonce c)) in
  let* buf := alloc plaintext in
  let archive := Some buf in
  let* absPath := Abs filePath in
  let outputDir := filepath.Dir absPath in
  Println "Extracting files..." ;;;
  let* archive_bytes := load archive in
  wrap "failed to extract archive" (ExtractArchive archive_bytes outputDir) ;;;
  zero archive ;;;
  Print ("Successfully decrypted to: " +:+ outputDir +:+ newline).

Definition Decrypt `{Library} (filePath : string) : M unit :=
  let* info := wrap "cannot access file" (fs_read (λ fs cwd, os.Stat fs cwd filePath)) in
  if IsDir info then fail "path is a directory, expected encrypted file"
  else
    let* data := wrap "failed to read file" (fs_read (λ fs cwd, os.ReadFile fs cwd filePath)) in
    let* c := lift (Decrypt_parse data) in
    let* password := ReadPasswordSecure "Enter decryption password: " in
    defer (Wipe password)
      (Println "Deriving decryption key (this may take a moment)..." ;;;
       let* password_Data := Data password in
       let* password_bytes := load password_Data in
       let* key := DeriveKey password_bytes (c_salt c) in
       defer (Wipe key) (Decrypt_body filePath c key)).

(** ** A small instance of the library interface

    Not the real algorithms: an instance simple enough to compute with,
    which shows that the contract [LibraryOk] can be met and lets the
    operations above run on concrete worlds.  The key is cut from the
    password and the salt, the seal appends a 16-byte tag cut from key
    and nonce, and an archive is the binary numeral that stdpp's
    [encode] gives its entries. *)

#[global] Instance typeflag_eq_dec : EqDecision typeflag.
Proof. solve_decision. Defined.
#[global] Instance Header_eq_dec : EqDecision Header.
Proof. solve_decision. Defined.
#[global] Instance tar_entry_eq_dec : EqDecision tar_entry.
Proof. solve_decision. Defined.
#[global] Instance node_eq_dec : EqDecision node.
Proof. solve_decision. Defined.
#[global] Instance result_eq_dec {A} `{EqDecision A} : EqDecision (result A).
Proof. solve_decision. Defined.

#[global] Instance byte_countable : Countable byte :=
  inj_countable Byte.to_N Byte.of_N Byte.of_to_N.

Module toy.

Definition flag_code (t : typeflag) : nat + byte :=
  match t with
  | TypeReg => inl 0%nat
  | TypeDir => inl 1%nat
  | TypeSymlink => inl 2%nat
  | TypeOther b => inr b
  end.
Definition code_flag (c : nat + byte) : typeflag :=
  match c with
  | inl 0%nat => TypeReg
  | inl 1%nat => TypeDir
  | inl _ => TypeSymlink
  | inr b => TypeOther b
  end.

Definition entry_code (e : tar_entry) : string * string * (nat + byte) * Z * Z * list byte :=
  (Name (te_header e), Linkname (te_header e), flag_code (Typeflag (te_header e)),
   Mode (te_header e), Size (te_header e), te_body e).
Definition code_entry (c : string * string * (nat + byte) * Z * Z * list byte) : tar_entry :=
  let '(n, l, t, m, s, b) := c in mkEntry (mkHeader n l (code_flag t) m s) b.

Fixpoint pos_bytes (p : positive) : list byte :=
  match p with
  | xH => []
  | xO p' => x00 :: pos_bytes p'
  | xI p' => x01 :: pos_bytes p'
  end.
Fixpoint bytes_pos (b : list byte) : positive :=
  match b with
  | [] => xH
  | c :: b' => if bool_decide (c = x00) then xO (bytes_pos b') else xI (bytes_pos b')
  end.

Definition IDKey (password salt : list byte) (time memory threads keyLen : Z) : list byte :=
  take (Z.to_nat keyLen) (password ++ salt ++ replicate (Z.to_nat keyLen) x00).

Definition tag (key nonce : list byte) : list byte :=
  take 16 (key ++ nonce ++ replicate 16 x00).

Definition Seal (key nonce plaintext : list byte) : list byte :=
  plaintext ++ tag key nonce.

Definition Open (key nonce ciphertext : list byte) : option (list byte) :=
  let n := (length ciphertext - 16)%nat in
  if bool_decide (16 ≤ length ciphertext ∧ drop n ciphertext = tag key nonce)%nat
  then Some (take n ciphertext) else None.

Definition encodable (h : Header) : bool := bool_decide (0 ≤ Size h).

Definition archive_bytes (es : list tar_entry) : list byte :=
  pos_bytes (encode (entry_code <$> es)).

Definition archive_read (b : list byte) : option tar_stream :=
  match decode (bytes_pos b) with
  | Some cs => Some (stream_of (code_entry <$> cs))
  | None => None
  end.

Definition library : Library :=
  {| argon2_IDKey := IDKey;
     gcm_Seal := Seal;
     gcm_Open := Open;
     tar_encodable := encodable;
     targz_bytes := archive_bytes;
     targz_read := archive_read |}.

End toy.

(** What makes [Open] the check of [Seal], and holds of AES-GCM without
    exception: [Open] recomputes the tag of the bytes it is given and
    decrypts them only when the tag they carry is that one, so whatever
    it accepts is the sealing, under the same key and nonce, of the
    plaintext it returns. *)
Class GcmSound (L : Library) : Prop := {
  gcm_Open_sound : ∀ key nonce ciphertext plaintext,
    len key = 16 ∨ len key = 24 ∨ len key = 32 → len nonce = 12 →
    gcm_Open key nonce ciphertext = Some plaintext →
    ciphertext = gcm_Seal key nonce plaintext
}.

(** A second small instance, whose 16-byte tag depends on the plaintext
    as well as on the key and the nonce: a change of any one byte of the
    sealed text changes the tag that [Open] recomputes. *)
Module toy_mac.

Definition mix (i : Z) (data : list byte) : Z :=
  foldl (λ acc b, (acc * 31 + byte_to_Z b + 1) mod 256) i data.

Definition tag (key nonce plaintext : list byte) : list byte :=
  (λ i : nat, byte_of_Z (mix (Z.of_nat i) (key ++ nonce ++ plaintext))) <$> seq 0 16.

Definition Seal (key nonce plaintext : list byte) : list byte :=
  plaintext ++ tag key nonce plaintext.

Definition Open (key nonce ciphertext : list byte) : option (list byte) :=
  let n := (length ciphertext - 16)%nat in
  let plaintext := take n ciphertext in
  if bool_decide (16 ≤ length ciphertext ∧ drop n ciphertext = tag key nonce plaintext)%nat
  then Some plaintext else None.

Definition library : Library :=
  {| argon2_IDKey := toy.IDKey;
     gcm_Seal := Seal;
     gcm_Open := Open;
     tar_encodable := toy.encodable;
     targz_bytes := toy.archive_bytes;
     targz_read := toy.archive_read |}.

End toy_mac.


(** ** Directory trees

    What the properties of archiving and extraction speak of: the tree of
    regular files, directories and symbolic links below a directory, the
    children of a directory listed by name, in the order of the byte-wise
    comparison [filepath.Walk] visits them in. *)

#[local] Set Warnings "-register-all".

Inductive tree : Type :=
  | File (mode : Z) (data : list byte)
  | Dir (mode : Z) (entries : list (string * tree))
  | Symlink (target : string).

Definition is_dir (fs : gmap (list string) node) (k : list string) : Prop :=
  ∃ m, fs !! k = Some (NDir m).

(** Every element of [k] below the origin [o] is a directory, and so is
    the origin: resolving [k] meets no symbolic link. *)
Definition real_dir (fs : gmap (list string) node) (o k : list string) : Prop :=
  ∀ i : nat, (i ≤ length k)%nat → is_dir fs (o ++ take i k).

(** A cleaned path string, absolute or relative, and the directory its
    elements are counted from. *)
Definition path_string (rooted : bool) (k : list string) : string :=
  if rooted then abs_path k else rel_path k.

Definition origin (rooted : bool) (cwd : list string) : list string :=
  if rooted then [] else cwd.

Definition node_of (t : tree) : node :=
  match t with
  | File m d => NFile m d
  | Dir m _ => NDir m
  | Symlink tg => NSymlink tg
  end.

(** The archive entry of the root of a tree. *)
Definition tree_entry (rel : list string) (t : tree) : tar_entry :=
  match t with
  | File m d => mkEntry (mkHeader (rel_path rel) "" TypeReg m (len d)) d
  | Dir m _ => mkEntry (mkHeader (rel_path rel) "" TypeDir m 0) []
  | Symlink tg => mkEntry (mkHeader (rel_path rel) tg TypeSymlink 511 0) []
  end.

Definition tree_root_ok (t : tree) : Prop :=
  match t with
  | File m _ | Dir m _ => 0 ≤ m < 2 ^ 32
  | Symlink tg => tg ≠ ""
  end.

(** The names are file names, listed in order and without repetition;
    permission bits fit the 32 bits of [os.FileMode]; a link has a target
    without NUL byte. *)
Fixpoint wf_tree (t : tree) : Prop :=
  match t with
  | File m d => 0 ≤ m < 2 ^ 32
  | Symlink tg => tg ≠ "" ∧ nul_free tg
  | Dir m es =>
      0 ≤ m < 2 ^ 32
      ∧ Sorted String.le es.*1 ∧ NoDup es.*1
      ∧ (fix all (es : list (string * tree)) : Prop :=
           match es with
           | [] => True
           | (n, c) :: es' => valid_name n = true ∧ wf_tree c ∧ all es'
           end) es
  end.

(** The file system holds exactly the tree [t] at the path [p]. *)
Fixpoint holds (fs : gmap (list string) node) (p : list string) (t : tree) : Prop :=
  match t with
  | File m d => fs !! p = Some (NFile m d)
  | Symlink tg => fs !! p = Some (NSymlink tg)
  | Dir m es =>
      fs !! p = Some (NDir m)
      ∧ (∀ n, is_Some (fs !! (p ++ [n])) → n ∈ es.*1)
      ∧ (fix all (es : list (string * tree)) : Prop :=
           match es with
           | [] => True
           | (n, c) :: es' => holds fs (p ++ [n]) c ∧ all es'
           end) es
  end.

(** The same, the permission bits left aside: names, kinds, contents and
    link targets. *)
Fixpoint reproduces (fs : gmap (list string) node) (p : list string) (t : tree) : Prop :=
  match t with
  | File _ d => ∃ m, fs !! p = Some (NFile m d)
  | Symlink tg => fs !! p = Some (NSymlink tg)
  | Dir _ es =>
      is_dir fs p
      ∧ (∀ n, is_Some (fs !! (p ++ [n])) → n ∈ es.*1)
      ∧ (fix all (es : list (string * tree)) : Prop :=
           match es with
           | [] => True
           | (n, c) :: es' => reproduces fs (p ++ [n]) c ∧ all es'
           end) es
  end.

(** The entries [ArchiveDirectory] writes for a tree whose root has the
    archive name [rel]: the node, then its children in order. *)
Fixpoint flatten (rel : list string) (t : tree) : list tar_entry :=
  match t with
  | File m d => [mkEntry (mkHeader (rel_path rel) "" TypeReg m (len d)) d]
  | Symlink tg => [mkEntry (mkHeader (rel_path rel) tg TypeSymlink 511 0) []]
  | Dir m es =>
      mkEntry (mkHeader (rel_path rel) "" TypeDir m 0) []
      :: (fix each (es : list (string * tree)) : list tar_entry :=
            match es with
            | [] => []
            | (n, c) :: es' => flatten (rel ++ [n]) c ++ each es'
            end) es
  end.

(** The file system with the nodes of [t] put at [p], in the order
    [ExtractArchive] creates them. *)
Fixpoint plant (t : tree) (p : list string) (fs : gmap (list string) node)
  : gmap (list string) node :=
  match t with
  | File m d => <[p := NFile m d]> fs
  | Symlink tg => <[p := NSymlink tg]> fs
  | Dir m es =>
      (fix each (es : list (string * tree)) (fs : gmap (list string) node) :=
         match es with
         | [] => fs
         | (n, c) :: es' => each es' (plant c (p ++ [n]) fs)
         end) es (<[p := NDir m]> fs)
  end.

(** The round trip of the specification, as the test
    [TestFullEncryptDecryptCycle] of cloak_test.go runs it: archive,
    derive the key, encrypt, clear the archive, derive the key again,
    decrypt, extract. *)
Definition FullEncryptDecryptCycle `{Library} (testDir extractDir : string)
    (password salt nonce : list byte) : M unit :=
  let* archive := ArchiveDirectory testDir in
  let* key := DeriveKey password salt in
  let* archive_bytes := load archive in
  let* key_Data := Data key in
  let* key_bytes := load key_Data in
  let* ciphertext := lift (EncryptData archive_bytes key_bytes nonce) in
  Wipe key ;;;
  zero archive ;;;
  let* key2 := DeriveKey password salt in
  let* key2_Data := Data key2 in
  let* key2_bytes := load key2_Data in
  let* decrypted := lift (DecryptData ciphertext key2_bytes nonce) in
  Wipe key2 ;;;
  ExtractArchive decrypted extractDir.

(** ** A world to run the operations in

    The directory [/home/u/docs] holds [a.txt], the directory [sub] with
    [b.txt], and a symbolic link; [/out] is an empty directory.  The
    terminal has the password typed twice. *)

Definition example_fs : gmap (list string) node :=
  list_to_map
    [ ([], NDir 493); (["home"], NDir 493); (["home"; "u"], NDir 493);
      (["home"; "u"; "docs"], NDir 493);
      (["home"; "u"; "docs"; "a.txt"], NFile 420 (bytes_of_string "hello"));
      (["home"; "u"; "docs"; "sub"], NDir 493);
      (["home"; "u"; "docs"; "sub"; "b.txt"], NFile 420 (bytes_of_string "world"));
      (["home"; "u"; "docs"; "link"], NSymlink "sub/b.txt");
      (["out"], NDir 493) ].

Definition example_world : World :=
  mkWorld example_fs ["home"; "u"] [] []
    (Some [Ok (bytes_of_string "pw123!"); Ok (bytes_of_string "pw123!")])
    (replicate 44 x07) [].

(** The tree at [/home/u/docs]. *)
Definition example_tree : tree :=
  Dir 493
    [ ("a.txt", File 420 (bytes_of_string "hello"));
      ("link", Symlink "sub/b.txt");
      ("sub", Dir 493 [ ("b.txt", File 420 (bytes_of_string "world")) ]) ].

(** A directory whose name begins with two dots, as the directories
    [..data] of a mounted Kubernetes volume do. *)
Definition dotdot_tree : tree :=
  Dir 493 [ ("f", File 420 (bytes_of_string "data")) ].

Definition dotdot_fs : gmap (list string) node :=
  list_to_map
    [ ([], NDir 493); (["src"], NDir 493); (["src"; "..data"], NDir 493);
      (["src"; "..data"; "f"], NFile 420 (bytes_of_string "data"));
      (["out"], NDir 493) ].

Definition dotdot_world : World :=
  mkWorld dotdot_fs [] [] [] None [] [].

(** A container made for the password "pw": its archive has one entry,
    a regular file named [../evil]. *)
Definition evil_salt : list byte := replicate 32 x01.
Definition evil_nonce : list byte := replicate 12 x02.
Definition evil_archive : list byte :=
  toy.archive_bytes [mkEntry (mkHeader "../evil" "" TypeReg 420 1) [x58]].
Definition evil_container : list byte :=
  bytes_of_string MagicBytes ++ evil_salt ++ evil_nonce
  ++ PutUint64 (len evil_archive + 16)
  ++ toy.Seal (toy.IDKey (bytes_of_string "pw") evil_salt 3 65536 4 32) evil_nonce
       evil_archive.

Definition evil_world : World :=
  mkWorld {[ [] := NDir 493; ["in"] := NDir 493;
             ["in"; "evil.cloak"] := NFile 420 evil_container ]}
    [] [] [] (Some [Ok (bytes_of_string "pw")]) [] [].

(** ** What Encrypt writes

    The ciphertext and the container [Encrypt] produces for the tree [t]
    named [base], from the password typed and the bytes the random source
    gives: 32 of salt, then 12 of nonce. *)
Definition sealed `{Library} (base : string) (t : tree) (password rand : list byte)
  : list byte :=
  gcm_Seal (argon2_IDKey password (take 32 rand) argonTime argonMemory argonThreads KeySize)
    (take 12 (drop 32 rand)) (targz_bytes (flatten [base] t)).

Definition container_bytes `{Library} (base : string) (t : tree)
    (password rand : list byte) : list byte :=
  bytes_of_string MagicBytes ++ take 32 rand ++ take 12 (drop 32 rand)
  ++ PutUint64 (uint64 (len (sealed base t password rand))) ++ sealed base t password rand.

(** A computation that returns the world it was given: it only reads. *)
Definition pure_read {A} (m : M A) : Prop := ∀ w, (m w).2 = w.

(** A small directory [/src/box] to encrypt, and a directory [/in] that
    holds the container made from it with the password "pw" and the
    random bytes of [box_world]. *)
Definition box_tree : tree :=
  Dir 493 [ ("f", File 420 (bytes_of_string "data")) ].

Definition box_rand : list byte := replicate 32 x03 ++ replicate 12 x04.

Definition box_world : World :=
  mkWorld
    (list_to_map
       [ ([], NDir 493); (["src"], NDir 493); (["src"; "box"], NDir 493);
         (["src"; "box"; "f"], NFile 420 (bytes_of_string "data")) ])
    [] [] []
    (Some [Ok (bytes_of_string "pw"); Ok (bytes_of_string "pw")])
    box_rand [].

Definition inbox_container : list byte :=
  container_bytes (H := toy.library) "box" box_tree (bytes_of_string "pw") box_rand.

Definition inbox_world : World :=
  mkWorld
    (list_to_map
       [ ([], NDir 493); (["in"], NDir 493);
         (["in"; "box.cloak"], NFile 438 inbox_container) ])
    ["in"] [] [] (Some [Ok (bytes_of_string "pw")]) [] [].

(** An archive of two entries: a symbolic link [l] to the directory
    [target], then a regular file [l/f]. *)
Definition link_then_file (target : list string) (l f : string) (mode : Z)
    (body : list byte) : list tar_entry :=
  [ mkEntry (mkHeader l (abs_path target) TypeSymlink 511 0) [];
    mkEntry (mkHeader (rel_path [l; f]) "" TypeReg mode (len body)) body ].

(** ** What an operation may change

    [post m R]: the world [m] leaves is related by [R] to the one it was
    given, whatever it returns.  [same_files]: the file system and the
    working directory are the same.  [adds_file]: at most one path is
    new, a regular file, and every other path is as it was. *)
Definition post {A} (m : M A) (R : World → World → Prop) : Prop :=
  ∀ w, R w (m w).2.

Definition same_files (w w' : World) : Prop :=
  w_fs w' = w_fs w ∧ w_cwd w' = w_cwd w.

Definition adds_file (w w' : World) : Prop :=
  w_cwd w' = w_cwd w
  ∧ (w_fs w' = w_fs w
     ∨ ∃ h m d, w_fs w !! h = None ∧ w_fs w' = <[h := NFile m d]> (w_fs w)).

(** The file system of [w] is that of [w0] with the regular file [h]
    put in. *)
Definition holds_new (h : list string) (w0 w : World) : Prop :=
  w_cwd w = w_cwd w0 ∧ ∃ m d, w_fs w = <[h := NFile m d]> (w_fs w0).

(** * Properties *)

(** ** The path functions on the examples of the documentation of
    path/filepath *)

Example Clean_doc_1 : filepath.Clean "a//c" = "a/c". Proof. reflexivity. Qed.
Example Clean_doc_2 : filepath.Clean "a/c/b/.." = "a/c". Proof. reflexivity. Qed.
Example Clean_doc_3 : filepath.Clean "/../a/b/../././/c" = "/a/c". Proof. reflexivity. Qed.
Example Clean_doc_4 : filepath.Clean "../../etc/passwd" = "../../etc/passwd". Proof. reflexivity. Qed.
Example Clean_doc_5 : filepath.Clean "a/../../b/" = "../b". Proof. reflexivity. Qed.
Example Clean_doc_6 : filepath.Clean "/" = "/" ∧ filepath.Clean "" = "." ∧ filepath.Clean "./" = ".".
Proof. repeat split. Qed.
Example Dir_doc : filepath.Dir "/foo/bar/baz.js" = "/foo/bar" ∧ filepath.Dir "dev.txt" = "."
  ∧ filepath.Dir "/" = "/" ∧ filepath.Dir "foo/" = "foo" ∧ filepath.Dir "/dirty//path///" = "/dirty/path".
Proof. repeat split. Qed.
Example Base_doc : filepath.Base "/foo/bar/baz.js" = "baz.js" ∧ filepath.Base "dev/" = "dev"
  ∧ filepath.Base "" = "." ∧ filepath.Base "///" = "/".
Proof. repeat split. Qed.
Example Join_doc : filepath.Join ["a"; "b/c"] = "a/b/c" ∧ filepath.Join ["a"; "../../xyz"] = "../xyz"
  ∧ filepath.Join [""; ""] = "" ∧ filepath.Join ["/d"; "."] = "/d".
Proof. repeat split. Qed.
Example Rel_doc : filepath.Rel "/a" "/a/b/c" = Ok "b/c" ∧ filepath.Rel "/a" "/b/c" = Ok "../b/c"
  ∧ filepath.Rel "a/b/c/d" "a/b" = Ok "../.." ∧ filepath.Rel "a/b" "a/b/." = Ok "."
  ∧ filepath.Rel "/" "/a/b" = Ok "a/b" ∧ filepath.Rel "." "x/y" = Ok "x/y"
  ∧ filepath.Rel "ab/cd" "ab/cde" = Ok "../cde" ∧ filepath.Rel "a/b/c" "a/c/d" = Ok "../../c/d"
  ∧ is_Ok (filepath.Rel ".." "a") = false ∧ is_Ok (filepath.Rel "/a" "a") = false
  ∧ is_Ok (filepath.Rel ".." ".") = false.
Proof. repeat split. Qed.

Lemma toy_flag_code (t : typeflag) : toy.code_flag (toy.flag_code t) = t.
Proof. by destruct t. Qed.

Lemma toy_entry_code (e : tar_entry) : toy.code_entry (toy.entry_code e) = e.
Proof. destruct e as [[n l t m s] b]. unfold toy.entry_code; simpl. by rewrite toy_flag_code. Qed.

Lemma toy_bytes_pos (p : positive) : toy.bytes_pos (toy.pos_bytes p) = p.
Proof. induction p; simpl; by f_equal. Qed.

Lemma toy_library_ok : LibraryOk toy.library.
Proof.
  split; simpl.
  - intros password salt time memory threads keyLen Hk. unfold toy.IDKey, len.
    rewrite length_take, !length_app, length_replicate. lia.
  - intros key nonce plaintext _ _. unfold toy.Open, toy.Seal.
    assert (Ht : length (toy.tag key nonce) = 16%nat).
    { unfold toy.tag. rewrite length_take, !length_app, length_replicate. lia. }
    rewrite length_app, Ht.
    replace (length plaintext + 16 - 16)%nat with (length plaintext) by lia.
    rewrite drop_app_length, take_app_length.
    rewrite bool_decide_true; [done | split; [lia | done]].
  - intros h _ _ Hs. unfold toy.encodable. by apply bool_decide_eq_true.
  - intros es _. unfold toy.archive_read, toy.archive_bytes.
    rewrite toy_bytes_pos, decode_encode. f_equal. f_equal.
    rewrite <- list_fmap_compose. rewrite <- (list_fmap_id es) at 2.
    apply list_fmap_ext. intros ? e _. simpl. apply toy_entry_code.
Qed.

(** ** The container format *)

Lemma byte_to_Z_range (b : byte) : 0 ≤ byte_to_Z b < 256.
Proof.
  unfold byte_to_Z. pose proof (Byte.to_N_bounded b) as Hb.
  lia.
Qed.

Lemma byte_to_of_Z (z : Z) : byte_to_Z (byte_of_Z z) = z mod 256.
Proof.
  unfold byte_to_Z, byte_of_Z.
  assert (Hr : 0 ≤ z mod 256 < 256) by (apply Z.mod_pos_bound; lia).
  destruct (Byte.of_N (Z.to_N (z mod 256))) as [b|] eqn:E.
  - apply Byte.to_of_N in E. rewrite E. lia.
  - apply Byte.of_N_None_iff in E. lia.
Qed.

Lemma Uint64_PutUint64 (v : Z) : 0 ≤ v < 2 ^ 64 → Uint64 (PutUint64 v) = v.
Proof.
  intros Hv. unfold PutUint64, Uint64. rewrite !byte_to_of_Z.
  change 256 with (2 ^ 8).
  apply Z.bits_inj'. intros n Hn.
  rewrite !Z.lor_spec, !Z.shiftl_spec by lia.
  assert (Hhi : 64 ≤ n → Z.testbit v n = false).
  { intros. destruct (Z.eq_dec v 0) as [->|]; [apply Z.bits_0|].
    assert (Z.log2 v < 64) by (apply Z.log2_lt_pow2; lia).
    apply Z.bits_above_log2; lia. }
  destruct (Z_lt_dec n 8); [| destruct (Z_lt_dec n 16); [| destruct (Z_lt_dec n 24);
    [| destruct (Z_lt_dec n 32); [| destruct (Z_lt_dec n 40); [| destruct (Z_lt_dec n 48);
    [| destruct (Z_lt_dec n 56); [| destruct (Z_lt_dec n 64)]]]]]]].
  all: repeat match goal with
       | |- context [Z.testbit (_ mod 2 ^ 8) ?k] =>
           first [ rewrite (Z.testbit_neg_r _ k) by lia
                 | rewrite (Z.mod_pow2_bits_low _ 8 k) by lia
                 | rewrite (Z.mod_pow2_bits_high _ 8 k) by lia ]
       end.
  all: rewrite ?Z.shiftr_spec by lia.
  all: rewrite ?orb_false_r, ?orb_false_l.
  all: try (f_equal; lia).
  all: try (rewrite Hhi by lia).
  all: try reflexivity.
Qed.

Lemma len_nonneg {A} (l : list A) : 0 ≤ len l.
Proof. unfold len. lia. Qed.

Lemma len_app {A} (l k : list A) : len (l ++ k) = len l + len k.
Proof. unfold len. rewrite length_app. lia. Qed.

Lemma slice_0 (data : list byte) (n : Z) : slice data 0 n = take (Z.to_nat n) data.
Proof. unfold slice. by rewrite Z.sub_0_r. Qed.

Lemma len_slice_from (data : list byte) (lo : Z) :
  0 ≤ lo ≤ len data → len (slice_from data lo) = len data - lo.
Proof. unfold slice_from, len. rewrite length_drop. lia. Qed.

Lemma headerSize_59 : headerSize = 59.
Proof. reflexivity. Qed.

Lemma Decrypt_parse_unfold (data : list byte) :
  Decrypt_parse data =
    if bool_decide (len data < 59) then Err errTooSmall
    else if bool_decide (take 7 data ≠ bytes_of_string "CLOAK01") then Err errBadMagic
    else if bool_decide (uint64 (len (slice_from data 59)) ≠ Uint64 (slice data 51 59))
         then Err errSizeMismatch
         else Ok (Container (slice data 7 39) (slice data 39 51) (slice_from data 59)).
Proof. reflexivity. Qed.

(** C4. Decoding a container fails, with one of the three format errors,
    exactly when the data is shorter than the 59-byte header, or its
    first 7 bytes are not "CLOAK01", or the big-endian length in bytes
    51..59 differs from the number of bytes after the header; otherwise
    it yields bytes 7..39 as salt, bytes 39..51 as nonce and the rest as
    ciphertext.  [len data < 2^63] is the bound of a Go slice length. *)
Theorem Decrypt_parse_FormatError_iff (data : list byte) :
  len data < 2 ^ 63 →
  let malformed :=
    len data < 7 + 32 + 12 + 8
    ∨ take 7 data ≠ bytes_of_string "CLOAK01"
    ∨ Uint64 (slice data 51 59) ≠ len data - 59 in
  ((∃ e, Decrypt_parse data = Err e) ↔ malformed)
  ∧ (∀ e, Decrypt_parse data = Err e → FormatError e)
  ∧ (¬ malformed →
     Decrypt_parse data
     = Ok (Container (slice data 7 39) (slice data 39 51) (slice_from data 59))).
Proof.
  intros Hlen malformed. subst malformed. rewrite Decrypt_parse_unfold.
  change (7 + 32 + 12 + 8) with 59.
  destruct (bool_decide_reflect (len data < 59)) as [Hs|Hs].
  { split; [|split]; [split; eauto| |tauto].
    intros e [= <-]. by left. }
  destruct (bool_decide_reflect (take 7 data ≠ bytes_of_string "CLOAK01")) as [Hm|Hm].
  { split; [|split]; [split; eauto| |tauto].
    intros e [= <-]. right; by left. }
  assert (Hu : uint64 (len (slice_from data 59)) = len data - 59).
  { rewrite len_slice_from by lia. unfold uint64. apply Z.mod_small.
    pose proof (len_nonneg data). lia. }
  rewrite Hu.
  destruct (bool_decide_reflect (len data - 59 ≠ Uint64 (slice data 51 59))) as [Hd|Hd].
  { split; [|split]; [split; eauto| |].
    - intros e [= <-]. right; by right.
    - intros Hn. exfalso. apply Hn. right; right. congruence. }
  split; [|split]; [| done | done].
  split; [intros [e He]; discriminate|].
  intros [?|[?|?]]; [lia | done | exfalso; apply Hd; intros ?; congruence].
Qed.

Lemma Decrypt_parse_FormatError_iff_witness :
  let data := bytes_of_string "CLOAK01" ++ replicate 44 x07 ++ PutUint64 2 ++ [x01; x02] in
  len data < 2 ^ 63
  ∧ Decrypt_parse data = Ok (Container (replicate 32 x07) (replicate 12 x07) [x01; x02])
  ∧ ∃ e, Decrypt_parse (bytes_of_string "CLOAK02" ++ drop 7 data) = Err e ∧ FormatError e.
Proof.
  intros data.
  pose proof (Decrypt_parse_FormatError_iff data eq_refl) as (_ & _ & Hok).
  pose proof (Decrypt_parse_FormatError_iff
                (bytes_of_string "CLOAK02" ++ drop 7 data) eq_refl) as (Hiff & Hfmt & _).
  split; [reflexivity|]. split.
  - rewrite Hok; [reflexivity|]. intros [H|[H|H]]; vm_compute in H; by try apply H.
  - destruct Hiff as [_ Hbad]. destruct Hbad as [e He].
    { right; left. by vm_compute. }
    exists e. split; [exact He | by apply Hfmt].
Defined.
(** ** Writing the container *)

Lemma File_Write_ok (w : World) (f : list string) (m : Z) (d b : list byte) :
  w_fs w !! f = Some (NFile m d) →
  File_Write f b w = (Ok tt, set_fs (<[f := NFile m (d ++ b)]> (w_fs w)) w).
Proof. intros Hf. unfold File_Write, fs_update, os.Write. by rewrite Hf. Qed.

Lemma set_fs_set_fs (fs1 fs2 : gmap (list string) node) (w : World) :
  set_fs fs2 (set_fs fs1 w) = set_fs fs2 w.
Proof. by destruct w. Qed.

Lemma w_fs_set_fs (fs : gmap (list string) node) (w : World) : w_fs (set_fs fs w) = fs.
Proof. by destruct w. Qed.

Lemma set_fs_id (w : World) : set_fs (w_fs w) w = w.
Proof. by destruct w. Qed.

Lemma bind_Ok {A B} (m : M A) (k : A → M B) (w w' : World) (a : A) :
  m w = (Ok a, w') → bind m k w = k a w'.
Proof. intros Hm. unfold bind. by rewrite Hm. Qed.

Lemma bind_Err {A B} (m : M A) (k : A → M B) (w w' : World) (e : error) :
  m w = (Err e, w') → bind m k w = (Err e, w').
Proof. intros Hm. unfold bind. by rewrite Hm. Qed.

Lemma Encrypt_write_ok (w : World) (outFile : list string) (m : Z)
    (salt nonce ciphertext : list byte) :
  w_fs w !! outFile = Some (NFile m []) →
  Encrypt_write outFile salt nonce ciphertext w
  = (Ok tt, set_fs (<[outFile := NFile m (bytes_of_string MagicBytes ++ salt ++ nonce
                        ++ PutUint64 (uint64 (len ciphertext)) ++ ciphertext)]> (w_fs w)) w).
Proof.
  intros Hf. unfold Encrypt_write.
  erewrite bind_Ok by (by apply File_Write_ok).
  erewrite bind_Ok by (apply File_Write_ok; rewrite w_fs_set_fs; apply lookup_insert_eq).
  erewrite bind_Ok by (apply File_Write_ok; rewrite w_fs_set_fs; apply lookup_insert_eq).
  erewrite bind_Ok by (apply File_Write_ok; rewrite w_fs_set_fs; apply lookup_insert_eq).
  erewrite File_Write_ok by (rewrite w_fs_set_fs; apply lookup_insert_eq).
  rewrite !w_fs_set_fs, !set_fs_set_fs, !insert_insert_eq.
  by rewrite <- !app_assoc.
Qed.

Lemma length_PutUint64 (v : Z) : length (PutUint64 v) = 8%nat.
Proof. reflexivity. Qed.

(** C5. The container written for a 32-byte salt, a 12-byte nonce and a
    ciphertext is the magic "CLOAK01", the salt, the nonce, the length of
    the ciphertext as 8 bytes, most significant first, and the
    ciphertext, in this order; it has 59 bytes more than the ciphertext,
    and decoding it gives back salt, nonce and ciphertext. *)
Theorem Encrypt_write_layout (w : World) (outFile : list string) (m : Z)
    (salt nonce ciphertext : list byte) :
  w_fs w !! outFile = Some (NFile m []) →
  len salt = 32 → len nonce = 12 → len ciphertext < 2 ^ 63 →
  let encoded :=
    bytes_of_string "CLOAK01" ++ salt ++ nonce ++ PutUint64 (len ciphertext) ++ ciphertext in
  Encrypt_write outFile salt nonce ciphertext w
  = (Ok tt, set_fs (<[outFile := NFile m encoded]> (w_fs w)) w)
  ∧ length (PutUint64 (len ciphertext)) = 8%nat
  ∧ Uint64 (PutUint64 (len ciphertext)) = len ciphertext
  ∧ len encoded = 59 + len ciphertext
  ∧ Decrypt_parse encoded = Ok (Container salt nonce ciphertext).
Proof.
  intros Hf Hs Hn Hc encoded.
  pose proof (len_nonneg ciphertext) as Hc0.
  assert (Hu : uint64 (len ciphertext) = len ciphertext)
    by (apply Z.mod_small; lia).
  assert (Hrt : Uint64 (PutUint64 (len ciphertext)) = len ciphertext)
    by (apply Uint64_PutUint64; lia).
  assert (Hlen : len encoded = 59 + len ciphertext).
  { unfold encoded. rewrite !len_app, Hs, Hn. unfold len at 1 2. simpl. lia. }
  split; [|split; [|split; [|split]]]; try done.
  { rewrite (Encrypt_write_ok _ _ m) by done. by rewrite Hu. }
  rewrite Decrypt_parse_unfold.
  assert (Hsl : ∀ (a : list byte) (b : nat) (c : list byte),
            length a = b → take b (a ++ c) = a ∧ drop b (a ++ c) = c).
  { intros a b c <-. by rewrite take_app_length, drop_app_length. }
  assert (Hs' : length salt = 32%nat) by (unfold len in Hs; lia).
  assert (Hn' : length nonce = 12%nat) by (unfold len in Hn; lia).
  assert (Hd7 : drop 7 encoded = salt ++ nonce ++ PutUint64 (len ciphertext) ++ ciphertext)
    by reflexivity.
  assert (Hd39 : drop 39 encoded = nonce ++ PutUint64 (len ciphertext) ++ ciphertext).
  { change 39%nat with (7 + 32)%nat. rewrite <- drop_drop, Hd7. by apply Hsl. }
  assert (Hd51 : drop 51 encoded = PutUint64 (len ciphertext) ++ ciphertext).
  { change 51%nat with (39 + 12)%nat. rewrite <- drop_drop, Hd39. by apply Hsl. }
  assert (Hd59 : drop 59 encoded = ciphertext).
  { change 59%nat with (51 + 8)%nat. rewrite <- drop_drop, Hd51. by apply Hsl. }
  rewrite bool_decide_false by lia.
  rewrite bool_decide_false by (intros Hne; by apply Hne).
  unfold slice_from, slice.
  change (Z.to_nat 59) with 59%nat. change (Z.to_nat 51) with 51%nat.
  change (Z.to_nat 39) with 39%nat. change (Z.to_nat 7) with 7%nat.
  change (Z.to_nat (59 - 51)) with 8%nat. change (Z.to_nat (39 - 7)) with 32%nat.
  change (Z.to_nat (51 - 39)) with 12%nat.
  rewrite Hd59, Hd51, Hd39, Hd7.
  rewrite (proj1 (Hsl salt 32%nat _ Hs')), (proj1 (Hsl nonce 12%nat _ Hn')).
  rewrite (proj1 (Hsl (PutUint64 (len ciphertext)) 8%nat ciphertext eq_refl)).
  rewrite Hu, Hrt. rewrite bool_decide_false by (intros Hne; by apply Hne). done.
Qed.

Lemma Encrypt_write_layout_witness :
  let w := mkWorld {[ ["f"] := NFile 438 [] ]} [] [] [] None [] [] in
  let encoded := bytes_of_string "CLOAK01" ++ replicate 32 x01 ++ replicate 12 x02
                   ++ [x00; x00; x00; x00; x00; x00; x00; x03] ++ [x0a; x0b; x0c] in
  Encrypt_write ["f"] (replicate 32 x01) (replicate 12 x02) [x0a; x0b; x0c] w
  = (Ok tt, set_fs {[ ["f"] := NFile 438 encoded ]} w)
  ∧ Decrypt_parse encoded = Ok (Container (replicate 32 x01) (replicate 12 x02) [x0a; x0b; x0c]).
Proof.
  intros w encoded.
  pose proof (Encrypt_write_layout w ["f"] 438 (replicate 32 x01) (replicate 12 x02)
                [x0a; x0b; x0c] eq_refl eq_refl eq_refl eq_refl) as (Hw & _ & _ & _ & Hp).
  split; [|exact Hp].
  rewrite Hw. reflexivity.
Defined.
(** ** SecureBytes.Wipe *)

Lemma zero_loop_prefix (b : list byte) (n : nat) :
  (n ≤ length b)%nat →
  foldl (λ acc i, <[i := x00]> acc) b (seq 0 n) = replicate n x00 ++ drop n b.
Proof.
  induction n as [|n IH]; intros Hn; [by rewrite drop_0|].
  rewrite seq_S, foldl_snoc, IH by lia. simpl Nat.add.
  destruct (lookup_lt_is_Some_2 b n) as [x Hx]; [lia|].
  rewrite (drop_S b x n Hx).
  rewrite <- (Nat.add_0_r n) at 1.
  rewrite <- (length_replicate n x00) at 1.
  rewrite insert_app_r.
  change (<[0%nat:=x00]> (x :: drop (S n) b)) with (x00 :: drop (S n) b).
  by rewrite replicate_S_end, <- app_assoc.
Qed.

Lemma zero_loop_zeros (b : list byte) : zero_loop b = replicate (length b) x00.
Proof.
  unfold zero_loop. rewrite zero_loop_prefix by lia.
  by rewrite drop_all, app_nil_r.
Qed.

Lemma w_heap_set_heap h w : w_heap (set_heap h w) = h.
Proof. by destruct w. Qed.
Lemma w_secure_set_heap h w : w_secure (set_heap h w) = w_secure w.
Proof. by destruct w. Qed.
Lemma w_secure_set_secure s w : w_secure (set_secure s w) = s.
Proof. by destruct w. Qed.
Lemma w_heap_set_secure s w : w_heap (set_secure s w) = w_heap w.
Proof. by destruct w. Qed.

Lemma Wipe_held (w : World) (s l : nat) (b : list byte) :
  w_secure w !! s = Some (Some l) → w_heap w !! l = Some b →
  Wipe s w
  = (Ok tt, set_secure (<[s := None]> (w_secure w))
              (set_heap (<[l := replicate (length b) x00]> (w_heap w)) w)).
Proof.
  intros Hs Hl. unfold Wipe, bind, Data, zero. rewrite Hs, Hl.
  by rewrite zero_loop_zeros, w_secure_set_heap.
Qed.

Lemma Wipe_nil (w : World) (s : nat) :
  w_secure w !! s = Some None → Wipe s w = (Ok tt, w).
Proof. intros Hs. unfold Wipe, bind, Data. by rewrite Hs. Qed.

(** C8. [Wipe] on a buffer that holds data overwrites every byte of the
    data with zero and sets [Data] to nil; a second [Wipe] succeeds and
    changes nothing. *)
Theorem Wipe_zeroes_and_is_idempotent (w : World) (s l : nat) (b : list byte) :
  w_secure w !! s = Some (Some l) → w_heap w !! l = Some b →
  ∃ w', Wipe s w = (Ok tt, w')
    ∧ w_heap w' !! l = Some (replicate (length b) x00)
    ∧ (∀ i : nat, (i < length b)%nat → bytes_at (w_heap w') (Some l) !! i = Some x00)
    ∧ w_secure w' !! s = Some None
    ∧ Wipe s w' = (Ok tt, w')
    ∧ (Wipe s ;;; Wipe s) w = Wipe s w.
Proof.
  intros Hs Hl. eexists. split; [by apply Wipe_held|].
  assert (Hl' : (l < length (w_heap w))%nat) by (by eapply lookup_lt_Some).
  assert (Hs' : (s < length (w_secure w))%nat) by (by eapply lookup_lt_Some).
  rewrite w_heap_set_secure, w_heap_set_heap, w_secure_set_secure.
  assert (Hnil : <[s:=None]> (w_secure w) !! s = Some None)
    by (by apply list_lookup_insert_eq).
  assert (Hz : <[l:=replicate (length b) x00]> (w_heap w) !! l
               = Some (replicate (length b) x00)) by (by apply list_lookup_insert_eq).
  split; [done|]. split.
  { intros i Hi. unfold bytes_at. rewrite Hz. simpl. by apply lookup_replicate_2. }
  split; [done|].
  assert (Hagain : ∀ w', w_secure w' !! s = Some None → Wipe s w' = (Ok tt, w'))
    by (intros; by apply Wipe_nil).
  split; [apply Hagain; by rewrite w_secure_set_secure|].
  unfold bind at 1. rewrite (Wipe_held w s l b) by done.
  rewrite Hagain by (by rewrite w_secure_set_secure). done.
Qed.

Lemma Wipe_zeroes_and_is_idempotent_witness :
  let w := mkWorld ∅ [] [bytes_of_string "sensitive data here"] [Some 0%nat] None [] [] in
  ∃ w', Wipe 0 w = (Ok tt, w')
    ∧ w_heap w' = [replicate 19 x00] ∧ w_secure w' = [None]
    ∧ Wipe 0 w' = (Ok tt, w').
Proof.
  intros w.
  destruct (Wipe_zeroes_and_is_idempotent w 0 0 (bytes_of_string "sensitive data here")
              eq_refl eq_refl) as (w' & Hw & _ & _ & _ & Hi & _).
  exists w'. split; [exact Hw|].
  assert (Hw' : w' = mkWorld ∅ [] [replicate 19 x00] [None] None [] []).
  { assert (He : Wipe 0 w = (Ok tt, mkWorld ∅ [] [replicate 19 x00] [None] None [] []))
      by reflexivity.
    rewrite He in Hw. by injection Hw. }
  split; [by rewrite Hw'|]. split; [by rewrite Hw'|]. exact Hi.
Defined.
(** ** DeriveKey *)

Lemma DeriveKey_run `{Library} (password salt : list byte) (w : World) :
  DeriveKey password salt w
  = (Ok (length (w_secure w)),
     set_secure (w_secure w ++ [Some (length (w_heap w))])
       (set_heap (w_heap w ++ [argon2_IDKey password salt argonTime argonMemory
                                 argonThreads KeySize]) w)).
Proof. unfold DeriveKey, bind, alloc, new_SecureBytes. by rewrite w_secure_set_heap. Qed.

Lemma held_DeriveKey `{Library} (password salt : list byte) (w w' : World) (k : nat) :
  DeriveKey password salt w = (Ok k, w') →
  held w' k = argon2_IDKey password salt argonTime argonMemory argonThreads KeySize.
Proof.
  rewrite DeriveKey_run. intros [= <- <-]. unfold held.
  rewrite w_secure_set_secure, w_heap_set_secure, w_heap_set_heap.
  rewrite lookup_app_r, Nat.sub_diag by lia. simpl.
  by rewrite lookup_app_r, Nat.sub_diag by lia.
Qed.

(** C6. Key derivation has no error path; the key it returns is the
    output of the memory-hard function on the password and the salt with
    3 iterations, 64 * 1024 KiB of memory, 4 threads and 32 bytes of
    output; it has 32 bytes, and two calls with the same password and
    salt return the same bytes, in whatever state they are made. *)
Theorem DeriveKey_deterministic `{L : Library} `{!LibraryOk L}
    (password salt : list byte) (w1 w2 : World) :
  ∃ k1 w1' k2 w2',
    DeriveKey password salt w1 = (Ok k1, w1')
    ∧ DeriveKey password salt w2 = (Ok k2, w2')
    ∧ held w1' k1 = argon2_IDKey password salt 3 (64 * 1024) 4 32
    ∧ held w2' k2 = held w1' k1
    ∧ len (held w1' k1) = 32.
Proof.
  destruct (DeriveKey password salt w1) as [r1 w1'] eqn:H1.
  destruct (DeriveKey password salt w2) as [r2 w2'] eqn:H2.
  pose proof H1 as H1'. pose proof H2 as H2'.
  rewrite DeriveKey_run in H1', H2'.
  injection H1' as <- _. injection H2' as <- _.
  eexists _, w1', _, w2'. split; [done|]. split; [done|].
  rewrite (held_DeriveKey _ _ _ _ _ H1), (held_DeriveKey _ _ _ _ _ H2).
  split; [done|]. split; [done|].
  by apply argon2_IDKey_length.
Qed.

Lemma DeriveKey_deterministic_witness :
  let w1 := mkWorld ∅ [] [] [] None [] [] in
  let w2 := mkWorld ∅ [] [[x01]] [None] None [] [] in
  ∃ k1 w1' k2 w2',
    @DeriveKey toy.library (bytes_of_string "test-password") (replicate 32 x09) w1 = (Ok k1, w1')
    ∧ @DeriveKey toy.library (bytes_of_string "test-password") (replicate 32 x09) w2 = (Ok k2, w2')
    ∧ held w2' k2 = held w1' k1
    ∧ len (held w1' k1) = 32.
Proof.
  intros w1 w2.
  destruct (@DeriveKey_deterministic toy.library toy_library_ok
              (bytes_of_string "test-password") (replicate 32 x09) w1 w2)
    as (k1 & w1' & k2 & w2' & H1 & H2 & _ & Heq & Hlen).
  by exists k1, w1', k2, w2'.
Defined.

(** ** DecryptData *)

Lemma aes_NewCipher_ok (key : list byte) :
  len key = 16 ∨ len key = 24 ∨ len key = 32 → aes_NewCipher key = Ok key.
Proof. intros Hk. unfold aes_NewCipher. by rewrite bool_decide_true. Qed.

Lemma DecryptData_valid `{Library} (ciphertext key nonce : list byte) :
  len key = 16 ∨ len key = 24 ∨ len key = 32 → len nonce = 12 →
  DecryptData ciphertext key nonce
  = match gcm_Open key nonce ciphertext with
    | Some plaintext => Ok plaintext
    | None => Err errDecrypt
    end.
Proof.
  intros Hk Hn. unfold DecryptData. rewrite aes_NewCipher_ok by done. simpl.
  by rewrite bool_decide_false by (unfold gcm_NonceSize; lia).
Qed.

Lemma EncryptData_valid `{Library} (plaintext key nonce : list byte) :
  len key = 16 ∨ len key = 24 ∨ len key = 32 → len nonce = 12 →
  EncryptData plaintext key nonce = Ok (gcm_Seal key nonce plaintext).
Proof.
  intros Hk Hn. unfold EncryptData. rewrite aes_NewCipher_ok by done. simpl.
  by rewrite bool_decide_false by (unfold gcm_NonceSize; lia).
Qed.

Lemma toy_mac_tag_length (key nonce plaintext : list byte) :
  length (toy_mac.tag key nonce plaintext) = 16%nat.
Proof. unfold toy_mac.tag. by rewrite length_fmap, length_seq. Qed.

Lemma toy_mac_library_ok : LibraryOk toy_mac.library.
Proof.
  split.
  - exact (@argon2_IDKey_length toy.library toy_library_ok).
  - intros key nonce plaintext _ _. simpl. unfold toy_mac.Open, toy_mac.Seal.
    rewrite length_app, toy_mac_tag_length.
    replace (length plaintext + 16 - 16)%nat with (length plaintext) by lia.
    rewrite drop_app_length, take_app_length.
    rewrite bool_decide_true; [done | split; [lia | done]].
  - exact (@tar_encodable_names toy.library toy_library_ok).
  - exact (@targz_read_bytes toy.library toy_library_ok).
Qed.

Lemma toy_mac_sound : GcmSound toy_mac.library.
Proof.
  split. intros key nonce c p _ _. simpl. unfold toy_mac.Open, toy_mac.Seal.
  case_bool_decide as Hc; [|done]. intros [= <-]. destruct Hc as [_ <-].
  by rewrite take_drop.
Qed.

Lemma toy_sound : GcmSound toy.library.
Proof.
  split. intros key nonce c p _ _. simpl. unfold toy.Open, toy.Seal.
  case_bool_decide as Hc; [|done]. intros [= <-]. destruct Hc as [_ <-].
  by rewrite take_drop.
Qed.

(** Bytes that differ from a ciphertext need not be refused: the sealing
    of another plaintext under the same key and nonce differs from it and
    is decrypted.  This needs nothing but that [Open] undoes [Seal]. *)
Lemma DecryptData_other_sealing `{L : Library} `{!LibraryOk L}
    (plaintext plaintext' key nonce : list byte) :
  len key = 16 ∨ len key = 24 ∨ len key = 32 → len nonce = 12 →
  plaintext' ≠ plaintext →
  gcm_Seal key nonce plaintext' ≠ gcm_Seal key nonce plaintext
  ∧ DecryptData (gcm_Seal key nonce plaintext') key nonce = Ok plaintext'.
Proof.
  intros Hk Hn Hne. split.
  - intros Heq. apply Hne.
    pose proof (gcm_Open_Seal key nonce plaintext' Hk Hn) as H1.
    rewrite Heq, gcm_Open_Seal in H1 by done. by injection H1.
  - rewrite DecryptData_valid by done. by rewrite gcm_Open_Seal.
Qed.



(** ** Path strings and their elements *)

Lemma Split_nonempty (s : string) : strings.Split s ≠ [].
Proof.
  destruct s as [|c s]; simpl; [done|].
  case_bool_decide; [done|]. by destruct (strings.Split s).
Qed.

Lemma Split_no_sep (s : string) : no_sep s → strings.Split s = [s].
Proof.
  unfold no_sep. induction s as [|c s IH]; simpl; [done|].
  intros Hc. rewrite not_elem_of_cons in Hc. destruct Hc as [Hc Hs].
  rewrite bool_decide_false by congruence. by rewrite IH.
Qed.

Lemma Split_app_sep (a b : string) :
  strings.Split (a +:+ String "/" b) = strings.Split a ++ strings.Split b.
Proof.
  induction a as [|c a IH]; simpl.
  - done.
  - case_bool_decide; [by rewrite IH|].
    rewrite IH. pose proof (Split_nonempty a).
    by destruct (strings.Split a).
Qed.

Lemma Split_sep_front (s : string) :
  strings.Split (String "/" s) = "" :: strings.Split s.
Proof. done. Qed.

Lemma append_cons (c : ascii) (a b : string) : String c a +:+ b = String c (a +:+ b).
Proof. reflexivity. Qed.

Lemma append_nil_l (a : string) : "" +:+ a = a.
Proof. reflexivity. Qed.

Lemma append_assoc (a b c : string) : (a +:+ b) +:+ c = a +:+ (b +:+ c).
Proof. induction a as [|x a IH]; [done|]. by rewrite !append_cons, IH. Qed.

Lemma append_nil_r (a : string) : a +:+ "" = a.
Proof. induction a as [|x a IH]; [done|]. by rewrite append_cons, IH. Qed.

Lemma Join_cons (x : string) (l : list string) :
  l ≠ [] → strings.Join (x :: l) = x +:+ String "/" (strings.Join l).
Proof. destruct l; [done|]. intros _. reflexivity. Qed.

Lemma Join_snoc (l : list string) (x : string) :
  l ≠ [] → strings.Join (l ++ [x]) = strings.Join l +:+ String "/" x.
Proof.
  induction l as [|y l IH]; [done|]. intros _.
  destruct l as [|z l]; [reflexivity|].
  change ((y :: z :: l) ++ [x]) with (y :: ((z :: l) ++ [x])).
  rewrite (Join_cons y) by (by destruct l).
  rewrite (Join_cons y (z :: l)) by done. rewrite IH by done.
  change (String "/" (strings.Join (z :: l) +:+ String "/" x))
    with (String "/" (strings.Join (z :: l)) +:+ String "/" x).
  by rewrite append_assoc.
Qed.

Lemma Split_Join (k : list string) :
  k ≠ [] → Forall no_sep k → strings.Split (strings.Join k) = k.
Proof.
  induction k as [|x k IH]; [done|]. intros _ Hk.
  apply Forall_cons in Hk as [Hx Hk].
  destruct k as [|y k]; [by apply Split_no_sep|].
  rewrite Join_cons, Split_app_sep, IH, Split_no_sep by done. done.
Qed.

Lemma Split_cons (c : ascii) (s : string) :
  strings.Split (String c s)
  = if bool_decide (c = "/"%char) then "" :: strings.Split s
    else match strings.Split s with
         | e :: es => String c e :: es
         | [] => [String c ""]
         end.
Proof. reflexivity. Qed.

Lemma Join_Split (s : string) : strings.Join (strings.Split s) = s.
Proof.
  induction s as [|c s IH]; [done|]. rewrite Split_cons.
  case_bool_decide as Hc.
  - subst c. rewrite Join_cons by apply Split_nonempty. by rewrite IH.
  - pose proof (Split_nonempty s) as Hne.
    destruct (strings.Split s) as [|e es]; [done|].
    destruct es as [|e' es].
    + change (strings.Join [e]) with e in IH. by subst e.
    + rewrite Join_cons in IH by done. rewrite Join_cons by done.
      by rewrite append_cons, IH.
Qed.

Lemma valid_name_spec (n : string) :
  valid_name n = true →
  n ≠ "" ∧ n ≠ "." ∧ n ≠ ".." ∧ no_sep n ∧ nul_free n.
Proof.
  unfold valid_name. rewrite !andb_true_iff, !negb_true_iff, !String.eqb_neq.
  intros [[[H1 H2] H3] H4]. repeat split; try done.
  - unfold no_sep. rewrite forallb_forall in H4. intros Hin.
    apply list_elem_of_In in Hin. apply H4 in Hin. unfold name_char in Hin.
    by rewrite Ascii.eqb_refl in Hin.
  - unfold nul_free. rewrite forallb_forall in H4. intros Hin.
    apply list_elem_of_In in Hin. apply H4 in Hin. unfold name_char in Hin.
    rewrite Ascii.eqb_refl in Hin. by rewrite andb_false_r in Hin.
Qed.

Lemma valid_names_no_sep (k : list string) :
  Forall (λ n, valid_name n = true) k → Forall no_sep k.
Proof.
  intros Hk. eapply Forall_impl; [exact Hk|].
  intros n Hn. by apply valid_name_spec in Hn as (_&_&_&?&_).
Qed.

(** The elements the operating system sees. *)

Lemma elems_app_sep (a b : string) :
  os.elems (a +:+ String "/" b) = os.elems a ++ os.elems b.
Proof. unfold os.elems. by rewrite Split_app_sep, filter_app. Qed.

Lemma valid_names_filter (k : list string) :
  Forall (λ n, valid_name n = true) k → filter (λ e, e ≠ "") k = k.
Proof.
  induction 1 as [|x k Hx Hk IH]; [done|].
  rewrite filter_cons_True by (by apply valid_name_spec in Hx as (?&_)). by rewrite IH.
Qed.

Lemma elems_rel_path (k : list string) :
  Forall (λ n, valid_name n = true) k → os.elems (rel_path k) = k.
Proof.
  intros Hk. unfold os.elems, rel_path. destruct k as [|x k]; [done|].
  rewrite Split_Join by (done || by apply valid_names_no_sep).
  by apply valid_names_filter.
Qed.

Lemma elems_abs_path (k : list string) :
  Forall (λ n, valid_name n = true) k → os.elems (abs_path k) = k.
Proof.
  intros Hk. unfold abs_path. change ("/" +:+ strings.Join k) with ("" +:+ String "/" (rel_path k)).
  rewrite elems_app_sep. by rewrite elems_rel_path.
Qed.

Lemma elems_sep_end (a : string) : os.elems (a +:+ "/") = os.elems a.
Proof. rewrite elems_app_sep. by rewrite app_nil_r. Qed.
(** The element loop of [Clean] keeps names. *)

Lemma clean_elems_names (rooted : bool) (out l : list string) :
  Forall (λ n, valid_name n = true) (filter (λ e, e ≠ "") l) →
  filepath.clean_elems rooted out l = reverse (filter (λ e, e ≠ "") l) ++ out.
Proof.
  revert out. induction l as [|e l IH]; intros out Hl; [done|].
  destruct (decide (e = "")) as [->|He].
  - rewrite filter_cons_False in * by (intros ?; done). simpl.
    apply IH, Hl.
  - rewrite filter_cons_True in * by done.
    apply Forall_cons in Hl as [Hv Hl].
    apply valid_name_spec in Hv as (_ & Hd & Hdd & _).
    simpl. rewrite bool_decide_false by (intros [?|?]; done).
    rewrite bool_decide_false by done.
    rewrite IH by done. by rewrite reverse_cons, <- app_assoc.
Qed.

Lemma Clean_elems (s : string) :
  s ≠ "" → Forall (λ n, valid_name n = true) (os.elems s) →
  filepath.Clean s
  = if filepath.IsAbs s then abs_path (os.elems s)
    else if bool_decide (os.elems s = []) then "." else rel_path (os.elems s).
Proof.
  intros Hs Hk. unfold filepath.Clean. rewrite bool_decide_false by done.
  rewrite clean_elems_names by done. rewrite app_nil_r, reverse_involutive.
  fold (os.elems s). done.
Qed.

Lemma prefix_nil (s : string) : String.prefix "" s = true.
Proof. by destruct s. Qed.

Lemma IsAbs_cons (c : ascii) (s : string) :
  filepath.IsAbs (String c s) = bool_decide (c = "/"%char).
Proof.
  unfold filepath.IsAbs, strings.HasPrefix.
  change (String.prefix "/" (String c s))
    with (if ascii_dec "/" c then String.prefix "" s else false).
  destruct (ascii_dec "/" c) as [<-|Hc].
  - by rewrite prefix_nil, bool_decide_true.
  - by rewrite bool_decide_false by congruence.
Qed.

Lemma IsAbs_abs_path (k : list string) : filepath.IsAbs (abs_path k) = true.
Proof. unfold abs_path. by rewrite append_cons, IsAbs_cons. Qed.

Lemma IsAbs_app (a b : string) : a ≠ "" → filepath.IsAbs (a +:+ b) = filepath.IsAbs a.
Proof. destruct a as [|c a]; [done|]. intros _. by rewrite append_cons, !IsAbs_cons. Qed.

Lemma IsAbs_no_sep (n : string) : n ≠ "" → no_sep n → filepath.IsAbs n = false.
Proof.
  destruct n as [|c n]; [done|]. intros _ Hn. unfold no_sep in Hn. simpl in Hn.
  rewrite not_elem_of_cons in Hn. destruct Hn as [Hc _].
  rewrite IsAbs_cons. by rewrite bool_decide_false.
Qed.

Lemma rel_path_cons (n : string) (k : list string) :
  rel_path (n :: k) = match k with [] => n | _ => n +:+ String "/" (rel_path k) end.
Proof. by destruct k. Qed.

Lemma IsAbs_rel_path (n : string) (k : list string) :
  valid_name n = true → filepath.IsAbs (rel_path (n :: k)) = false.
Proof.
  intros Hn. apply valid_name_spec in Hn as (Hne & _ & _ & Hs & _).
  rewrite rel_path_cons. destruct k; [by apply IsAbs_no_sep|].
  rewrite IsAbs_app by done. by apply IsAbs_no_sep.
Qed.

Lemma abs_path_nonempty (k : list string) : abs_path k ≠ "".
Proof. done. Qed.

Lemma rel_path_nonempty (n : string) (k : list string) :
  valid_name n = true → rel_path (n :: k) ≠ "".
Proof.
  intros Hn. apply valid_name_spec in Hn as (Hne & _).
  rewrite rel_path_cons. destruct k; [done|]. by destruct n.
Qed.

Lemma Clean_abs_path (k : list string) :
  Forall (λ n, valid_name n = true) k → filepath.Clean (abs_path k) = abs_path k.
Proof.
  intros Hk. rewrite Clean_elems; rewrite ?elems_abs_path; try done.
  by rewrite IsAbs_abs_path.
Qed.

Lemma Clean_rel_path (n : string) (k : list string) :
  Forall (λ n, valid_name n = true) (n :: k) →
  filepath.Clean (rel_path (n :: k)) = rel_path (n :: k).
Proof.
  intros Hk. pose proof Hk as Hk'. apply Forall_cons in Hk' as [Hn _].
  rewrite Clean_elems; rewrite ?elems_rel_path; try done.
  - rewrite IsAbs_rel_path by done. by rewrite bool_decide_false.
  - by apply rel_path_nonempty.
Qed.

(** Prefixes. *)

Lemma prefix_dotdot_app (n r : string) :
  n ≠ "" → String.prefix ".." (n +:+ String "/" r) = String.prefix ".." n.
Proof.
  destruct n as [|c1 [|c2 n]]; [done| |]; intros _.
  - rewrite !append_cons, append_nil_l.
    change (String.prefix ".." (String c1 (String "/" r)))
      with (if ascii_dec "." c1
            then (if ascii_dec "." "/" then String.prefix "" r else false) else false).
    change (String.prefix ".." (String c1 ""))
      with (if ascii_dec "." c1 then false else false).
    destruct (ascii_dec "." c1); [|done]. by destruct (ascii_dec "." "/").
  - rewrite !append_cons.
    change (String.prefix ".." (String c1 (String c2 (n +:+ String "/" r))))
      with (if ascii_dec "." c1
            then (if ascii_dec "." c2 then String.prefix "" (n +:+ String "/" r) else false)
            else false).
    change (String.prefix ".." (String c1 (String c2 n)))
      with (if ascii_dec "." c1
            then (if ascii_dec "." c2 then String.prefix "" n else false)
            else false).
    by rewrite !prefix_nil.
Qed.

Lemma HasPrefix_rel_path (n : string) (k : list string) :
  n ≠ "" → strings.HasPrefix (rel_path (n :: k)) ".." = strings.HasPrefix n "..".
Proof.
  intros Hn. rewrite rel_path_cons. destruct k; [done|].
  unfold strings.HasPrefix. by apply prefix_dotdot_app.
Qed.

Lemma escapes_HasPrefix (p : string) :
  escapes p → strings.HasPrefix p ".." = true.
Proof.
  unfold escapes, first_elem. rewrite <- (Join_Split p) at 2.
  destruct (strings.Split p) as [|e es]; [done|]. simpl. intros ->.
  destruct es; [done|]. by rewrite Join_cons.
Qed.
(** ** ExtractArchive: rejected entries *)

Lemma ExtractArchive_entry_rejects (destDir : string) (header : Header)
    (body : list byte) (body_err : option error) (w : World) :
  strings.HasPrefix (filepath.Clean (Name header)) ".." = true
  ∨ filepath.IsAbs (filepath.Clean (Name header)) = true →
  ExtractArchive_entry destDir header body body_err w
  = (Err ("invalid path in archive: " +:+ Name header), w).
Proof.
  intros Hbad. unfold ExtractArchive_entry.
  destruct Hbad as [-> | ->]; [done|]. by rewrite orb_true_r.
Qed.

Lemma ExtractArchive_loop_rejects (destDir : string) (header : Header)
    (body : list byte) (body_err : option error) (rest : tar_stream) (w : World) :
  strings.HasPrefix (filepath.Clean (Name header)) ".." = true
  ∨ filepath.IsAbs (filepath.Clean (Name header)) = true →
  ExtractArchive_loop destDir (TarNext header body body_err rest) w
  = (Err ("invalid path in archive: " +:+ Name header), w).
Proof.
  intros Hbad. simpl. unfold bind.
  by rewrite ExtractArchive_entry_rejects.
Qed.

Lemma ExtractArchive_loop_next (destDir : string) (e : tar_entry) (s : tar_stream)
    (w : World) :
  ExtractArchive_loop destDir (TarNext (te_header e) (te_body e) None s) w
  = (ExtractArchive_entry destDir (te_header e) (te_body e) None ;;;
     ExtractArchive_loop destDir s) w.
Proof. simpl. by destruct (Typeflag (te_header e)). Qed.

Lemma ExtractArchive_loop_prepend (destDir : string) (es : list tar_entry)
    (s : tar_stream) (w : World) :
  ExtractArchive_loop destDir (tar_prepend es s) w
  = match ExtractArchive_loop destDir (stream_of es) w with
    | (Ok _, w') => ExtractArchive_loop destDir s w'
    | r => r
    end.
Proof.
  revert w. induction es as [|e es IH]; intros w; [done|].
  change (tar_prepend (e :: es) s)
    with (TarNext (te_header e) (te_body e) None (tar_prepend es s)).
  change (stream_of (e :: es))
    with (TarNext (te_header e) (te_body e) None (stream_of es)).
  rewrite !ExtractArchive_loop_next. unfold bind.
  destruct (ExtractArchive_entry destDir (te_header e) (te_body e) None w) as [[[]| |] w'];
    [apply IH | done | done].
Qed.

(** C3. An entry whose cleaned path begins with the parent-directory
    element, or is absolute, makes [ExtractArchive] return the error
    "invalid path in archive: <name>", and the world is then exactly what
    the entries before it left: nothing is written for the entry, inside
    or outside the destination, and nothing after it is extracted. *)
Theorem ExtractArchive_rejects_traversal `{Library} (data : list byte) (destDir : string)
    (before : list tar_entry) (header : Header) (body : list byte)
    (body_err : option error) (rest : tar_stream) (w w1 : World) :
  escapes (filepath.Clean (Name header))
  ∨ filepath.IsAbs (filepath.Clean (Name header)) = true →
  targz_read data = Some (tar_prepend before (TarNext header body body_err rest)) →
  ExtractArchive_loop destDir (stream_of before) w = (Ok tt, w1) →
  ExtractArchive_entry destDir header body body_err w1
    = (Err ("invalid path in archive: " +:+ Name header), w1)
  ∧ ExtractArchive data destDir w
    = (Err ("invalid path in archive: " +:+ Name header), w1).
Proof.
  intros Hbad Hread Hbefore.
  assert (Hbad' : strings.HasPrefix (filepath.Clean (Name header)) ".." = true
                  ∨ filepath.IsAbs (filepath.Clean (Name header)) = true).
  { destruct Hbad as [He|Ha]; [left; by apply escapes_HasPrefix | by right]. }
  split; [by apply ExtractArchive_entry_rejects|].
  unfold ExtractArchive. rewrite Hread, ExtractArchive_loop_prepend, Hbefore.
  by apply ExtractArchive_loop_rejects.
Qed.

Lemma ExtractArchive_rejects_traversal_witness :
  let fs := {[ [] := NDir 493; ["out"] := NDir 493 ]} : gmap (list string) node in
  let w := mkWorld fs [] [] [] None [] [] in
  let w1 := set_fs (<[ ["out"; "docs"] := NDir 493 ]> fs) w in
  let docs := mkEntry (mkHeader "docs" "" TypeDir 493 0) [] in
  let evil name := mkEntry (mkHeader name "" TypeReg 420 4) (bytes_of_string "evil") in
  @ExtractArchive toy.library (toy.archive_bytes [docs; evil "../../etc/passwd"]) "/out" w
    = (Err "invalid path in archive: ../../etc/passwd", w1)
  ∧ @ExtractArchive toy.library (toy.archive_bytes [docs; evil "/etc/passwd"]) "/out" w
    = (Err "invalid path in archive: /etc/passwd", w1)
  ∧ w_fs w1 !! ["etc"; "passwd"] = None.
Proof.
  intros fs w w1 docs evil.
  assert (Hread : ∀ name,
    @targz_read toy.library (toy.archive_bytes [docs; evil name])
    = Some (tar_prepend [docs] (TarNext (te_header (evil name)) (te_body (evil name))
                                  None TarEOF))).
  { intros name. apply (@targz_read_bytes toy.library toy_library_ok).
    repeat constructor. }
  assert (Hbefore : ExtractArchive_loop "/out" (stream_of [docs]) w = (Ok tt, w1))
    by (vm_compute; reflexivity).
  split; [|split].
  - exact (proj2 (@ExtractArchive_rejects_traversal toy.library
             (toy.archive_bytes [docs; evil "../../etc/passwd"]) "/out" [docs]
             (te_header (evil "../../etc/passwd")) (te_body (evil "../../etc/passwd"))
             None TarEOF w w1 (or_introl eq_refl) (Hread _) Hbefore)).
  - exact (proj2 (@ExtractArchive_rejects_traversal toy.library
             (toy.archive_bytes [docs; evil "/etc/passwd"]) "/out" [docs]
             (te_header (evil "/etc/passwd")) (te_body (evil "/etc/passwd"))
             None TarEOF w w1 (or_intror eq_refl) (Hread _) Hbefore)).
  - reflexivity.
Defined.
(** ** Encrypt: the checks before the password *)

Lemma rev_app_append (a b acc : string) :
  String.rev_app (a +:+ b) acc = String.rev_app b (String.rev_app a acc).
Proof.
  revert acc. induction a as [|c a IH]; intros acc; [done|].
  rewrite append_cons. simpl. apply IH.
Qed.

Lemma string_snoc (s : string) :
  s ≠ "" → ∃ x c, s = x +:+ String c "" ∧ c ∈ String.list_ascii_of_string s.
Proof.
  induction s as [|c s IH]; [done|]. intros _.
  destruct s as [|c' s].
  - exists "", c. split; [done|]. simpl. apply list_elem_of_here.
  - destruct IH as (x & d & Hx & Hd); [done|].
    exists (String c x), d. split.
    + rewrite append_cons. by rewrite <- Hx.
    + simpl. apply list_elem_of_further. exact Hd.
Qed.

Lemma HasSuffix_sep_snoc (x : string) (c : ascii) :
  strings.HasSuffix (x +:+ String c "") "/" = bool_decide (c = "/"%char).
Proof.
  unfold strings.HasSuffix, String.rev. rewrite rev_app_append.
  change (String.rev_app (String c "") (String.rev_app x ""))
    with (String c (String.rev_app x "")).
  change (String.rev_app "/" "") with "/".
  change (String.prefix "/" (String c (String.rev_app x "")))
    with (if ascii_dec "/" c then String.prefix "" (String.rev_app x "") else false).
  destruct (ascii_dec "/" c) as [<-|Hc].
  - by rewrite prefix_nil, bool_decide_true.
  - by rewrite bool_decide_false by congruence.
Qed.

Lemma HasSuffix_sep_app_name (a n : string) :
  valid_name n = true → strings.HasSuffix (a +:+ n) "/" = false.
Proof.
  intros Hn. apply valid_name_spec in Hn as (Hne & _ & _ & Hs & _).
  destruct (string_snoc n Hne) as (x & c & -> & Hc).
  rewrite <- append_assoc, HasSuffix_sep_snoc.
  apply bool_decide_false. intros ->. by apply Hs.
Qed.

Lemma rel_path_snoc (k : list string) (n : string) :
  rel_path (k ++ [n]) = match k with [] => n | _ => rel_path k +:+ String "/" n end.
Proof. destruct k as [|x k]; [done|]. unfold rel_path. by rewrite Join_snoc. Qed.

Lemma abs_path_snoc (k : list string) (n : string) :
  abs_path (k ++ [n]) = match k with [] => "/" | _ => abs_path k +:+ "/" end +:+ n.
Proof.
  unfold abs_path. fold (rel_path (k ++ [n])). rewrite rel_path_snoc.
  destruct k as [|x k]; [done|]. unfold rel_path.
  by rewrite !append_assoc.
Qed.

Lemma list_snoc_inv {A} (k : list A) : k ≠ [] → ∃ d n, k = d ++ [n].
Proof. destruct k as [|n d _] using rev_ind; [done|]. intros _. by exists d, n. Qed.

Lemma TrimSuffix_abs_path (k : list string) :
  k ≠ [] → Forall (λ n, valid_name n = true) k →
  strings.TrimSuffix (abs_path k) "/" = abs_path k.
Proof.
  intros Hne Hk. destruct (list_snoc_inv k Hne) as (d & n & ->).
  rewrite Forall_app, Forall_singleton in Hk. destruct Hk as [_ Hn].
  unfold strings.TrimSuffix. rewrite abs_path_snoc.
  by rewrite HasSuffix_sep_app_name by done.
Qed.

Lemma append_nonempty_l (a b : string) : a ≠ "" → a +:+ b ≠ "".
Proof. by destruct a. Qed.

Lemma Getwd_abs_path (cwd : list string) : Getwd cwd = abs_path cwd.
Proof. reflexivity. Qed.

Lemma Abs_abs_path (k : list string) (w : World) :
  Forall (λ n, valid_name n = true) k →
  Abs (abs_path k) w = (Ok (abs_path k), w)
  ∧ Abs (abs_path k +:+ "/") w = (Ok (abs_path k), w).
Proof.
  intros Hk. unfold Abs. rewrite IsAbs_abs_path, IsAbs_app, IsAbs_abs_path by done.
  rewrite Clean_abs_path by done. split; [done|].
  rewrite Clean_elems.
  - by rewrite IsAbs_app, IsAbs_abs_path, elems_sep_end, elems_abs_path.
  - by apply append_nonempty_l.
  - by rewrite elems_sep_end, elems_abs_path.
Qed.

Lemma Abs_rel_path (n : string) (k : list string) (w : World) :
  Forall (λ n, valid_name n = true) (w_cwd w) →
  Forall (λ n, valid_name n = true) (n :: k) →
  Abs (rel_path (n :: k)) w = (Ok (abs_path (w_cwd w ++ n :: k)), w).
Proof.
  intros Hc Hk. unfold Abs. pose proof Hk as Hk'. apply Forall_cons in Hk' as [Hn _].
  rewrite IsAbs_rel_path by done.
  unfold filepath.Join. rewrite bool_decide_false by done.
  rewrite Join_cons by done. change (strings.Join [rel_path (n :: k)]) with (rel_path (n :: k)).
  rewrite Getwd_abs_path.
  rewrite Clean_elems.
  - rewrite IsAbs_app, IsAbs_abs_path by done.
    by rewrite elems_app_sep, elems_abs_path, elems_rel_path.
  - by apply append_nonempty_l.
  - rewrite elems_app_sep, elems_abs_path, elems_rel_path by done.
    by apply Forall_app.
Qed.

(** C9. [Encrypt] checks its argument before it asks for a password:
    when the path cannot be accessed, or is not a directory, or
    something exists at the output path, it returns the error and leaves
    the world as it was, so no output file is written, no prompt is
    printed and the terminal is not read.  The output path is the
    absolute form of the directory path, without trailing separator,
    followed by ".cloak": for the directory [/d1/../dn], with or without
    a trailing separator, it is [/d1/../dn.cloak], and for a relative
    path it is the same under the working directory. *)
Theorem Encrypt_validates_before_password `{Library} (folderPath : string) (w : World) :
  (∃ absPath, Abs folderPath w = (Ok absPath, w) ∧
     let outputPath := strings.TrimSuffix absPath "/" +:+ ".cloak" in
     match os.Stat (w_fs w) (w_cwd w) folderPath with
     | Err e => Encrypt folderPath w = (Err (wrapf "cannot access folder" e), w)
     | Panic m => Encrypt folderPath w = (Panic m, w)
     | Ok info =>
         if IsDir info then
           if is_Ok (os.Stat (w_fs w) (w_cwd w) outputPath)
           then Encrypt folderPath w
                = (Err ("output file already exists: " +:+ outputPath), w)
           else Encrypt_validate folderPath w = (Ok outputPath, w)
         else Encrypt folderPath w = (Err "path is not a directory", w)
     end)
  ∧ (∀ k, k ≠ [] → Forall (λ n, valid_name n = true) k →
       (folderPath = abs_path k ∨ folderPath = abs_path k +:+ "/") →
       ∃ absPath, Abs folderPath w = (Ok absPath, w)
         ∧ strings.TrimSuffix absPath "/" +:+ ".cloak" = abs_path k +:+ ".cloak")
  ∧ (∀ k, k ≠ [] → Forall (λ n, valid_name n = true) (w_cwd w ++ k) →
       folderPath = rel_path k →
       ∃ absPath, Abs folderPath w = (Ok absPath, w)
         ∧ strings.TrimSuffix absPath "/" +:+ ".cloak" = abs_path (w_cwd w ++ k) +:+ ".cloak").
Proof.
  split; [|split].
  - assert (Habs : ∃ absPath, Abs folderPath w = (Ok absPath, w)).
    { unfold Abs. destruct (filepath.IsAbs folderPath); eauto. }
    destruct Habs as [absPath Habs]. exists absPath. split; [done|]. simpl.
    assert (Hv : Encrypt_validate folderPath w
                 = match os.Stat (w_fs w) (w_cwd w) folderPath with
                   | Err e => (Err (wrapf "cannot access folder" e), w)
                   | Panic m => (Panic m, w)
                   | Ok info =>
                       if IsDir info then
                         if is_Ok (os.Stat (w_fs w) (w_cwd w)
                                     (strings.TrimSuffix absPath "/" +:+ ".cloak"))
                         then (Err ("output file already exists: "
                                    +:+ (strings.TrimSuffix absPath "/" +:+ ".cloak")), w)
                         else (Ok (strings.TrimSuffix absPath "/" +:+ ".cloak"), w)
                       else (Err "path is not a directory", w)
                   end).
    { unfold Encrypt_validate, bind, wrap, fs_read.
      destruct (os.Stat (w_fs w) (w_cwd w) folderPath) as [info|e|m]; [|done|done].
      destruct (IsDir info); [|done]. simpl. rewrite Habs.
      change filepath.Separator with "/".
      by destruct (os.Stat (w_fs w) (w_cwd w)
                     (strings.TrimSuffix absPath "/" +:+ ".cloak")). }
    destruct (os.Stat (w_fs w) (w_cwd w) folderPath) as [info|e|m].
    + destruct (IsDir info).
      * destruct (is_Ok _); [|done]. unfold Encrypt. by erewrite bind_Err.
      * unfold Encrypt. by erewrite bind_Err.
    + unfold Encrypt. by erewrite bind_Err.
    + unfold Encrypt, bind. by rewrite Hv.
  - intros k Hne Hk Hp. exists (abs_path k).
    destruct (Abs_abs_path k w Hk) as [H1 H2].
    split; [by destruct Hp as [-> | ->]|]. by rewrite TrimSuffix_abs_path.
  - intros k Hne Hk ->. exists (abs_path (w_cwd w ++ k)).
    apply Forall_app in Hk as [Hc Hk']. destruct k as [|n k]; [done|].
    split; [by apply Abs_rel_path|].
    rewrite TrimSuffix_abs_path; [done | by destruct (w_cwd w) | by apply Forall_app].
Qed.

Lemma Encrypt_validates_before_password_witness :
  let w := example_world in
  let w' := set_fs (<[ ["home"; "u"; "docs.cloak"] := NFile 420 [] ]> example_fs) w in
  @Encrypt toy.library "/home/u/nothing" w
    = (Err "cannot access folder: stat /home/u/nothing: no such file or directory", w)
  ∧ @Encrypt toy.library "docs/a.txt" w = (Err "path is not a directory", w)
  ∧ @Encrypt toy.library "docs/" w'
    = (Err "output file already exists: /home/u/docs.cloak", w')
  ∧ @Encrypt_validate "docs" w = (Ok "/home/u/docs.cloak", w).
Proof.
  intros w w'.
  destruct (@Encrypt_validates_before_password toy.library "/home/u/nothing" w)
    as [(a1 & Ha1 & H1) _].
  destruct (@Encrypt_validates_before_password toy.library "docs/a.txt" w)
    as [(a2 & Ha2 & H2) _].
  destruct (@Encrypt_validates_before_password toy.library "docs/" w')
    as [(a3 & Ha3 & H3) _].
  destruct (@Encrypt_validates_before_password toy.library "docs" w)
    as [(a4 & Ha4 & H4) _].
  injection Ha1 as <-. injection Ha2 as <-. injection Ha3 as <-. injection Ha4 as <-.
  split; [exact H1|]. split; [exact H2|]. split; [exact H3 | exact H4].
Defined.
(** ** Path resolution over real directories *)

Lemma resolve_hops_nil (h : nat) (fs : gmap (list string) node) (follow : bool)
    (cur : list string) :
  os.resolve_hops h fs follow cur [] = Ok cur.
Proof. by destruct h. Qed.

Lemma resolve_hops_cons (h : nat) (fs : gmap (list string) node) (follow : bool)
    (cur : list string) (c : string) (rest : list string) :
  os.resolve_hops h fs follow cur (c :: rest)
  = if bool_decide (c = ".") then os.resolve_hops h fs follow cur rest
    else if bool_decide (c = "..") then os.resolve_hops h fs follow (removelast cur) rest
    else
      match fs !! (cur ++ [c]) with
      | Some (NDir _) => os.resolve_hops h fs follow (cur ++ [c]) rest
      | Some (NFile _ _) => match rest with [] => Ok (cur ++ [c]) | _ => Err ENOTDIR end
      | Some (NSymlink t) =>
          if bool_decide (rest = []) && negb follow then Ok (cur ++ [c])
          else
            match h with
            | O => Err ELOOP
            | S h' =>
                if bool_decide (t = "") then Err ENOENT
                else os.resolve_hops h' fs follow
                       (if filepath.IsAbs t then [] else cur)
                       (os.elems_lookup t ++ rest)
            end
      | None => match rest with [] => Ok (cur ++ [c]) | _ => Err ENOENT end
      end.
Proof. by destruct h. Qed.

Lemma real_dir_nil (fs : gmap (list string) node) (o : list string) :
  is_dir fs o → real_dir fs o [].
Proof. intros Ho i Hi. simpl in Hi. replace i with 0%nat by lia. by rewrite app_nil_r. Qed.

Lemma real_dir_origin (fs : gmap (list string) node) (o k : list string) :
  real_dir fs o k → is_dir fs o.
Proof. intros Hk. specialize (Hk 0%nat). rewrite take_0, app_nil_r in Hk. apply Hk. lia. Qed.

Lemma real_dir_whole (fs : gmap (list string) node) (o k : list string) :
  real_dir fs o k → is_dir fs (o ++ k).
Proof. intros Hk. specialize (Hk (length k)). rewrite firstn_all in Hk. by apply Hk. Qed.

Lemma real_dir_snoc (fs : gmap (list string) node) (o k : list string) (n : string) :
  real_dir fs o k → is_dir fs (o ++ k ++ [n]) → real_dir fs o (k ++ [n]).
Proof.
  intros Hk Hn i Hi. rewrite length_app in Hi. simpl in Hi.
  destruct (decide (i ≤ length k)%nat) as [Hle|Hgt].
  - rewrite take_app_le by done. by apply Hk.
  - rewrite take_ge by (rewrite length_app; simpl; lia). done.
Qed.

Lemma real_dir_shift (fs : gmap (list string) node) (o : list string) (c : string)
    (k : list string) :
  real_dir fs o (c :: k) → real_dir fs (o ++ [c]) k.
Proof.
  intros Hk i Hi. specialize (Hk (S i)). simpl in Hk.
  rewrite <- app_assoc. simpl. apply Hk. lia.
Qed.

Lemma resolve_hops_dirs (h : nat) (fs : gmap (list string) node) (follow : bool)
    (k o rest : list string) :
  Forall (λ n, valid_name n = true) k → real_dir fs o k →
  os.resolve_hops h fs follow o (k ++ rest) = os.resolve_hops h fs follow (o ++ k) rest.
Proof.
  revert o. induction k as [|c k IH]; intros o Hv Hk.
  { by rewrite app_nil_r. }
  apply Forall_cons in Hv as [Hc Hv].
  apply valid_name_spec in Hc as (_ & Hd & Hdd & _).
  change ((c :: k) ++ rest) with (c :: (k ++ rest)).
  rewrite resolve_hops_cons, !bool_decide_false by done.
  destruct (Hk 1%nat) as [m Hm]; [simpl; lia|]. simpl in Hm. rewrite take_0 in Hm.
  rewrite Hm. rewrite IH by (done || by apply real_dir_shift).
  by rewrite <- app_assoc.
Qed.

Lemma resolve_hops_last (h : nat) (fs : gmap (list string) node) (follow : bool)
    (o : list string) (n : string) :
  valid_name n = true →
  (∀ t, fs !! (o ++ [n]) = Some (NSymlink t) → follow = false) →
  os.resolve_hops h fs follow o [n] = Ok (o ++ [n]).
Proof.
  intros Hn Hs. apply valid_name_spec in Hn as (_ & Hd & Hdd & _).
  rewrite resolve_hops_cons, !bool_decide_false by done.
  destruct (fs !! (o ++ [n])) as [[m d|m|t]|] eqn:Hl; try done.
  - by rewrite resolve_hops_nil.
  - by rewrite (Hs t eq_refl).
Qed.

Lemma resolve_hops_dot (h : nat) (fs : gmap (list string) node) (follow : bool)
    (o : list string) :
  os.resolve_hops h fs follow o ["."] = Ok o.
Proof. by rewrite resolve_hops_cons, bool_decide_true, resolve_hops_nil. Qed.

(** The elements of cleaned path strings. *)

Lemma path_string_nonempty (r : bool) (k : list string) :
  Forall (λ n, valid_name n = true) k → (r = false → k ≠ []) → path_string r k ≠ "".
Proof.
  intros Hk Hne. destruct r; [done|]. destruct k as [|n k]; [by destruct Hne|].
  apply Forall_cons in Hk as [Hn _]. by apply rel_path_nonempty.
Qed.

Lemma elems_path_string (r : bool) (k : list string) :
  Forall (λ n, valid_name n = true) k → os.elems (path_string r k) = k.
Proof. destruct r; [apply elems_abs_path | apply elems_rel_path]. Qed.

Lemma IsAbs_path_string (r : bool) (k : list string) :
  Forall (λ n, valid_name n = true) k → (r = false → k ≠ []) →
  filepath.IsAbs (path_string r k) = r.
Proof.
  intros Hk Hne. destruct r; [apply IsAbs_abs_path|].
  destruct k as [|n k]; [by destruct Hne|].
  apply Forall_cons in Hk as [Hn _]. by apply IsAbs_rel_path.
Qed.

Lemma start_path_string (r : bool) (cwd k : list string) :
  Forall (λ n, valid_name n = true) k → (r = false → k ≠ []) →
  os.start cwd (path_string r k) = origin r cwd.
Proof. intros Hk Hne. unfold os.start. rewrite IsAbs_path_string by done. by destruct r. Qed.

Lemma Split_path_string (r : bool) (k : list string) :
  Forall (λ n, valid_name n = true) k → k ≠ [] →
  strings.Split (path_string r k) = (if r then [""] else []) ++ k.
Proof.
  intros Hk Hne. destruct r.
  - change (path_string true k) with (String "/" (strings.Join k)).
    rewrite Split_sep_front.
    by rewrite Split_Join by (done || by apply valid_names_no_sep).
  - change (path_string false k) with (strings.Join k).
    by rewrite Split_Join by (done || by apply valid_names_no_sep).
Qed.

Lemma elems_lookup_path_string (r : bool) (k : list string) :
  Forall (λ n, valid_name n = true) k → os.elems_lookup (path_string r k) = k.
Proof.
  intros Hk. unfold os.elems_lookup. rewrite elems_path_string by done.
  rewrite bool_decide_false; [done|]. intros [Hne Hl].
  rewrite Split_path_string in Hl by done.
  destruct (list_snoc_inv k Hne) as (d & n & ->).
  rewrite app_assoc, last_snoc in Hl. injection Hl as ->.
  rewrite Forall_app, Forall_singleton in Hk. by destruct Hk as [_ Hk].
Qed.

Lemma resolve_path_string (fs : gmap (list string) node) (cwd : list string)
    (follow r : bool) (d : list string) (n : string) :
  Forall (λ n, valid_name n = true) (d ++ [n]) →
  real_dir fs (origin r cwd) d →
  (∀ t, fs !! (origin r cwd ++ d ++ [n]) = Some (NSymlink t) → follow = false) →
  os.resolve fs cwd follow (path_string r (d ++ [n])) = Ok (origin r cwd ++ d ++ [n]).
Proof.
  intros Hk Hd Hs. unfold os.resolve.
  rewrite bool_decide_false by (apply path_string_nonempty; [done | by destruct d]).
  rewrite start_path_string, elems_lookup_path_string by (done || by destruct d).
  rewrite Forall_app, Forall_singleton in Hk. destruct Hk as [Hvd Hn].
  rewrite resolve_hops_dirs by done.
  rewrite resolve_hops_last; [by rewrite <- app_assoc | done |].
  intros t. rewrite <- app_assoc. apply Hs.
Qed.

Lemma resolve_path_string_dir (fs : gmap (list string) node) (cwd : list string)
    (follow r : bool) (d : list string) :
  Forall (λ n, valid_name n = true) d → (r = false → d ≠ []) →
  real_dir fs (origin r cwd) d →
  os.resolve fs cwd follow (path_string r d) = Ok (origin r cwd ++ d).
Proof.
  intros Hk Hne Hd. unfold os.resolve.
  rewrite bool_decide_false by (by apply path_string_nonempty).
  rewrite start_path_string, elems_lookup_path_string by done.
  rewrite <- (app_nil_r d) at 1. rewrite resolve_hops_dirs by done.
  by rewrite resolve_hops_nil.
Qed.
(** ** The file-system calls on cleaned paths *)

Lemma lookup_path_string (fs : gmap (list string) node) (cwd : list string)
    (follow r : bool) (op : string) (d : list string) (n : string) (nd : node) :
  Forall (λ n, valid_name n = true) (d ++ [n]) →
  real_dir fs (origin r cwd) d →
  fs !! (origin r cwd ++ d ++ [n]) = Some nd →
  (∀ t, nd = NSymlink t → follow = false) →
  os.lookup_path follow op fs cwd (path_string r (d ++ [n]))
  = Ok (origin r cwd ++ d ++ [n], nd).
Proof.
  intros Hk Hd Hl Hs. unfold os.lookup_path.
  rewrite resolve_path_string by (try done; intros t Ht; apply (Hs t); congruence).
  by rewrite Hl.
Qed.

Lemma lookup_path_string_missing (fs : gmap (list string) node) (cwd : list string)
    (follow r : bool) (op : string) (d : list string) (n : string) :
  Forall (λ n, valid_name n = true) (d ++ [n]) →
  real_dir fs (origin r cwd) d →
  fs !! (origin r cwd ++ d ++ [n]) = None →
  os.lookup_path follow op fs cwd (path_string r (d ++ [n]))
  = Err (PathError op (path_string r (d ++ [n])) ENOENT).
Proof.
  intros Hk Hd Hl. unfold os.lookup_path.
  rewrite resolve_path_string by (try done; intros t Ht; congruence).
  by rewrite Hl.
Qed.

Lemma Lstat_path_string (fs : gmap (list string) node) (cwd : list string)
    (r : bool) (d : list string) (n : string) (nd : node) :
  Forall (λ n, valid_name n = true) (d ++ [n]) →
  real_dir fs (origin r cwd) d →
  fs !! (origin r cwd ++ d ++ [n]) = Some nd →
  os.Lstat fs cwd (path_string r (d ++ [n]))
  = Ok (info_of (filepath.Base (path_string r (d ++ [n]))) nd).
Proof.
  intros Hk Hd Hl. unfold os.Lstat.
  by rewrite (lookup_path_string fs cwd false r "lstat" d n nd).
Qed.

Lemma Stat_path_string (fs : gmap (list string) node) (cwd : list string)
    (r : bool) (d : list string) (n : string) (nd : node) :
  Forall (λ n, valid_name n = true) (d ++ [n]) →
  real_dir fs (origin r cwd) d →
  fs !! (origin r cwd ++ d ++ [n]) = Some nd →
  (∀ t, nd ≠ NSymlink t) →
  os.Stat fs cwd (path_string r (d ++ [n]))
  = Ok (info_of (filepath.Base (path_string r (d ++ [n]))) nd).
Proof.
  intros Hk Hd Hl Hs. unfold os.Stat.
  rewrite (lookup_path_string fs cwd true r "stat" d n nd); try done.
  intros t ->. by destruct (Hs t).
Qed.

Lemma Stat_path_string_missing (fs : gmap (list string) node) (cwd : list string)
    (r : bool) (d : list string) (n : string) :
  Forall (λ n, valid_name n = true) (d ++ [n]) →
  real_dir fs (origin r cwd) d →
  fs !! (origin r cwd ++ d ++ [n]) = None →
  ∃ e, os.Stat fs cwd (path_string r (d ++ [n])) = Err e.
Proof.
  intros Hk Hd Hl. unfold os.Stat.
  erewrite lookup_path_string_missing by done. eauto.
Qed.

Lemma Readlink_path_string (fs : gmap (list string) node) (cwd : list string)
    (r : bool) (d : list string) (n t : string) :
  Forall (λ n, valid_name n = true) (d ++ [n]) →
  real_dir fs (origin r cwd) d →
  fs !! (origin r cwd ++ d ++ [n]) = Some (NSymlink t) →
  os.Readlink fs cwd (path_string r (d ++ [n])) = Ok t.
Proof.
  intros Hk Hd Hl. unfold os.Readlink.
  by rewrite (lookup_path_string fs cwd false r "readlink" d n (NSymlink t)).
Qed.

Lemma ReadFile_path_string (fs : gmap (list string) node) (cwd : list string)
    (r : bool) (d : list string) (n : string) (m : Z) (data : list byte) :
  Forall (λ n, valid_name n = true) (d ++ [n]) →
  real_dir fs (origin r cwd) d →
  fs !! (origin r cwd ++ d ++ [n]) = Some (NFile m data) →
  os.ReadFile fs cwd (path_string r (d ++ [n])) = Ok data.
Proof.
  intros Hk Hd Hl. unfold os.ReadFile.
  by rewrite (lookup_path_string fs cwd true r "open" d n (NFile m data)).
Qed.

Lemma readDirNames_path_string (fs : gmap (list string) node) (cwd : list string)
    (r : bool) (d : list string) (n : string) (m : Z) :
  Forall (λ n, valid_name n = true) (d ++ [n]) →
  real_dir fs (origin r cwd) d →
  fs !! (origin r cwd ++ d ++ [n]) = Some (NDir m) →
  os.readDirNames fs cwd (path_string r (d ++ [n]))
  = Ok (merge_sort String.le (children fs (origin r cwd ++ d ++ [n]))).
Proof.
  intros Hk Hd Hl. unfold os.readDirNames.
  by rewrite (lookup_path_string fs cwd true r "open" d n (NDir m)).
Qed.

(** The names in a directory. *)

Lemma child_name_Some (dir k : list string) (n : string) :
  child_name dir k = Some n ↔ k = dir ++ [n].
Proof.
  unfold child_name. split.
  - destruct (drop (length dir) k) as [|x [|y l]] eqn:Hd; try done.
    case_bool_decide as Ht; [|done]. intros [= ->].
    by rewrite <- (take_drop (length dir) k), Ht, Hd.
  - intros ->. rewrite drop_app_length, take_app_length.
    by rewrite bool_decide_true.
Qed.

Lemma elem_of_children (fs : gmap (list string) node) (dir : list string) (n : string) :
  n ∈ children fs dir ↔ is_Some (fs !! (dir ++ [n])).
Proof.
  unfold children. rewrite list_elem_of_omap. split.
  - intros ([k nd] & Hin & Hc). simpl in Hc. apply child_name_Some in Hc as ->.
    apply elem_of_map_to_list in Hin. eauto.
  - intros [nd Hnd]. exists (dir ++ [n], nd). split.
    + by apply elem_of_map_to_list.
    + simpl. by apply child_name_Some.
Qed.

Lemma NoDup_children (fs : gmap (list string) node) (dir : list string) :
  NoDup (children fs dir).
Proof.
  unfold children.
  pose proof (NoDup_fst_map_to_list fs) as Hnd.
  induction (map_to_list fs) as [|[k nd] l IH]; [constructor|].
  simpl in Hnd. apply NoDup_cons in Hnd as [Hk Hnd].
  simpl. destruct (child_name dir k) as [n|] eqn:Hc; [|by apply IH].
  simpl. apply NoDup_cons. split; [|by apply IH].
  apply child_name_Some in Hc as ->.
  rewrite list_elem_of_omap. intros ([k' nd'] & Hin & Hc'). simpl in Hc'.
  apply child_name_Some in Hc' as ->.
  apply Hk. apply list_elem_of_fmap. by exists (dir ++ [n], nd').
Qed.
(** ** Directory trees in the file system *)

Lemma tree_ind' (P : tree → Prop) :
  (∀ m d, P (File m d)) →
  (∀ tg, P (Symlink tg)) →
  (∀ m es, Forall (λ nc, P nc.2) es → P (Dir m es)) →
  ∀ t, P t.
Proof.
  intros HF HS HD. fix IH 1. intros [m d|m es|tg]; [apply HF| |apply HS].
  apply HD. induction es as [|[n c] es IHes]; constructor; [apply IH | apply IHes].
Qed.

Lemma wf_tree_Dir (m : Z) (es : list (string * tree)) :
  wf_tree (Dir m es)
  ↔ 0 ≤ m < 2 ^ 32 ∧ Sorted String.le es.*1 ∧ NoDup es.*1
    ∧ Forall (λ nc, valid_name nc.1 = true ∧ wf_tree nc.2) es.
Proof.
  simpl. do 3 (apply and_iff_compat_l).
  induction es as [|[n c] es IH]; [by split|].
  rewrite Forall_cons. simpl. rewrite IH. tauto.
Qed.

Lemma holds_Dir (fs : gmap (list string) node) (p : list string) (m : Z)
    (es : list (string * tree)) :
  holds fs p (Dir m es)
  ↔ fs !! p = Some (NDir m)
    ∧ (∀ n, is_Some (fs !! (p ++ [n])) → n ∈ es.*1)
    ∧ Forall (λ nc, holds fs (p ++ [nc.1]) nc.2) es.
Proof.
  simpl. do 2 (apply and_iff_compat_l).
  induction es as [|[n c] es IH]; [by split|].
  rewrite Forall_cons. simpl. rewrite IH. tauto.
Qed.

Lemma reproduces_Dir (fs : gmap (list string) node) (p : list string) (m : Z)
    (es : list (string * tree)) :
  reproduces fs p (Dir m es)
  ↔ is_dir fs p
    ∧ (∀ n, is_Some (fs !! (p ++ [n])) → n ∈ es.*1)
    ∧ Forall (λ nc, reproduces fs (p ++ [nc.1]) nc.2) es.
Proof.
  simpl. do 2 (apply and_iff_compat_l).
  induction es as [|[n c] es IH]; [by split|].
  rewrite Forall_cons. simpl. rewrite IH. tauto.
Qed.

Lemma flatten_Dir (rel : list string) (m : Z) (es : list (string * tree)) :
  flatten rel (Dir m es)
  = tree_entry rel (Dir m es) :: (es ≫= λ nc, flatten (rel ++ [nc.1]) nc.2).
Proof.
  simpl. f_equal. induction es as [|[n c] es IH]; [done|].
  simpl. by rewrite IH.
Qed.

Lemma flatten_leaf (rel : list string) (t : tree) :
  (∀ m es, t ≠ Dir m es) → flatten rel t = [tree_entry rel t].
Proof. destruct t as [m d|m es|tg]; [done| |done]. intros H. by destruct (H m es). Qed.

Lemma plant_Dir (p : list string) (m : Z) (es : list (string * tree))
    (fs : gmap (list string) node) :
  plant (Dir m es) p fs
  = foldl (λ fs nc, plant nc.2 (p ++ [nc.1]) fs) (<[p := NDir m]> fs) es.
Proof.
  simpl. generalize (<[p := NDir m]> fs). clear fs.
  induction es as [|[n c] es IH]; intros fs; [done|]. simpl. apply IH.
Qed.

Lemma holds_node (fs : gmap (list string) node) (p : list string) (t : tree) :
  holds fs p t → fs !! p = Some (node_of t).
Proof. destruct t; simpl; tauto. Qed.

Lemma holds_reproduces (fs : gmap (list string) node) (p : list string) (t : tree) :
  holds fs p t → reproduces fs p t.
Proof.
  revert p. induction t as [m d|tg|m es IH] using tree_ind'; intros p.
  - simpl. eauto.
  - done.
  - rewrite holds_Dir, reproduces_Dir. intros (Hp & Hn & Hes).
    split; [by exists m|]. split; [done|].
    rewrite Forall_forall in IH, Hes. apply Forall_forall.
    intros nc Hin. by apply IH, Hes.
Qed.

Lemma children_holds (fs : gmap (list string) node) (p : list string) (m : Z)
    (es : list (string * tree)) :
  wf_tree (Dir m es) → holds fs p (Dir m es) →
  merge_sort String.le (children fs p) = es.*1.
Proof.
  rewrite wf_tree_Dir, holds_Dir. intros (_ & Hs & Hnd & _) (_ & Hn & Hes).
  apply (Sorted_unique String.le); [apply Sorted_merge_sort, _ | done |].
  rewrite merge_sort_Permutation.
  apply NoDup_Permutation; [apply NoDup_children | done |].
  intros n. rewrite elem_of_children. split; [apply Hn|].
  intros Hin. apply list_elem_of_fmap in Hin as ([n' c] & -> & Hin).
  rewrite Forall_forall in Hes. apply Hes in Hin. simpl in Hin.
  apply holds_node in Hin. eauto.
Qed.

Lemma max_depth_bound (fs : gmap (list string) node) (k : list string) :
  is_Some (fs !! k) → (length k ≤ max_depth fs)%nat.
Proof.
  intros [nd Hk]. apply elem_of_map_to_list in Hk. unfold max_depth.
  induction (map_to_list fs) as [|[k' nd'] l IH]; [by apply elem_of_nil in Hk|].
  apply elem_of_cons in Hk as [[= <- <-]|Hk]; simpl; [lia|].
  specialize (IH Hk). lia.
Qed.
(** ** Join, Dir and Rel on cleaned paths *)

Lemma Clean_path_string (r : bool) (k : list string) :
  Forall (λ n, valid_name n = true) k → (r = false → k ≠ []) →
  filepath.Clean (path_string r k) = path_string r k.
Proof.
  intros Hk Hne. destruct r; [by apply Clean_abs_path|].
  destruct k as [|n k]; [by destruct Hne|]. by apply Clean_rel_path.
Qed.

Lemma Clean_by_elems (s : string) (r : bool) (k : list string) :
  s ≠ "" → filepath.IsAbs s = r → os.elems s = k →
  Forall (λ n, valid_name n = true) k → (r = false → k ≠ []) →
  filepath.Clean s = path_string r k.
Proof.
  intros Hs Hr He Hk Hne. rewrite Clean_elems by (done || by rewrite He).
  rewrite Hr, He. destruct r; [done|]. by rewrite bool_decide_false by auto.
Qed.

Lemma Join_path_string (r : bool) (k : list string) (n : string) :
  Forall (λ n, valid_name n = true) (k ++ [n]) → (r = false → k ≠ []) →
  filepath.Join [path_string r k; n] = path_string r (k ++ [n]).
Proof.
  intros Hk Hne. pose proof Hk as Hk'.
  rewrite Forall_app, Forall_singleton in Hk'. destruct Hk' as [Hvk Hn].
  pose proof (path_string_nonempty r k Hvk Hne) as Hp.
  unfold filepath.Join. rewrite bool_decide_false by done.
  rewrite Join_cons by done. change (strings.Join [n]) with n.
  apply Clean_by_elems.
  - by apply append_nonempty_l.
  - rewrite IsAbs_app by done. by apply IsAbs_path_string.
  - rewrite elems_app_sep, elems_path_string by done.
    f_equal. change n with (rel_path [n]). apply elems_rel_path. by constructor.
  - done.
  - intros _. by destruct k.
Qed.

Lemma Join_abs_rel (d : list string) (q : list string) :
  Forall (λ n, valid_name n = true) (d ++ q) → q ≠ [] →
  filepath.Join [abs_path d; rel_path q] = abs_path (d ++ q).
Proof.
  intros Hk Hne. pose proof Hk as Hk'. rewrite Forall_app in Hk'. destruct Hk' as [Hd Hq].
  unfold filepath.Join. rewrite bool_decide_false by done.
  rewrite Join_cons by done. change (strings.Join [rel_path q]) with (rel_path q).
  apply (Clean_by_elems _ true).
  - by apply append_nonempty_l.
  - rewrite IsAbs_app by done. apply IsAbs_abs_path.
  - by rewrite elems_app_sep, elems_abs_path, elems_rel_path.
  - done.
  - done.
Qed.

Lemma upto_last_sep_split (p : string) (L : list string) (n : string) :
  strings.Split p = L ++ [n] →
  filepath.upto_last_sep p
  = if bool_decide (L = []) then "" else strings.Join L +:+ "/".
Proof.
  intros Hs. unfold filepath.upto_last_sep. rewrite Hs, reverse_snoc.
  destruct (reverse L) as [|x rl] eqn:Hr.
  - assert (L = []) as ->.
    { apply (f_equal reverse) in Hr. by rewrite reverse_involutive in Hr. }
    by rewrite bool_decide_true.
  - rewrite bool_decide_false by (intros ->; done).
    by rewrite <- Hr, reverse_involutive.
Qed.

Lemma upto_last_sep_path_string (r : bool) (d : list string) (n : string) :
  Forall (λ n, valid_name n = true) (d ++ [n]) →
  filepath.upto_last_sep (path_string r (d ++ [n]))
  = if bool_decide (d = []) then (if r then "/" else "")
    else path_string r d +:+ "/".
Proof.
  intros Hk.
  rewrite (upto_last_sep_split _ ((if r then [""] else []) ++ d) n).
  2: { rewrite Split_path_string by (done || by destruct d). by rewrite app_assoc. }
  destruct r.
  - rewrite bool_decide_false by done.
    case_bool_decide as Hd; [by subst d|].
    change ([""] ++ d) with ("" :: d). by rewrite Join_cons.
  - simpl. by case_bool_decide.
Qed.

Lemma Dir_path_string (r : bool) (d : list string) (n : string) :
  Forall (λ n, valid_name n = true) (d ++ [n]) →
  filepath.Dir (path_string r (d ++ [n]))
  = if bool_decide (d = []) then (if r then "/" else ".") else path_string r d.
Proof.
  intros Hk. pose proof Hk as Hk'.
  rewrite Forall_app, Forall_singleton in Hk'. destruct Hk' as [Hvd Hn].
  unfold filepath.Dir. rewrite upto_last_sep_path_string by done.
  case_bool_decide as Hd; [by destruct r|].
  apply Clean_by_elems.
  - apply append_nonempty_l. apply path_string_nonempty; [done | by intros _].
  - rewrite IsAbs_app by (by apply path_string_nonempty).
    by apply IsAbs_path_string.
  - by rewrite elems_sep_end, elems_path_string.
  - done.
  - done.
Qed.

Lemma Dir_abs_path (d : list string) (n : string) :
  Forall (λ n, valid_name n = true) (d ++ [n]) →
  filepath.Dir (abs_path (d ++ [n])) = abs_path d.
Proof.
  intros Hk. change (abs_path (d ++ [n])) with (path_string true (d ++ [n])).
  rewrite Dir_path_string by done. case_bool_decide as Hd; [by subst d | done].
Qed.

Lemma strip_common_prefix (l t : list string) :
  filepath.strip_common l (l ++ t) = ([], t).
Proof.
  induction l as [|x l IH]; [by destruct t|].
  simpl. by rewrite bool_decide_true.
Qed.

Lemma rel_elems_path_string (r : bool) (k : list string) :
  Forall (λ n, valid_name n = true) k → k ≠ [] →
  filepath.rel_elems (path_string r k) = (if r then [""] else []) ++ k.
Proof.
  intros Hk Hne. unfold filepath.rel_elems.
  rewrite bool_decide_false by (apply path_string_nonempty; done).
  rewrite bool_decide_false; [by apply Split_path_string|].
  intros He. apply (f_equal os.elems) in He.
  rewrite elems_path_string in He by done. by subst k.
Qed.

Lemma Rel_path_string (r : bool) (parent : list string) (base : string) (q : list string) :
  Forall (λ n, valid_name n = true) (parent ++ base :: q) →
  filepath.Rel (filepath.Dir (path_string r (parent ++ [base])))
               (path_string r (parent ++ base :: q))
  = Ok (rel_path (base :: q)).
Proof.
  intros Hk.
  assert (Hpb : Forall (λ n, valid_name n = true) (parent ++ [base])).
  { rewrite Forall_app in *. destruct Hk as [Hp Hbq]. apply Forall_cons in Hbq as [Hb _].
    split; [done | by constructor]. }
  assert (Hp : Forall (λ n, valid_name n = true) parent).
  { rewrite Forall_app in Hpb. tauto. }
  assert (Hne : parent ++ base :: q ≠ []) by (by destruct parent).
  rewrite Dir_path_string by done. unfold filepath.Rel.
  rewrite (Clean_path_string r (parent ++ base :: q)) by done.
  pose proof (elems_path_string r _ Hk) as HT.
  pose proof (IsAbs_path_string r _ Hk (λ _, Hne)) as HTabs.
  pose proof (rel_elems_path_string r _ Hk Hne) as HTel.
  destruct (decide (parent = [])) as [->|Hd].
  - rewrite (bool_decide_true (@nil string = [])) by done. destruct r.
    + change (filepath.Clean "/") with "/".
      rewrite bool_decide_false.
      2: { intros He. apply (f_equal os.elems) in He. by rewrite HT in He. }
      rewrite (bool_decide_false ("/" = ".")) by done.
      rewrite HTabs. simpl negb. cbv iota.
      rewrite HTel. change (filepath.rel_elems "/") with [""].
      change ([""] ++ [] ++ base :: q) with ([""] ++ base :: q).
      by rewrite strip_common_prefix.
    + change (filepath.Clean ".") with ".".
      rewrite bool_decide_false.
      2: { intros He. apply (f_equal os.elems) in He. rewrite HT in He.
           injection He as -> _. apply Forall_cons in Hk as [Hb _].
           by apply valid_name_spec in Hb as (_ & ? & _). }
      rewrite (bool_decide_true ("." = ".")) by done.
      rewrite HTabs. simpl negb. cbv iota.
      rewrite HTel. change (filepath.rel_elems "") with (@nil string).
      by destruct q.
  - rewrite (bool_decide_false (parent = [])) by done.
    rewrite (Clean_path_string r parent) by (done || by intros _).
    rewrite bool_decide_false.
    2: { intros He. apply (f_equal os.elems) in He.
         rewrite HT, elems_path_string in He by done.
         apply (f_equal length) in He. rewrite length_app in He. simpl in He. lia. }
    rewrite (bool_decide_false (path_string r parent = ".")).
    2: { intros He. apply (f_equal os.elems) in He.
         rewrite elems_path_string in He by done. subst parent.
         apply Forall_cons in Hp as [Hp _]. by apply valid_name_spec in Hp as (_ & ? & _). }
    rewrite HTabs, IsAbs_path_string by (done || by intros _).
    rewrite bool_decide_true by done. simpl negb. cbv iota.
    rewrite HTel, rel_elems_path_string by done.
    rewrite app_assoc, strip_common_prefix. done.
Qed.
(** ** ArchiveDirectory walks a tree *)

Lemma nul_free_valid_name (n : string) : valid_name n = true → nul_free n.
Proof. intros Hn. by apply valid_name_spec in Hn as (_ & _ & _ & _ & ?). Qed.

Lemma list_ascii_append (a b : string) :
  String.list_ascii_of_string (a +:+ b)
  = String.list_ascii_of_string a ++ String.list_ascii_of_string b.
Proof. induction a as [|c a IH]; [done|]. rewrite append_cons. simpl. by rewrite IH. Qed.

Lemma nul_free_rel_path (k : list string) :
  Forall (λ n, valid_name n = true) k → nul_free (rel_path k).
Proof.
  induction 1 as [|n k Hn Hk IH]; [by intros ?%elem_of_nil|].
  rewrite rel_path_cons. destruct k as [|n' k]; [by apply nul_free_valid_name|].
  unfold nul_free in *. rewrite list_ascii_append. simpl.
  rewrite elem_of_app, elem_of_cons.
  intros [Hin|[Hin|Hin]]; [by apply nul_free_valid_name in Hn | done | by apply IH].
Qed.

Lemma nul_free_empty : nul_free "".
Proof. by intros ?%elem_of_nil. Qed.

Lemma current_complete_tree_entry (rel : list string) (t : tree) (tw : list tar_entry) :
  tar.current_complete (tree_entry rel t :: tw) = true.
Proof. destruct t; simpl; unfold entry_complete; by apply bool_decide_eq_true. Qed.

Lemma walk_names_nil {St} (rec : string → FileInfo → WalkFunc → St → M St)
    (path : string) (walkFn : WalkFunc) (st : St) (w : World) :
  walk_names rec path walkFn [] st w = (Ok st, w).
Proof. reflexivity. Qed.

Lemma walk_names_cons {St} (rec : string → FileInfo → WalkFunc → St → M St)
    (path : string) (walkFn : WalkFunc) (name : string) (names : list string)
    (st : St) (w : World) :
  walk_names rec path walkFn (name :: names) st w
  = match os.Lstat (w_fs w) (w_cwd w) (filepath.Join [path; name]) with
    | Err e =>
        (let* st' := walkFn (filepath.Join [path; name]) None (Some e) st in
         walk_names rec path walkFn names st') w
    | Panic m => (Panic m, w)
    | Ok fileInfo =>
        (let* st' := rec (filepath.Join [path; name]) fileInfo walkFn st in
         walk_names rec path walkFn names st') w
    end.
Proof. reflexivity. Qed.

Section archive.
Context `{L : Library} `{!LibraryOk L}.
Context (r : bool) (parent : list string) (base : string).

Lemma visit_tree (t : tree) (q d : list string) (n nm : string)
    (tw : list tar_entry) (w : World) :
  wf_tree t →
  parent ++ base :: q = d ++ [n] →
  Forall (λ n, valid_name n = true) (d ++ [n]) →
  real_dir (w_fs w) (origin r (w_cwd w)) d →
  holds (w_fs w) (origin r (w_cwd w) ++ d ++ [n]) t →
  tar.current_complete tw = true →
  ArchiveDirectory_visit (path_string r (parent ++ [base])) (path_string r (d ++ [n]))
    (Some (info_of nm (node_of t))) None tw w
  = (Ok (tree_entry (base :: q) t :: tw), w).
Proof.
  intros Hwf Heq Hk Hd Hholds Htw.
  assert (Hrel : filepath.Rel (filepath.Dir (path_string r (parent ++ [base])))
                   (path_string r (d ++ [n])) = Ok (rel_path (base :: q))).
  { rewrite <- Heq. apply Rel_path_string. by rewrite Heq. }
  assert (Hbq : Forall (λ n, valid_name n = true) (base :: q)).
  { rewrite <- Heq, Forall_app in Hk. tauto. }
  pose proof (nul_free_rel_path _ Hbq) as Hnul.
  pose proof (holds_node _ _ _ Hholds) as Hnode.
  unfold ArchiveDirectory_visit.
  destruct t as [m data|m es|tg]; simpl in Hwf, Hnode |- *.
  - unfold bind, lift, fs_read, ret. simpl. rewrite Hrel. simpl.
    unfold tar.WriteHeader. rewrite Htw. simpl.
    rewrite tar_encodable_names;
      [| exact Hnul | exact nul_free_empty | apply len_nonneg]. simpl.
    rewrite (ReadFile_path_string _ _ _ _ _ m data) by done.
    unfold tar.Write. simpl. by rewrite bool_decide_true.
  - unfold bind, lift, fs_read, ret. simpl. rewrite Hrel. simpl.
    unfold tar.WriteHeader. rewrite Htw. simpl.
    rewrite tar_encodable_names; [done | exact Hnul | exact nul_free_empty | done].
  - unfold bind, lift, fs_read, ret. simpl. rewrite Hrel. simpl.
    rewrite (Readlink_path_string _ _ _ _ _ tg) by done. simpl.
    unfold tar.WriteHeader. rewrite Htw. simpl.
    rewrite tar_encodable_names; [done | exact Hnul | by destruct Hwf | done].
Qed.

Lemma walk_tree (t : tree) :
  ∀ (q d : list string) (n nm : string) (fuel : nat) (tw : list tar_entry) (w : World),
    wf_tree t →
    parent ++ base :: q = d ++ [n] →
    Forall (λ n, valid_name n = true) (d ++ [n]) →
    real_dir (w_fs w) (origin r (w_cwd w)) d →
    holds (w_fs w) (origin r (w_cwd w) ++ d ++ [n]) t →
    (max_depth (w_fs w) < fuel + length (origin r (w_cwd w) ++ d ++ [n]))%nat →
    tar.current_complete tw = true →
    walk fuel (path_string r (d ++ [n])) (info_of nm (node_of t))
      (ArchiveDirectory_visit (path_string r (parent ++ [base]))) tw w
    = (Ok (reverse (flatten (base :: q) t) ++ tw), w)
    ∧ tar.current_complete (reverse (flatten (base :: q) t) ++ tw) = true.
Proof.
  induction t as [m data|tg|m es IH] using tree_ind';
    intros q d n nm fuel tw w Hwf Heq Hk Hd Hholds Hfuel Htw.
  - destruct fuel; simpl; (split; [by apply (visit_tree (File m data)) | ]);
      unfold entry_complete; by apply bool_decide_eq_true.
  - destruct fuel; simpl; (split; [by apply (visit_tree (Symlink tg)) | ]);
      unfold entry_complete; by apply bool_decide_eq_true.
  - pose proof (holds_node _ _ _ Hholds) as Hnode. simpl in Hnode.
    assert (Hkey : is_dir (w_fs w) (origin r (w_cwd w) ++ d ++ [n])) by (by exists m).
    assert (Hdn : real_dir (w_fs w) (origin r (w_cwd w)) (d ++ [n]))
      by (by apply real_dir_snoc).
    destruct fuel as [|fuel].
    { exfalso. pose proof (max_depth_bound (w_fs w) _ (ex_intro _ _ Hnode)). lia. }
    rewrite flatten_Dir.
    change (walk (S fuel) ?p ?i ?f ?st) with
      (if negb (IsDir i) then f p (Some i) None st
       else λ w, match os.readDirNames (w_fs w) (w_cwd w) p with
                 | Err e => f p (Some i) (Some e) st w
                 | Panic m => (Panic m, w)
                 | Ok names =>
                     (let* st1 := f p (Some i) None st in
                      walk_names (walk fuel) p f names st1) w
                 end).
    change (negb (IsDir (info_of nm (node_of (Dir m es))))) with false.
    cbv iota beta.
    rewrite reverse_cons, <- app_assoc.
    change ([tree_entry (base :: q) (Dir m es)] ++ tw)
      with (tree_entry (base :: q) (Dir m es) :: tw).
    rewrite (readDirNames_path_string _ _ _ _ _ m) by done.
    rewrite (children_holds _ _ m es) by done.
    unfold bind at 1.
    rewrite (visit_tree (Dir m es) q d n nm tw w) by done.
    pose proof (current_complete_tree_entry (base :: q) (Dir m es) tw) as Htw1.
    revert Htw1. generalize (tree_entry (base :: q) (Dir m es) :: tw) as tw1.
    apply wf_tree_Dir in Hwf as (_ & _ & _ & Hwfes).
    apply holds_Dir in Hholds as (_ & _ & Hes).
    clear Htw Hnode.
    induction es as [|[n' c] es IHes]; intros tw1 Htw1.
    { by rewrite walk_names_nil. }
    apply Forall_cons in IH as [IHc IH]. apply Forall_cons in Hwfes as [[Hn' Hwfc] Hwfes].
    apply Forall_cons in Hes as [Hc Hes]. simpl in IHc, Hn', Hwfc, Hc.
    assert (Hk' : Forall (λ n, valid_name n = true) ((d ++ [n]) ++ [n'])).
    { rewrite Forall_app, Forall_singleton. done. }
    rewrite fmap_cons, walk_names_cons. simpl fst.
    rewrite Join_path_string by (done || (intros _; by destruct d)).
    rewrite (Lstat_path_string _ _ _ _ _ (node_of c)); try done.
    2: { rewrite <- app_assoc in Hc. by apply holds_node. }
    unfold bind at 1.
    destruct (IHc (q ++ [n']) (d ++ [n]) n'
                (filepath.Base (path_string r ((d ++ [n]) ++ [n']))) fuel tw1 w)
      as [Hwalk Hcomplete]; try done.
    { rewrite <- Heq. by rewrite <- !app_assoc. }
    { by rewrite <- !app_assoc in *. }
    { rewrite !length_app in *. simpl in *. lia. }
    rewrite Hwalk.
    destruct (IHes IH Hwfes Hes _ Hcomplete) as [Hrest Hcomp'].
    simpl mbind. rewrite reverse_app, <- app_assoc.
    change (base :: q ++ [n']) with ((base :: q) ++ [n']) in *.
    split; [exact Hrest | exact Hcomp'].
Qed.

End archive.
Lemma Forall_flatten_ok `{L : Library} `{!LibraryOk L} (t : tree) (rel : list string) :
  wf_tree t → Forall (λ n, valid_name n = true) rel →
  Forall (λ e, tar_encodable (te_header e) = true ∧ entry_complete e = true)
    (flatten rel t).
Proof.
  revert rel. induction t as [m data|tg|m es IH] using tree_ind'; intros rel Hwf Hrel.
  - constructor; [|constructor]. split.
    + apply tar_encodable_names; simpl;
        [by apply nul_free_rel_path | exact nul_free_empty | apply len_nonneg].
    + unfold entry_complete. by apply bool_decide_eq_true.
  - constructor; [|constructor]. split.
    + apply tar_encodable_names; simpl;
        [by apply nul_free_rel_path | by destruct Hwf | done].
    + unfold entry_complete. by apply bool_decide_eq_true.
  - rewrite flatten_Dir. apply wf_tree_Dir in Hwf as (_ & _ & _ & Hes).
    constructor.
    { split.
      + apply tar_encodable_names; simpl;
          [by apply nul_free_rel_path | exact nul_free_empty | done].
      + unfold entry_complete. by apply bool_decide_eq_true. }
    induction es as [|[n c] es IHes]; [constructor|].
    apply Forall_cons in IH as [IHc IH]. apply Forall_cons in Hes as [[Hn Hc] Hes].
    simpl. apply Forall_app. split; [|by apply IHes].
    apply IHc; [done|]. rewrite Forall_app, Forall_singleton. done.
Qed.

Section archive_directory.
Context `{L : Library} `{!LibraryOk L}.

(** [ArchiveDirectory] on the cleaned path of a tree writes the
    entries of the tree, the root under its base name, and does not
    change the file system. *)
Lemma ArchiveDirectory_tree (r : bool) (parent : list string) (base : string)
    (t : tree) (w : World) :
  wf_tree t →
  Forall (λ n, valid_name n = true) (parent ++ [base]) →
  real_dir (w_fs w) (origin r (w_cwd w)) parent →
  holds (w_fs w) (origin r (w_cwd w) ++ parent ++ [base]) t →
  ∃ out,
    ArchiveDirectory (path_string r (parent ++ [base])) w
    = (Ok (Some (length (w_heap w))),
       set_out out (set_heap (w_heap w ++ [targz_bytes (flatten [base] t)]) w)).
Proof.
  intros Hwf Hk Hd Hholds. eexists.
  unfold ArchiveDirectory. unfold bind at 1. unfold Walk.
  rewrite (Lstat_path_string _ _ _ _ _ (node_of t)) by (done || by apply holds_node).
  destruct (walk_tree r parent base t [] parent base
              (filepath.Base (path_string r (parent ++ [base])))
              (S (max_depth (w_fs w))) [] w) as [Hwalk Hcomplete]; try done.
  { lia. }
  rewrite Hwalk. rewrite app_nil_r in *.
  unfold bind, lift, tar.Close, alloc, load, Print, ret.
  rewrite Hcomplete. simpl. rewrite reverse_involutive.
  reflexivity.
Qed.

End archive_directory.
(** ** The file-system calls of ExtractArchive *)

Lemma Stat_abs_dir (fs : gmap (list string) node) (cwd d : list string) :
  Forall (λ n, valid_name n = true) d → real_dir fs [] d →
  ∃ info, os.Stat fs cwd (abs_path d) = Ok info ∧ IsDir info = true.
Proof.
  intros Hv Hd. unfold os.Stat, os.lookup_path.
  change (abs_path d) with (path_string true d).
  rewrite (resolve_path_string_dir fs cwd true true d) by done.
  destruct (real_dir_whole _ _ _ Hd) as [m Hm]. simpl in *. rewrite Hm.
  by eexists.
Qed.

Lemma Split_sep_end (a : string) : strings.Split (a +:+ "/") = strings.Split a ++ [""].
Proof. by rewrite Split_app_sep. Qed.

Lemma elems_lookup_sep_end (d : list string) :
  Forall (λ n, valid_name n = true) d → d ≠ [] →
  os.elems_lookup (abs_path d +:+ "/") = d ++ ["."].
Proof.
  intros Hv Hne. unfold os.elems_lookup.
  rewrite elems_sep_end, elems_abs_path by done.
  rewrite bool_decide_true; [done|]. split; [done|].
  by rewrite Split_sep_end, last_snoc.
Qed.

Lemma Stat_abs_dir_sep (fs : gmap (list string) node) (cwd d : list string) :
  Forall (λ n, valid_name n = true) d → real_dir fs [] d →
  ∃ info, os.Stat fs cwd (if bool_decide (d = []) then "/" else abs_path d +:+ "/")
          = Ok info ∧ IsDir info = true.
Proof.
  intros Hv Hd. case_bool_decide as He.
  { subst d. apply (Stat_abs_dir fs cwd []); done. }
  unfold os.Stat, os.lookup_path, os.resolve.
  rewrite bool_decide_false by (by apply append_nonempty_l).
  unfold os.start. rewrite IsAbs_app, IsAbs_abs_path by done.
  rewrite elems_lookup_sep_end by done.
  rewrite resolve_hops_dirs by done. rewrite app_nil_l, resolve_hops_dot.
  destruct (real_dir_whole _ _ _ Hd) as [m Hm]. rewrite app_nil_l in Hm. rewrite Hm.
  by eexists.
Qed.

Lemma parent_string_abs_path (d : list string) (n : string) :
  Forall (λ n, valid_name n = true) (d ++ [n]) →
  os.parent_string (abs_path (d ++ [n]))
  = if bool_decide (d = []) then "/" else abs_path d +:+ "/".
Proof.
  intros Hv. unfold os.parent_string.
  rewrite elems_abs_path, reverse_snoc, IsAbs_abs_path by done.
  destruct (reverse d) as [|x rd] eqn:Hr.
  - assert (d = []) as ->.
    { apply (f_equal reverse) in Hr. by rewrite reverse_involutive in Hr. }
    by rewrite bool_decide_true.
  - rewrite bool_decide_false by (intros ->; done).
    rewrite <- Hr, reverse_involutive. unfold abs_path. by rewrite append_assoc.
Qed.

Lemma resolve_parent_abs_path (fs : gmap (list string) node) (cwd d : list string)
    (n : string) :
  Forall (λ n, valid_name n = true) (d ++ [n]) → real_dir fs [] d →
  os.resolve_parent fs cwd (abs_path (d ++ [n])) = Ok (d, n).
Proof.
  intros Hv Hd. unfold os.resolve_parent.
  rewrite elems_abs_path, reverse_snoc, reverse_involutive by done.
  unfold os.start. rewrite IsAbs_abs_path.
  rewrite Forall_app in Hv. destruct Hv as [Hvd _].
  rewrite <- (app_nil_r d) at 1. rewrite resolve_hops_dirs by done.
  rewrite app_nil_l, resolve_hops_nil.
  destruct (real_dir_whole _ _ _ Hd) as [m Hm]. rewrite app_nil_l in Hm. by rewrite Hm.
Qed.

Lemma Mkdir_abs_new (fs : gmap (list string) node) (cwd d : list string)
    (n : string) (perm : Z) :
  Forall (λ n, valid_name n = true) (d ++ [n]) → real_dir fs [] d →
  fs !! (d ++ [n]) = None →
  os.Mkdir fs cwd (abs_path (d ++ [n])) perm = Ok (<[d ++ [n] := NDir perm]> fs).
Proof.
  intros Hv Hd Hn. unfold os.Mkdir. rewrite resolve_parent_abs_path by done.
  rewrite Forall_app, Forall_singleton in Hv. destruct Hv as [_ Hvn].
  apply valid_name_spec in Hvn as (_ & ? & ? & _).
  rewrite bool_decide_false by (intros [?|?]; done). by rewrite Hn.
Qed.

Lemma MkdirAll_fuel_eq (fuel : nat) (fs : gmap (list string) node) (cwd : list string)
    (p : string) (perm : Z) :
  os.MkdirAll_fuel fuel fs cwd p perm
  = match os.Stat fs cwd p with
    | Ok dir => if IsDir dir then Ok fs else Err (PathError "mkdir" p ENOTDIR)
    | Panic m => Panic m
    | Err _ =>
        match fuel with
        | O => Err (PathError "mkdir" p ENOENT)
        | S fuel' =>
            match (if bool_decide (os.parent_string p ≠ "")
                   then os.MkdirAll_fuel fuel' fs cwd (os.parent_string p) perm
                   else Ok fs) with
            | Ok fs1 =>
                match os.Mkdir fs1 cwd p perm with
                | Ok fs2 => Ok fs2
                | Err e =>
                    match os.Lstat fs1 cwd p with
                    | Ok dir => if IsDir dir then Ok fs1 else Err e
                    | _ => Err e
                    end
                | Panic m => Panic m
                end
            | Err e => Err e
            | Panic m => Panic m
            end
        end
    end.
Proof. by destruct fuel. Qed.

Lemma MkdirAll_abs_dir (fs : gmap (list string) node) (cwd d : list string) (perm : Z) :
  Forall (λ n, valid_name n = true) d → real_dir fs [] d →
  os.MkdirAll fs cwd (abs_path d) perm = Ok fs.
Proof.
  intros Hv Hd. unfold os.MkdirAll. rewrite MkdirAll_fuel_eq.
  destruct (Stat_abs_dir fs cwd d Hv Hd) as (info & -> & ->). done.
Qed.

Lemma MkdirAll_abs_new (fs : gmap (list string) node) (cwd d : list string)
    (n : string) (perm : Z) :
  Forall (λ n, valid_name n = true) (d ++ [n]) → real_dir fs [] d →
  fs !! (d ++ [n]) = None →
  os.MkdirAll fs cwd (abs_path (d ++ [n])) perm = Ok (<[d ++ [n] := NDir perm]> fs).
Proof.
  intros Hv Hd Hn. pose proof Hv as Hv'. rewrite Forall_app in Hv'. destruct Hv' as [Hvd _].
  unfold os.MkdirAll. rewrite MkdirAll_fuel_eq.
  destruct (Stat_path_string_missing fs cwd true d n Hv Hd Hn) as [e He].
  change (path_string true (d ++ [n])) with (abs_path (d ++ [n])) in He. rewrite He.
  rewrite parent_string_abs_path by done.
  rewrite bool_decide_true by (by case_bool_decide).
  rewrite MkdirAll_fuel_eq.
  destruct (Stat_abs_dir_sep fs cwd d Hvd Hd) as (info & -> & ->).
  by rewrite Mkdir_abs_new.
Qed.

Lemma OpenFile_abs_new (fs : gmap (list string) node) (cwd d : list string)
    (n : string) (perm : Z) :
  Forall (λ n, valid_name n = true) (d ++ [n]) → real_dir fs [] d →
  fs !! (d ++ [n]) = None →
  os.OpenFile_create_trunc fs cwd (abs_path (d ++ [n])) perm
  = Ok (d ++ [n], <[d ++ [n] := NFile perm []]> fs).
Proof.
  intros Hv Hd Hn. unfold os.OpenFile_create_trunc.
  change (abs_path (d ++ [n])) with (path_string true (d ++ [n])).
  rewrite (resolve_path_string fs cwd true true d n) by (try done; simpl; congruence).
  simpl. rewrite Hn, removelast_last.
  destruct (real_dir_whole _ _ _ Hd) as [m Hm]. simpl in Hm. by rewrite Hm.
Qed.

Lemma Remove_abs_missing (fs : gmap (list string) node) (cwd d : list string) (n : string) :
  Forall (λ n, valid_name n = true) (d ++ [n]) → real_dir fs [] d →
  fs !! (d ++ [n]) = None →
  ∃ e, os.Remove fs cwd (abs_path (d ++ [n])) = Err e.
Proof.
  intros Hv Hd Hn. unfold os.Remove.
  change (abs_path (d ++ [n])) with (path_string true (d ++ [n])).
  rewrite (lookup_path_string_missing fs cwd false true) by done. eauto.
Qed.

Lemma Symlink_abs_new (fs : gmap (list string) node) (cwd d : list string)
    (n oldname : string) :
  Forall (λ n, valid_name n = true) (d ++ [n]) → real_dir fs [] d →
  fs !! (d ++ [n]) = None → oldname ≠ "" →
  os.Symlink fs cwd oldname (abs_path (d ++ [n])) = Ok (<[d ++ [n] := NSymlink oldname]> fs).
Proof.
  intros Hv Hd Hn Ho. unfold os.Symlink. rewrite resolve_parent_abs_path by done.
  rewrite Forall_app, Forall_singleton in Hv. destruct Hv as [_ Hvn].
  apply valid_name_spec in Hvn as (_ & ? & ? & _).
  rewrite bool_decide_false by (intros [?|?]; done).
  rewrite bool_decide_false by done. by rewrite Hn.
Qed.
(** ** ExtractArchive plants a tree *)

Lemma FileMode_small (m : Z) : 0 ≤ m < 2 ^ 32 → FileMode m = m.
Proof. intros Hm. unfold FileMode. by apply Z.mod_small. Qed.

Lemma fs_update_Ok (f : gmap (list string) node → list string
                        → result (gmap (list string) node))
    (w : World) (fs' : gmap (list string) node) :
  f (w_fs w) (w_cwd w) = Ok fs' → fs_update f w = (Ok tt, set_fs fs' w).
Proof. intros Hf. unfold fs_update. by rewrite Hf. Qed.

Lemma w_cwd_set_fs (fs : gmap (list string) node) (w : World) : w_cwd (set_fs fs w) = w_cwd w.
Proof. by destruct w. Qed.

Lemma ExtractArchive_entry_tree (dest rel d : list string) (b n : string)
    (q : list string) (t : tree) (w : World) :
  tree_root_ok t →
  rel = b :: q → strings.HasPrefix b ".." = false →
  dest ++ rel = d ++ [n] →
  Forall (λ n, valid_name n = true) (d ++ [n]) →
  real_dir (w_fs w) [] d →
  w_fs w !! (d ++ [n]) = None →
  ExtractArchive_entry (abs_path dest) (te_header (tree_entry rel t))
    (te_body (tree_entry rel t)) None w
  = (Ok tt, set_fs (<[d ++ [n] := node_of t]> (w_fs w)) w).
Proof.
  intros Hroot -> Hb Heq Hv Hd Hn.
  assert (Hvall : Forall (λ n, valid_name n = true) (dest ++ b :: q)) by (by rewrite Heq).
  pose proof Hvall as Hv'. rewrite Forall_app in Hv'. destruct Hv' as [Hvdest Hvrel].
  pose proof Hvrel as Hvb. apply Forall_cons in Hvb as [Hvb _].
  assert (Hbne : b ≠ "") by (by apply valid_name_spec in Hvb as (? & _)).
  assert (Hname : Name (te_header (tree_entry (b :: q) t)) = rel_path (b :: q))
    by (by destruct t).
  unfold ExtractArchive_entry. rewrite Hname.
  rewrite Clean_rel_path, HasPrefix_rel_path, Hb, IsAbs_rel_path by done.
  simpl orb. cbv iota.
  rewrite Join_abs_rel, Heq by done.
  rewrite Dir_abs_path by done.
  pose proof Hv as Hvd. rewrite Forall_app in Hvd. destruct Hvd as [Hvd _].
  destruct t as [m data|m es|tg]; simpl in Hroot |- *.
  - unfold bind at 1.
    rewrite (fs_update_Ok _ w (w_fs w)) by (by apply MkdirAll_abs_dir).
    rewrite set_fs_id. unfold bind at 1. unfold wrap at 1.
    rewrite OpenFile_abs_new, FileMode_small by done.
    unfold wrap, bind, fs_update, os.Write, ret.
    rewrite !w_fs_set_fs, lookup_insert_eq. simpl.
    by rewrite insert_insert_eq, set_fs_set_fs.
  - unfold wrap. rewrite (fs_update_Ok _ w (<[d ++ [n] := NDir m]> (w_fs w))); [done|].
    rewrite FileMode_small by done. by apply MkdirAll_abs_new.
  - unfold bind at 1.
    rewrite (fs_update_Ok _ w (w_fs w)) by (by apply MkdirAll_abs_dir).
    rewrite set_fs_id. unfold bind at 1.
    destruct (Remove_abs_missing (w_fs w) (w_cwd w) d n Hv Hd Hn) as [e He].
    unfold fs_update at 1. rewrite He.
    unfold wrap. rewrite (fs_update_Ok _ w (<[d ++ [n] := NSymlink tg]> (w_fs w))); [done|].
    by apply Symlink_abs_new.
Qed.
Lemma wf_tree_root_ok (t : tree) : wf_tree t → tree_root_ok t.
Proof. destruct t; simpl; tauto. Qed.

Lemma prefix_snoc_not (p : list string) (n : string) : ¬ (p ++ [n]) `prefix_of` p.
Proof. intros H%prefix_length. rewrite length_app in H. simpl in H. lia. Qed.

Lemma prefix_siblings (p k : list string) (n n' : string) :
  (p ++ [n]) `prefix_of` k → (p ++ [n']) `prefix_of` k → n = n'.
Proof.
  intros [x ->] [y Hy]. rewrite <- !app_assoc in Hy.
  apply app_inv_head in Hy. by injection Hy.
Qed.

Lemma plant_other (t : tree) :
  ∀ (p k : list string) (fs : gmap (list string) node),
    ¬ p `prefix_of` k → plant t p fs !! k = fs !! k.
Proof.
  induction t as [m data|tg|m es IH] using tree_ind'; intros p k fs Hk.
  - simpl. apply lookup_insert_ne. by intros ->.
  - simpl. apply lookup_insert_ne. by intros ->.
  - rewrite plant_Dir.
    assert (Hr : <[p := NDir m]> fs !! k = fs !! k)
      by (apply lookup_insert_ne; by intros ->).
    rewrite <- Hr. generalize (<[p := NDir m]> fs). clear Hr.
    induction es as [|[n c] es IHes]; intros fs'; [done|].
    apply Forall_cons in IH as [IHc IH]. simpl.
    rewrite IHes by done. apply IHc.
    intros Hp. apply Hk. by eapply prefix_app_l.
Qed.

Lemma plant_root (t : tree) (p : list string) (fs : gmap (list string) node) :
  plant t p fs !! p = Some (node_of t).
Proof.
  destruct t as [m data|m es|tg]; simpl; try apply lookup_insert_eq.
  change (plant (Dir m es) p fs !! p = Some (NDir m)). rewrite plant_Dir.
  assert (Hr : <[p := NDir m]> fs !! p = Some (NDir m)) by apply lookup_insert_eq.
  revert Hr. generalize (<[p := NDir m]> fs).
  induction es as [|[n c] es IHes]; intros fs' Hr; [done|].
  simpl. apply IHes. rewrite plant_other; [done | apply prefix_snoc_not].
Qed.

Lemma real_dir_ext (fs fs' : gmap (list string) node) (o k : list string) :
  (∀ i : nat, (i ≤ length k)%nat → fs' !! (o ++ take i k) = fs !! (o ++ take i k)) →
  real_dir fs o k → real_dir fs' o k.
Proof. intros He Hk i Hi. destruct (Hk i Hi) as [m Hm]. exists m. by rewrite He. Qed.

Lemma tar_prepend_app (l1 l2 : list tar_entry) (s : tar_stream) :
  tar_prepend (l1 ++ l2) s = tar_prepend l1 (tar_prepend l2 s).
Proof. induction l1 as [|e l1 IH]; [done|]. simpl. by rewrite IH. Qed.

Section extract.
Context (dest : list string) (b : string) (Hb : strings.HasPrefix b ".." = false).

Lemma extract_tree (t : tree) :
  ∀ (q d : list string) (n : string) (s : tar_stream) (w : World),
    wf_tree t →
    dest ++ b :: q = d ++ [n] →
    Forall (λ n, valid_name n = true) (d ++ [n]) →
    real_dir (w_fs w) [] d →
    (∀ k, (d ++ [n]) `prefix_of` k → w_fs w !! k = None) →
    ExtractArchive_loop (abs_path dest) (tar_prepend (flatten (b :: q) t) s) w
    = ExtractArchive_loop (abs_path dest) s (set_fs (plant t (d ++ [n]) (w_fs w)) w).
Proof.
  induction t as [m data|tg|m es IH] using tree_ind';
    intros q d n s w Hwf Heq Hv Hd Hnone;
    assert (Hn0 : w_fs w !! (d ++ [n]) = None) by (by apply Hnone);
    pose proof (wf_tree_root_ok _ Hwf) as Hroot.
  - change (flatten (b :: q) (File m data)) with [tree_entry (b :: q) (File m data)].
    change (tar_prepend [?e] s) with (TarNext (te_header e) (te_body e) None s).
    rewrite ExtractArchive_loop_next. unfold bind.
    by rewrite (ExtractArchive_entry_tree dest (b :: q) d b n q _ w Hroot eq_refl Hb Heq Hv Hd Hn0).
  - change (flatten (b :: q) (Symlink tg)) with [tree_entry (b :: q) (Symlink tg)].
    change (tar_prepend [?e] s) with (TarNext (te_header e) (te_body e) None s).
    rewrite ExtractArchive_loop_next. unfold bind.
    by rewrite (ExtractArchive_entry_tree dest (b :: q) d b n q _ w Hroot eq_refl Hb Heq Hv Hd Hn0).
  - rewrite flatten_Dir, plant_Dir.
    change (tar_prepend (?e :: ?l) s)
      with (TarNext (te_header e) (te_body e) None (tar_prepend l s)).
    rewrite ExtractArchive_loop_next. unfold bind.
    rewrite (ExtractArchive_entry_tree dest (b :: q) d b n q _ w Hroot eq_refl Hb Heq Hv Hd Hn0) by done.
    change (node_of (Dir m es)) with (NDir m).
    apply wf_tree_Dir in Hwf as (_ & _ & Hnd & Hwfes).
    assert (Hd1 : real_dir (<[d ++ [n] := NDir m]> (w_fs w)) [] (d ++ [n])).
    { apply real_dir_snoc.
      - eapply real_dir_ext; [|exact Hd]. intros i Hi. apply lookup_insert_ne.
        simpl. intros He. apply (f_equal length) in He.
        rewrite length_app, length_take in He. simpl in He. lia.
      - exists m. simpl. apply lookup_insert_eq. }
    assert (Hnone1 : ∀ nc k, nc ∈ es → ((d ++ [n]) ++ [nc.1]) `prefix_of` k →
                             <[d ++ [n] := NDir m]> (w_fs w) !! k = None).
    { intros nc k _ Hk. rewrite lookup_insert_ne.
      - apply Hnone. by eapply prefix_app_l.
      - intros <-. by apply prefix_snoc_not in Hk. }
    revert Hd1 Hnone1. generalize (<[d ++ [n] := NDir m]> (w_fs w)) as fs1.
    induction es as [|[n' c] es IHes]; intros fs1 Hd1 Hnone1; [done|].
    apply Forall_cons in IH as [IHc IH]. apply Forall_cons in Hwfes as [[Hn' Hwfc] Hwfes].
    simpl in Hnd. apply NoDup_cons in Hnd as [Hn'es Hnd].
    simpl in IHc, Hn', Hwfc. simpl mbind. simpl foldl.
    rewrite tar_prepend_app.
    change (b :: q ++ [n']) with (b :: (q ++ [n'])).
    rewrite (IHc (q ++ [n']) (d ++ [n]) n' _ (set_fs fs1 w)); try done.
    + rewrite w_fs_set_fs, set_fs_set_fs.
      apply IHes; try done.
      * eapply real_dir_ext; [|exact Hd1]. intros i Hi. simpl.
        apply plant_other. intros Hp%prefix_length.
        rewrite length_take in Hp. rewrite !length_app in Hp. simpl in Hp. lia.
      * intros nc k Hnc Hk. rewrite plant_other.
        -- apply (Hnone1 nc); [by apply elem_of_cons; right | done].
        -- intros Hk'. pose proof (prefix_siblings _ _ _ _ Hk Hk') as Hsame.
           apply Hn'es. rewrite <- Hsame. apply list_elem_of_fmap. by exists nc.
    + rewrite app_comm_cons, app_assoc, Heq. done.
    + rewrite Forall_app, Forall_singleton. done.
    + rewrite w_fs_set_fs. intros k Hk.
      apply (Hnone1 (n', c)); [apply list_elem_of_here | done].
Qed.

End extract.
(** ** What was planted holds *)

Lemma holds_ext (t : tree) :
  ∀ (p : list string) (fs fs' : gmap (list string) node),
    (∀ k, p `prefix_of` k → fs' !! k = fs !! k) → holds fs p t → holds fs' p t.
Proof.
  induction t as [m data|tg|m es IH] using tree_ind'; intros p fs fs' He.
  - simpl. by rewrite He.
  - simpl. by rewrite He.
  - rewrite !holds_Dir. intros (Hp & Hn & Hes). split; [by rewrite He|]. split.
    + intros n. rewrite He by (by apply prefix_app_r). apply Hn.
    + rewrite Forall_forall in IH, Hes. apply Forall_forall. intros nc Hin.
      eapply IH; [done| |by apply Hes].
      intros k Hk. apply He. by eapply prefix_app_l.
Qed.

Lemma plant_children_other (p k : list string) (es : list (string * tree))
    (fs : gmap (list string) node) :
  (∀ nc, nc ∈ es → ¬ (p ++ [nc.1]) `prefix_of` k) →
  foldl (λ fs nc, plant nc.2 (p ++ [nc.1]) fs) fs es !! k = fs !! k.
Proof.
  revert fs. induction es as [|nc es IH]; intros fs Hk; [done|].
  simpl. rewrite IH.
  - apply plant_other, Hk, list_elem_of_here.
  - intros nc' Hin. apply Hk. by apply list_elem_of_further.
Qed.

Lemma holds_plant (t : tree) :
  ∀ (p : list string) (fs : gmap (list string) node),
    wf_tree t → (∀ k, p `prefix_of` k → fs !! k = None) → holds (plant t p fs) p t.
Proof.
  induction t as [m data|tg|m es IH] using tree_ind'; intros p fs Hwf Hnone.
  - simpl. apply lookup_insert_eq.
  - simpl. apply lookup_insert_eq.
  - apply holds_Dir. split; [apply (plant_root (Dir m es))|].
    rewrite plant_Dir. apply wf_tree_Dir in Hwf as (_ & _ & Hnd & Hwfes).
    assert (Hnone1 : ∀ k, p `prefix_of` k → k ≠ p → <[p := NDir m]> fs !! k = None).
    { intros k Hk Hne. rewrite lookup_insert_ne by done. by apply Hnone. }
    split.
    + intros n Hsome. destruct (decide (n ∈ es.*1)) as [|Hnot]; [done|].
      exfalso. rewrite plant_children_other in Hsome.
      * rewrite Hnone1 in Hsome; [by destruct Hsome | by apply prefix_app_r |].
        intros He. apply (f_equal length) in He. rewrite length_app in He. simpl in He. lia.
      * intros nc Hin Hp. apply Hnot. apply list_elem_of_fmap. exists nc. split; [|done].
        destruct Hp as [x Hx]. rewrite <- app_assoc in Hx. apply app_inv_head in Hx.
        by injection Hx.
    + assert (Hnone2 : ∀ nc k, nc ∈ es → (p ++ [nc.1]) `prefix_of` k →
                               <[p := NDir m]> fs !! k = None).
      { intros nc k _ Hk. apply Hnone1; [by eapply prefix_app_l|].
        intros ->. by apply prefix_snoc_not in Hk. }
      revert Hnone2. generalize (<[p := NDir m]> fs) as fs1. clear Hnone Hnone1.
      induction es as [|[n c] es IHes]; intros fs1 Hnone2; [constructor|].
      apply Forall_cons in IH as [IHc IH]. apply Forall_cons in Hwfes as [[Hn Hwfc] Hwfes].
      simpl in Hnd. apply NoDup_cons in Hnd as [Hnes Hnd]. simpl in IHc, Hn, Hwfc.
      simpl foldl. constructor.
      * simpl. eapply holds_ext.
        2: { apply IHc; [done|]. intros k Hk.
             apply (Hnone2 (n, c)); [apply list_elem_of_here | done]. }
        intros k Hk. apply plant_children_other. intros nc Hin Hk'.
        apply Hnes. rewrite (prefix_siblings _ _ _ _ Hk Hk').
        apply list_elem_of_fmap. by exists nc.
      * apply IHes; try done. intros nc k Hin Hk.
        rewrite plant_other.
        -- apply (Hnone2 nc); [by apply list_elem_of_further | done].
        -- intros Hk'. apply Hnes. rewrite (prefix_siblings _ _ _ _ Hk' Hk).
           apply list_elem_of_fmap. by exists nc.
Qed.
(** ** The round trip *)

Lemma lookup_snoc_length {A} (l : list A) (x : A) : (l ++ [x]) !! length l = Some x.
Proof. by apply list_lookup_middle. Qed.

Lemma Data_at (s : nat) (d : option nat) (w : World) :
  w_secure w !! s = Some d → Data s w = (Ok d, w).
Proof. intros Hs. unfold Data. by rewrite Hs. Qed.

Lemma zero_at (l : nat) (b : list byte) (w : World) :
  w_heap w !! l = Some b →
  zero (Some l) w = (Ok tt, set_heap (<[l := replicate (length b) x00]> (w_heap w)) w).
Proof. intros Hl. unfold zero. by rewrite Hl, zero_loop_zeros. Qed.

Lemma ExtractArchive_flatten `{L : Library} `{!LibraryOk L} (dest : list string)
    (base : string) (t : tree) (w : World) :
  wf_tree t →
  strings.HasPrefix base ".." = false →
  Forall (λ n, valid_name n = true) (dest ++ [base]) →
  real_dir (w_fs w) [] dest →
  (∀ k, (dest ++ [base]) `prefix_of` k → w_fs w !! k = None) →
  ExtractArchive (targz_bytes (flatten [base] t)) (abs_path dest) w
  = (Ok tt, set_fs (plant t (dest ++ [base]) (w_fs w)) w).
Proof.
  intros Hwf Hb Hv Hd Hnone. unfold ExtractArchive.
  rewrite targz_read_bytes.
  2: { apply Forall_flatten_ok; [done|]. rewrite Forall_app in Hv. tauto. }
  replace (stream_of (flatten [base] t)) with (tar_prepend (flatten [base] t) TarEOF).
  2: { induction (flatten [base] t) as [|e l IH]; [done|]. simpl. by rewrite IH. }
  by rewrite (extract_tree dest base Hb t [] dest base TarEOF w).
Qed.

Ltac wsimpl :=
  cbn [w_fs w_cwd w_heap w_secure w_tty w_rand w_out
       set_fs set_heap set_secure set_tty set_rand set_out bytes_at default].
Ltac wsimpl_in_all :=
  cbn [w_fs w_cwd w_heap w_secure w_tty w_rand w_out
       set_fs set_heap set_secure set_tty set_rand set_out bytes_at default] in *.

Section cycle.
Context `{L : Library} `{!LibraryOk L}.

(** Up to the extraction, the cycle on a tree leaves the file system
    and the working directory alone and hands [ExtractArchive] the
    archive of the tree. *)
Lemma FullEncryptDecryptCycle_tree (rooted : bool) (parent : list string)
    (base : string) (extractDir : string) (t : tree)
    (password salt nonce : list byte) (w : World) :
  wf_tree t →
  Forall (λ n, valid_name n = true) (parent ++ [base]) →
  len nonce = 12 →
  real_dir (w_fs w) (origin rooted (w_cwd w)) parent →
  holds (w_fs w) (origin rooted (w_cwd w) ++ parent ++ [base]) t →
  ∃ w1,
    w_fs w1 = w_fs w ∧ w_cwd w1 = w_cwd w
    ∧ FullEncryptDecryptCycle (path_string rooted (parent ++ [base])) extractDir
        password salt nonce w
      = ExtractArchive (targz_bytes (flatten [base] t)) extractDir w1.
Proof.
  intros Hwf Hsrc Hnonce Hparent Hholds.
  destruct (ArchiveDirectory_tree rooted parent base t w Hwf Hsrc Hparent Hholds)
    as [out Harch].
  set (blob := targz_bytes (flatten [base] t)) in *.
  set (key := argon2_IDKey password salt argonTime argonMemory argonThreads KeySize).
  assert (Hkey : len key = 16 ∨ len key = 24 ∨ len key = 32).
  { right; right. by apply argon2_IDKey_length. }
  destruct w as [fs cwd heap secure tty rand out0].
  wsimpl_in_all.
  assert (Hl0 : ((heap ++ [blob]) ++ [key]) !! length heap = Some blob).
  { rewrite lookup_app_l by (rewrite length_app; simpl; lia).
    apply lookup_snoc_length. }
  eexists. split; [|split]; [| |
    unfold FullEncryptDecryptCycle;
    erewrite bind_Ok by exact Harch;
    erewrite bind_Ok by apply DeriveKey_run; wsimpl; fold key;
    erewrite bind_Ok by reflexivity;
    erewrite bind_Ok by (apply Data_at; apply lookup_snoc_length);
    erewrite bind_Ok by reflexivity; wsimpl;
    rewrite Hl0, lookup_snoc_length; wsimpl;
    erewrite bind_Ok by (unfold lift; by rewrite EncryptData_valid);
    erewrite bind_Ok by
      (apply (Wipe_held _ _ (length (heap ++ [blob])) key); apply lookup_snoc_length);
    wsimpl;
    erewrite bind_Ok by
      (apply (zero_at _ blob); wsimpl;
       rewrite list_lookup_insert_ne by (rewrite length_app; simpl; lia);
       exact Hl0);
    wsimpl;
    erewrite bind_Ok by apply DeriveKey_run; wsimpl; fold key;
    erewrite bind_Ok by (apply Data_at; apply lookup_snoc_length);
    erewrite bind_Ok by reflexivity; wsimpl;
    rewrite lookup_snoc_length; wsimpl;
    erewrite bind_Ok by
      (unfold lift; rewrite DecryptData_valid by done; by rewrite gcm_Open_Seal);
    erewrite bind_Ok by (eapply (Wipe_held _ _ _ key); apply lookup_snoc_length);
    wsimpl; reflexivity ]; reflexivity.
Qed.

End cycle.

(** C1, as amended.  For every directory tree whose root name does
    not begin with "..", named by a cleaned absolute or relative path
    that ends in the root name: archiving it, encrypting the archive
    under the key derived from a password and a salt and under a 12-byte
    nonce, decrypting with the key derived again, and extracting into an
    existing directory that has nothing under the root name, succeeds;
    afterwards the destination holds, under the root name, exactly the
    names of the tree with the file contents and link targets of the
    tree, and every path outside is as it was.  The libraries are any
    that meet their contract; file-system calls fail only for the
    reasons the model of the file system gives (permissions are not
    enforced). *)
Theorem roundtrip_reproduces_tree `{L : Library} `{!LibraryOk L}
    (rooted : bool) (parent : list string) (base : string) (dest : list string)
    (t : tree) (password salt nonce : list byte) (w : World) :
  wf_tree t →
  Forall (λ n, valid_name n = true) (parent ++ [base]) →
  Forall (λ n, valid_name n = true) dest →
  strings.HasPrefix base ".." = false →
  len nonce = 12 →
  real_dir (w_fs w) (origin rooted (w_cwd w)) parent →
  holds (w_fs w) (origin rooted (w_cwd w) ++ parent ++ [base]) t →
  real_dir (w_fs w) [] dest →
  (∀ k, (dest ++ [base]) `prefix_of` k → w_fs w !! k = None) →
  ∃ w',
    FullEncryptDecryptCycle (path_string rooted (parent ++ [base])) (abs_path dest)
      password salt nonce w = (Ok tt, w')
    ∧ reproduces (w_fs w') (dest ++ [base]) t
    ∧ (∀ k, ¬ (dest ++ [base]) `prefix_of` k → w_fs w' !! k = w_fs w !! k).
Proof.
  intros Hwf Hsrc Hdest Hb Hnonce Hparent Hholds Hd Hnone.
  assert (Hdb : Forall (λ n, valid_name n = true) (dest ++ [base])).
  { rewrite Forall_app, Forall_singleton in *. tauto. }
  destruct (FullEncryptDecryptCycle_tree rooted parent base (abs_path dest) t
              password salt nonce w Hwf Hsrc Hnonce Hparent Hholds)
    as (w1 & Hfs & Hcwd & ->).
  rewrite <- Hfs in Hd, Hnone.
  rewrite ExtractArchive_flatten by done.
  eexists. split; [done|]. rewrite w_fs_set_fs, Hfs. split.
  - apply holds_reproduces. apply holds_plant; [done|]. by rewrite <- Hfs.
  - intros k Hk. by apply plant_other.
Qed.

(** ** The example trees *)

Ltac all_but_last k :=
  lazymatch k with
  | [_] => constr:(@nil string)
  | ?x :: ?r => let r' := all_but_last r in constr:(x :: r')
  end.

Ltac names_of_dir :=
  let n := fresh "n" in let Hn := fresh "Hn" in
  intros n Hn;
  lazymatch type of Hn with
  | is_Some (?fs !! ?k) =>
      let dir := all_but_last k in
      apply (proj2 (elem_of_children fs dir n)) in Hn
  end;
  lazymatch type of Hn with
  | _ ∈ ?c => let c' := eval vm_compute in c in change c with c' in Hn
  end;
  set_solver.

Ltac nothing_below :=
  let k := fresh "k" in let Hk := fresh "Hk" in let nd := fresh "nd" in
  let E := fresh "E" in
  intros k Hk;
  match goal with
  | |- ?fs !! k = None =>
      destruct (fs !! k) as [nd|] eqn:E; [exfalso|reflexivity];
      apply elem_of_map_to_list in E;
      match type of E with
      | _ ∈ ?l => let l' := eval vm_compute in l in change l with l' in E
      end
  end;
  repeat (apply elem_of_cons in E as [E|E];
          [injection E as -> _; destruct Hk as [? Hk]; discriminate Hk|]);
  by apply elem_of_nil in E.

Ltac sorted_names := repeat constructor; by vm_compute.
Ltac distinct_names := apply (bool_decide_unpack (NoDup _)); by vm_compute.
Ltac no_nul :=
  unfold nul_free; simpl; rewrite !not_elem_of_cons;
  repeat split; (done || apply not_elem_of_nil).

Lemma example_tree_wf : wf_tree example_tree.
Proof.
  simpl.
  repeat split; try (lia || done || sorted_names || distinct_names || no_nul).
Qed.

Lemma example_fs_docs : holds example_fs ["home"; "u"; "docs"] example_tree.
Proof.
  simpl. repeat split; try by vm_compute.
  all: names_of_dir.
Qed.

Lemma example_fs_out : ∀ k, ["out"; "docs"] `prefix_of` k → example_fs !! k = None.
Proof. nothing_below. Qed.

Lemma roundtrip_reproduces_tree_witness :
  ∃ w',
    FullEncryptDecryptCycle (H := toy.library) "docs" "/out"
      (bytes_of_string "pw123!") (replicate 32 x07) (replicate 12 x07) example_world
    = (Ok tt, w')
    ∧ reproduces (w_fs w') ["out"; "docs"] example_tree
    ∧ (∀ k, ¬ ["out"; "docs"] `prefix_of` k → w_fs w' !! k = example_fs !! k).
Proof.
  apply (roundtrip_reproduces_tree (L := toy.library) (LibraryOk0 := toy_library_ok)
           false [] "docs" ["out"] example_tree
           (bytes_of_string "pw123!") (replicate 32 x07) (replicate 12 x07)
           example_world).
  - exact example_tree_wf.
  - by repeat constructor.
  - by repeat constructor.
  - reflexivity.
  - reflexivity.
  - apply real_dir_nil. by exists 493.
  - exact example_fs_docs.
  - intros i Hi. destruct i as [|[|i]]; [by exists 493|by exists 493|simpl in Hi; lia].
  - exact example_fs_out.
Defined.

Lemma dotdot_tree_wf : wf_tree dotdot_tree.
Proof.
  simpl.
  repeat split; try (lia || done || sorted_names || distinct_names || no_nul).
Qed.

Lemma dotdot_fs_data : holds dotdot_fs ["src"; "..data"] dotdot_tree.
Proof.
  simpl. repeat split; try by vm_compute.
  all: names_of_dir.
Qed.

(** The round trip fails on the tree at [/src/..data]: it is rejected
    when it is extracted, and the destination holds nothing of it. *)
Lemma roundtrip_fails_on_dotdot_name :
  let r := FullEncryptDecryptCycle (H := toy.library) "/src/..data" "/out"
             (bytes_of_string "pw") (replicate 32 x01) (replicate 12 x02)
             dotdot_world in
  wf_tree dotdot_tree
  ∧ holds (w_fs dotdot_world) ["src"; "..data"] dotdot_tree
  ∧ r.1 = Err "invalid path in archive: ..data"
  ∧ w_fs r.2 !! ["out"; "..data"] = None
  ∧ ¬ reproduces (w_fs r.2) ["out"; "..data"] dotdot_tree.
Proof.
  intros r.
  assert (Hnone : w_fs r.2 !! ["out"; "..data"] = None) by (vm_compute; reflexivity).
  split; [exact dotdot_tree_wf|]. split; [exact dotdot_fs_data|].
  split; [vm_compute; reflexivity|]. split; [exact Hnone|].
  intros [[m Hm] _]. by rewrite Hnone in Hm.
Qed.

Lemma flatten_head (rel : list string) (t : tree) :
  ∃ es, flatten rel t = tree_entry rel t :: es.
Proof. destruct t; simpl; eauto. Qed.

Lemma Name_tree_entry (rel : list string) (t : tree) :
  Name (te_header (tree_entry rel t)) = rel_path rel.
Proof. by destruct t. Qed.

Lemma first_elem_rel_path (n : string) (q : list string) :
  Forall (λ n, valid_name n = true) (n :: q) → first_elem (rel_path (n :: q)) = n.
Proof.
  intros Hv. unfold first_elem, rel_path.
  rewrite Split_Join by (done || by apply valid_names_no_sep). done.
Qed.

(** C10.  [ExtractArchive] refuses, with the error "invalid path in
    archive: <name>", every entry whose cleaned name begins with the two
    characters "..", whatever its first element is.  A name [n/q...] of
    file names whose first begins with ".." (and is not "..") is its own
    cleaned form, does not start with the parent-directory element, and
    is refused.  Hence a tree whose root directory has such a name is
    archived and encrypted but not extracted: the round trip ends in that
    error and the file system is as it was. *)
Theorem ExtractArchive_rejects_dotdot_names `{L : Library} `{!LibraryOk L} :
  (∀ (data : list byte) (destDir : string) (before : list tar_entry) (header : Header)
     (body : list byte) (body_err : option error) (rest : tar_stream) (w w1 : World),
     strings.HasPrefix (filepath.Clean (Name header)) ".." = true →
     targz_read data = Some (tar_prepend before (TarNext header body body_err rest)) →
     ExtractArchive_loop destDir (stream_of before) w = (Ok tt, w1) →
     ExtractArchive data destDir w
     = (Err ("invalid path in archive: " +:+ Name header), w1))
  ∧ (∀ (n : string) (q : list string),
       Forall (λ n, valid_name n = true) (n :: q) →
       strings.HasPrefix n ".." = true →
       filepath.Clean (rel_path (n :: q)) = rel_path (n :: q)
       ∧ first_elem (rel_path (n :: q)) = n ∧ n ≠ ".."
       ∧ ¬ escapes (filepath.Clean (rel_path (n :: q)))
       ∧ strings.HasPrefix (filepath.Clean (rel_path (n :: q))) ".." = true)
  ∧ (∀ (rooted : bool) (parent : list string) (base extractDir : string) (t : tree)
       (password salt nonce : list byte) (w : World),
       wf_tree t →
       Forall (λ n, valid_name n = true) (parent ++ [base]) →
       strings.HasPrefix base ".." = true →
       len nonce = 12 →
       real_dir (w_fs w) (origin rooted (w_cwd w)) parent →
       holds (w_fs w) (origin rooted (w_cwd w) ++ parent ++ [base]) t →
       ∃ w',
         FullEncryptDecryptCycle (path_string rooted (parent ++ [base])) extractDir
           password salt nonce w
         = (Err ("invalid path in archive: " +:+ base), w')
         ∧ w_fs w' = w_fs w).
Proof.
  assert (Hnames : ∀ (n : string) (q : list string),
    Forall (λ n, valid_name n = true) (n :: q) →
    strings.HasPrefix n ".." = true →
    filepath.Clean (rel_path (n :: q)) = rel_path (n :: q)
    ∧ first_elem (rel_path (n :: q)) = n ∧ n ≠ ".."
    ∧ ¬ escapes (filepath.Clean (rel_path (n :: q)))
    ∧ strings.HasPrefix (filepath.Clean (rel_path (n :: q))) ".." = true).
  { intros n q Hv Hn.
    pose proof Hv as Hv'. apply Forall_cons in Hv' as [Hvn _].
    apply valid_name_spec in Hvn as (Hne & _ & Hdd & _).
    rewrite Clean_rel_path by done. unfold escapes.
    rewrite first_elem_rel_path by done.
    by rewrite HasPrefix_rel_path. }
  split; [|split; [exact Hnames|]].
  - intros data destDir before header body body_err rest w w1 Hbad Hread Hbefore.
    unfold ExtractArchive. rewrite Hread, ExtractArchive_loop_prepend, Hbefore.
    apply ExtractArchive_loop_rejects. by left.
  - intros rooted parent base extractDir t password salt nonce w
      Hwf Hsrc Hb Hnonce Hparent Hholds.
    destruct (FullEncryptDecryptCycle_tree rooted parent base extractDir t
                password salt nonce w Hwf Hsrc Hnonce Hparent Hholds)
      as (w1 & Hfs & Hcwd & ->).
    assert (Hvb : Forall (λ n, valid_name n = true) [base]).
    { rewrite Forall_app in Hsrc. tauto. }
    exists w1. split; [|done]. unfold ExtractArchive.
    rewrite targz_read_bytes by (by apply Forall_flatten_ok).
    destruct (flatten_head [base] t) as [es ->].
    change (stream_of (tree_entry [base] t :: es))
      with (TarNext (te_header (tree_entry [base] t)) (te_body (tree_entry [base] t))
              None (stream_of es)).
    rewrite ExtractArchive_loop_rejects; rewrite Name_tree_entry; [done|].
    left. by apply (Hnames base []).
Qed.

Lemma ExtractArchive_rejects_dotdot_names_witness :
  let config := mkEntry (mkHeader "..config" "" TypeReg 420 1) [x58] in
  ExtractArchive (H := toy.library) (toy.archive_bytes [config]) "/out" dotdot_world
  = (Err "invalid path in archive: ..config", dotdot_world)
  ∧ first_elem (filepath.Clean "..config") = "..config"
  ∧ ∃ w',
      FullEncryptDecryptCycle (H := toy.library) "/src/..data" "/out"
        (bytes_of_string "pw") (replicate 32 x01) (replicate 12 x02) dotdot_world
      = (Err "invalid path in archive: ..data", w')
      ∧ w_fs w' = dotdot_fs.
Proof.
  intros config.
  destruct (ExtractArchive_rejects_dotdot_names (L := toy.library)
              (LibraryOk0 := toy_library_ok)) as (Hentry & Hnames & Htree).
  split; [|split].
  - apply (Hentry (toy.archive_bytes [config]) "/out" [] (te_header config)
             (te_body config) None TarEOF dotdot_world dotdot_world).
    + reflexivity.
    + apply (@targz_read_bytes toy.library toy_library_ok [config]).
      by repeat constructor.
    + reflexivity.
  - reflexivity.
  - apply (Htree true ["src"] "..data" "/out" dotdot_tree
             (bytes_of_string "pw") (replicate 32 x01) (replicate 12 x02) dotdot_world).
    + exact dotdot_tree_wf.
    + by repeat constructor.
    + reflexivity.
    + reflexivity.
    + intros i Hi.
      destruct i as [|[|i]]; [by exists 493|by exists 493|simpl in Hi; lia].
    + exact dotdot_fs_data.
Defined.

(** C7, the exit of [Decrypt] through a failed extraction.  The file
    [/in/evil.cloak] is a container for the password "pw" whose archive
    has the entry [../evil].  [Decrypt] returns the error of
    [ExtractArchive]; the deferred wipes have cleared the password and the
    key, the first two buffers, and the third, the decrypted archive, still
    holds every byte of the plaintext: the loop that clears it comes after
    the return. *)
Theorem Decrypt_failed_extraction_keeps_archive :
  let r := Decrypt (H := toy.library) "/in/evil.cloak" evil_world in
  r.1 = Err "failed to extract archive: invalid path in archive: ../evil"
  ∧ w_heap r.2 = [replicate 2 x00; replicate 32 x00; evil_archive]
  ∧ evil_archive ≠ replicate (length evil_archive) x00.
Proof.
  intros r. split; [|split].
  - vm_compute. reflexivity.
  - vm_compute. reflexivity.
  - apply (bool_decide_eq_false (evil_archive = _)). vm_compute. reflexivity.
Qed.

(** * Further properties of the package *)

(** ** EncryptData and DecryptData *)

(** [DecryptData] undoes [EncryptData] under the same key and nonce: a
    key of an AES length, a 12-byte nonce, a plaintext within the limit
    of GCM. *)
Theorem DecryptData_EncryptData `{L : Library} `{!LibraryOk L}
    (plaintext key nonce : list byte) :
  len key = 16 ∨ len key = 24 ∨ len key = 32 →
  len nonce = 12 →
  len plaintext ≤ (2 ^ 32 - 2) * 16 →
  ∃ ciphertext,
    EncryptData plaintext key nonce = Ok ciphertext
    ∧ DecryptData ciphertext key nonce = Ok plaintext.
Proof.
  intros Hkey Hnonce _. exists (gcm_Seal key nonce plaintext). split.
  - by apply EncryptData_valid.
  - rewrite DecryptData_valid by done. by rewrite gcm_Open_Seal.
Qed.

Lemma DecryptData_EncryptData_witness :
  ∃ ciphertext,
    EncryptData (H := toy.library) (bytes_of_string "attack at dawn")
      (replicate 32 x2a) (replicate 12 x07) = Ok ciphertext
    ∧ DecryptData (H := toy.library) ciphertext (replicate 32 x2a) (replicate 12 x07)
      = Ok (bytes_of_string "attack at dawn").
Proof.
  apply (DecryptData_EncryptData (L := toy.library) (LibraryOk0 := toy_library_ok)).
  - right; right. reflexivity.
  - reflexivity.
  - vm_compute. discriminate.
Defined.

(** A key that has none of the three AES lengths makes both functions
    return the error of [aes.NewCipher], wrapped, whatever the data and
    the nonce are: [DecryptData] then does not report a wrong password.
    With a key of an AES length, a nonce that has not 12 bytes makes
    both panic in the GCM call. *)
Theorem EncryptData_DecryptData_bad_sizes `{Library} (data key nonce : list byte) :
  (¬ (len key = 16 ∨ len key = 24 ∨ len key = 32) →
     EncryptData data key nonce
     = Err ("failed to create AES cipher: crypto/aes: invalid key size "
            +:+ pretty (len key))
     ∧ DecryptData data key nonce = EncryptData data key nonce)
  ∧ ((len key = 16 ∨ len key = 24 ∨ len key = 32) → len nonce ≠ 12 →
     EncryptData data key nonce
     = Panic "crypto/cipher: incorrect nonce length given to GCM"
     ∧ DecryptData data key nonce = EncryptData data key nonce).
Proof.
  split.
  - intros Hkey. unfold EncryptData, DecryptData, aes_NewCipher.
    by rewrite bool_decide_false.
  - intros Hkey Hnonce. unfold EncryptData, DecryptData.
    rewrite aes_NewCipher_ok by done. simpl.
    unfold gcm_NonceSize. by rewrite bool_decide_true.
Qed.

Lemma EncryptData_DecryptData_bad_sizes_witness :
  EncryptData (H := toy.library) [x01] (replicate 31 x2a) (replicate 12 x07)
  = Err "failed to create AES cipher: crypto/aes: invalid key size 31"
  ∧ DecryptData (H := toy.library) [x01] (replicate 32 x2a) (replicate 16 x07)
    = Panic "crypto/cipher: incorrect nonce length given to GCM".
Proof.
  destruct (EncryptData_DecryptData_bad_sizes (H := toy.library) [x01]
              (replicate 31 x2a) (replicate 12 x07)) as [H1 _].
  destruct (EncryptData_DecryptData_bad_sizes (H := toy.library) [x01]
              (replicate 32 x2a) (replicate 16 x07)) as [_ H2].
  split.
  - apply H1. vm_compute. intros [?|[?|?]]; discriminate.
  - destruct H2 as [H2 H3].
    + right; right. reflexivity.
    + vm_compute. discriminate.
    + by rewrite H3.
Defined.
(** ** ReadPasswordSecure *)

Lemma ReadPasswordSecure_line (prompt : string) (line : list byte)
    (rest : list (result (list byte))) (w : World) :
  w_tty w = Some (Ok line :: rest) → line ≠ [] →
  ReadPasswordSecure prompt w
  = (Ok (length (w_secure w)),
     set_secure (w_secure w ++ [Some (length (w_heap w))])
       (set_out (w_out w ++ [prompt; newline])
          (set_heap (w_heap w ++ [line]) (set_tty (Some rest) w)))).
Proof.
  destruct w as [fs cwd heap secure tty rand out]. wsimpl. intros -> Hne.
  unfold ReadPasswordSecure, bind, Print, IsTerminal, term_ReadPassword. wsimpl.
  rewrite bool_decide_true by done. simpl. unfold alloc, ret, bind. wsimpl.
  rewrite lookup_snoc_length. wsimpl.
  rewrite bool_decide_false by (destruct line; [done|]; unfold len; simpl; lia).
  unfold new_SecureBytes, set_secure, set_out, set_heap, set_tty. wsimpl.
  by rewrite <- app_assoc.
Qed.

(** Without a terminal nothing is read: the only effect is the prompt.
    A line that is read without error and is not empty is returned in a
    new [SecureBytes], byte for byte.  An empty line and a read error
    are refused, and no [SecureBytes] is made.  In no case is the file
    system or the random source touched. *)
Theorem ReadPasswordSecure_outcomes (prompt : string) (w : World) :
  (w_tty w = None →
     ReadPasswordSecure prompt w
     = (Err "password input requires a terminal (stdin must be a TTY)",
        set_out (w_out w ++ [prompt]) w))
  ∧ (∀ line rest, w_tty w = Some (Ok line :: rest) → line ≠ [] →
       ∃ w', ReadPasswordSecure prompt w = (Ok (length (w_secure w)), w')
         ∧ held w' (length (w_secure w)) = line
         ∧ w_secure w' = w_secure w ++ [Some (length (w_heap w))]
         ∧ w_heap w' = w_heap w ++ [line]
         ∧ w_tty w' = Some rest)
  ∧ (∀ rest, w_tty w = Some (Ok [] :: rest) →
       ∃ w', ReadPasswordSecure prompt w = (Err "password cannot be empty", w')
         ∧ w_secure w' = w_secure w ∧ w_tty w' = Some rest)
  ∧ (∀ e rest, w_tty w = Some (Err e :: rest) →
       ∃ w', ReadPasswordSecure prompt w = (Err ("failed to read password: " +:+ e), w')
         ∧ w_secure w' = w_secure w ∧ w_heap w' = w_heap w ∧ w_tty w' = Some rest)
  ∧ (∀ r w', ReadPasswordSecure prompt w = (r, w') →
       w_fs w' = w_fs w ∧ w_cwd w' = w_cwd w ∧ w_rand w' = w_rand w
       ∧ head (drop (length (w_out w)) (w_out w')) = Some prompt).
Proof.
  split; [|split; [|split; [|split]]].
  - destruct w as [fs cwd heap secure tty rand out]. wsimpl. intros ->.
    unfold ReadPasswordSecure, bind, Print, IsTerminal. wsimpl.
    by rewrite bool_decide_false by (intros Hn; by apply Hn).
  - intros line rest Htty Hne. eexists. split; [by apply ReadPasswordSecure_line|].
    unfold held. wsimpl. rewrite !lookup_snoc_length. simpl.
    by rewrite lookup_snoc_length.
  - destruct w as [fs cwd heap secure tty rand out]. wsimpl. intros rest ->.
    unfold ReadPasswordSecure, bind, Print, IsTerminal, term_ReadPassword. wsimpl.
    rewrite bool_decide_true by done. simpl. unfold alloc, ret, bind. wsimpl.
    rewrite lookup_snoc_length. wsimpl. rewrite bool_decide_true by done.
    by eexists.
  - destruct w as [fs cwd heap secure tty rand out]. wsimpl. intros e rest ->.
    unfold ReadPasswordSecure, bind, Print, IsTerminal, term_ReadPassword. wsimpl.
    rewrite bool_decide_true by done. simpl. by eexists.
  - destruct w as [fs cwd heap secure tty rand out]. intros r w'.
    unfold ReadPasswordSecure, bind, Print, IsTerminal, term_ReadPassword. wsimpl.
    destruct tty as [[|[line|e|m] rest]|]; wsimpl.
    + rewrite bool_decide_true by done. simpl. intros Heq; inversion Heq; subst; wsimpl.
      by rewrite <- ?app_assoc, drop_app_length.
    + rewrite bool_decide_true by done. simpl. unfold alloc, ret, bind. wsimpl.
      rewrite lookup_snoc_length. wsimpl. unfold new_SecureBytes.
      case_bool_decide; intros Heq; inversion Heq; subst; wsimpl;
        by rewrite <- ?app_assoc, drop_app_length.
    + rewrite bool_decide_true by done. simpl. intros Heq; inversion Heq; subst; wsimpl.
      by rewrite <- ?app_assoc, drop_app_length.
    + rewrite bool_decide_true by done. simpl. intros Heq; inversion Heq; subst; wsimpl.
      by rewrite <- ?app_assoc, drop_app_length.
    + rewrite bool_decide_false by (intros Hn; by apply Hn). simpl.
      intros Heq; inversion Heq; subst; wsimpl. by rewrite drop_app_length.
Qed.

Lemma ReadPasswordSecure_outcomes_witness :
  ReadPasswordSecure "Password: " dotdot_world
  = (Err "password input requires a terminal (stdin must be a TTY)",
     set_out ["Password: "] dotdot_world)
  ∧ ∃ w', ReadPasswordSecure "Password: " example_world = (Ok 0%nat, w')
      ∧ held w' 0 = bytes_of_string "pw123!"
      ∧ w_secure w' = [Some 0%nat]
      ∧ w_heap w' = [bytes_of_string "pw123!"]
      ∧ w_tty w' = Some [Ok (bytes_of_string "pw123!")].
Proof.
  split.
  - apply (proj1 (ReadPasswordSecure_outcomes "Password: " dotdot_world)).
    reflexivity.
  - apply (proj1 (proj2 (ReadPasswordSecure_outcomes "Password: " example_world))
             (bytes_of_string "pw123!") [Ok (bytes_of_string "pw123!")]).
    + reflexivity.
    + vm_compute. discriminate.
Defined.
(** ** Encrypt and Decrypt: the exits before any data is processed *)

Lemma Encrypt_validate_world (folderPath : string) (w : World) :
  (Encrypt_validate folderPath w).2 = w.
Proof.
  unfold Encrypt_validate, bind, wrap, fs_read, Abs, fail.
  destruct (os.Stat (w_fs w) (w_cwd w) folderPath) as [info|e|m]; [|done|done].
  destruct (IsDir info); [|done]. simpl.
  destruct (filepath.IsAbs folderPath); simpl;
    by destruct (os.Stat _ _ _).
Qed.

Lemma insert_snoc {A} (l : list A) (x y : A) : <[length l := y]> (l ++ [x]) = l ++ [y].
Proof. rewrite insert_app_r_alt by lia. by rewrite Nat.sub_diag. Qed.

Lemma Println_run (s : string) (w : World) :
  Println s w = (Ok tt, set_out (w_out w ++ [s +:+ newline]) w).
Proof. done. Qed.

Lemma len_replicate {A} (n : nat) (x : A) : len (replicate n x) = Z.of_nat n.
Proof. unfold len. by rewrite length_replicate. Qed.

(** Two passwords that differ end [Encrypt] with "passwords do not
    match" before anything is archived: the file system and the random
    source are as they were, and both passwords have been overwritten with
    zeros and released. *)
Theorem Encrypt_passwords_do_not_match `{Library} (folderPath outputPath : string)
    (p1 p2 : list byte) (rest : list (result (list byte))) (w : World) :
  (Encrypt_validate folderPath w).1 = Ok outputPath →
  w_tty w = Some (Ok p1 :: Ok p2 :: rest) →
  p1 ≠ [] → p2 ≠ [] → p1 ≠ p2 →
  ∃ w',
    Encrypt folderPath w = (Err "passwords do not match", w')
    ∧ w_fs w' = w_fs w ∧ w_rand w' = w_rand w ∧ w_tty w' = Some rest
    ∧ w_heap w' = w_heap w ++ [replicate (length p1) x00; replicate (length p2) x00]
    ∧ w_secure w' = w_secure w ++ [None; None].
Proof.
  intros Hv Htty H1 H2 Hne.
  assert (Hv' : Encrypt_validate folderPath w = (Ok outputPath, w)).
  { pose proof (Encrypt_validate_world folderPath w) as Hw.
    destruct (Encrypt_validate folderPath w) as [r w0]. simpl in *. by subst. }
  destruct w as [fs cwd heap secure tty rand out]. wsimpl_in_all. subst tty.
  unfold Encrypt. erewrite bind_Ok by exact Hv'.
  erewrite bind_Ok by (by eapply ReadPasswordSecure_line).
  unfold defer. wsimpl.
  erewrite bind_Ok by (by eapply ReadPasswordSecure_line). wsimpl.
  erewrite bind_Ok.
  2: { apply Data_at. wsimpl. rewrite lookup_app_l by (rewrite length_app; simpl; lia).
       apply lookup_snoc_length. }
  erewrite bind_Ok.
  2: { apply Data_at. wsimpl.
       replace (length secure + 1)%nat with (length (secure ++ [Some (length heap)]))
         by (rewrite length_app; simpl; lia).
       apply lookup_snoc_length. }
  unfold load at 1 2, bind at 1 2. wsimpl.
  rewrite lookup_app_l by (rewrite length_app; simpl; lia).
  rewrite lookup_snoc_length.
  replace (length heap + 1)%nat with (length (heap ++ [p1]))
    by (rewrite length_app; simpl; lia).
  rewrite lookup_snoc_length. wsimpl.
  unfold ConstantTimeCompare. rewrite (bool_decide_false (p1 = p2)) by done.
  rewrite bool_decide_true by done. unfold fail.
  erewrite (Wipe_held _ (length (secure ++ [Some (length heap)])) (length (heap ++ [p1])) p2).
  2: { wsimpl. apply lookup_snoc_length. }
  2: { wsimpl. apply lookup_snoc_length. }
  wsimpl.
  erewrite (Wipe_held _ (length secure) (length heap) p1).
  2: { wsimpl. rewrite list_lookup_insert_ne by (rewrite length_app; simpl; lia).
       rewrite lookup_app_l by (rewrite length_app; simpl; lia).
       apply lookup_snoc_length. }
  2: { wsimpl. rewrite list_lookup_insert_ne by (rewrite length_app; simpl; lia).
       rewrite lookup_app_l by (rewrite length_app; simpl; lia).
       apply lookup_snoc_length. }
  wsimpl. eexists. split; [reflexivity|]. wsimpl.
  split; [done|]. split; [done|]. split; [done|]. split.
  - rewrite insert_snoc, insert_app_l by (rewrite length_app; simpl; lia).
    by rewrite insert_snoc, <- app_assoc.
  - rewrite insert_snoc, insert_app_l by (rewrite length_app; simpl; lia).
    by rewrite insert_snoc, <- app_assoc.
Qed.
Lemma lookup_app_plus {A} (l k : list A) (i : nat) :
  (l ++ k) !! (length l + i)%nat = k !! i.
Proof. rewrite lookup_app_r by lia. f_equal. lia. Qed.

Lemma lookup_app_length {A} (l k : list A) : (l ++ k) !! length l = k !! 0%nat.
Proof. rewrite <- (Nat.add_0_r (length l)) at 1. apply lookup_app_plus. Qed.

Lemma insert_app_plus {A} (l k : list A) (i : nat) (x : A) :
  <[(length l + i)%nat := x]> (l ++ k) = l ++ <[i := x]> k.
Proof. rewrite insert_app_r_alt by lia. do 2 f_equal. lia. Qed.

Lemma insert_app_length {A} (l k : list A) (x : A) :
  <[length l := x]> (l ++ k) = l ++ <[0%nat := x]> k.
Proof. rewrite <- (Nat.add_0_r (length l)) at 1. apply insert_app_plus. Qed.

(** Lists that grow at the end, as the heap and the table of
    [SecureBytes] do: the appended part is kept as one list and the
    indices as offsets from the old length. *)
Ltac grown :=
  repeat first
    [ rewrite <- app_assoc
    | rewrite length_app
    | rewrite lookup_app_plus
    | rewrite lookup_app_length
    | rewrite insert_app_plus
    | rewrite insert_app_length
    | progress cbn [app length lookup list_lookup insert list_insert Nat.add default] ].

Lemma Decrypt_parse_nonce (data : list byte) (c : container) :
  Decrypt_parse data = Ok c → len (c_salt c) = 32 ∧ len (c_nonce c) = 12.
Proof.
  rewrite Decrypt_parse_unfold. repeat case_bool_decide; try done.
  intros [= <-]. simpl. unfold slice, len in *.
  rewrite !length_take, !length_drop. lia.
Qed.

(** ** Decrypt: a wrong password *)

(** When AES-GCM does not accept the ciphertext of a well-formed
    container under the key derived from the password typed (a wrong
    password, or a ciphertext that was changed), [Decrypt] returns the one
    generic error.  Nothing is extracted: the file system is as it was.
    The password and the key have been overwritten with zeros and
    released; no other buffer was made. *)
Theorem Decrypt_wrong_password `{L : Library} `{!LibraryOk L} (filePath : string)
    (info : FileInfo) (data : list byte) (c : container) (password : list byte)
    (rest : list (result (list byte))) (w : World) :
  os.Stat (w_fs w) (w_cwd w) filePath = Ok info → IsDir info = false →
  os.ReadFile (w_fs w) (w_cwd w) filePath = Ok data →
  Decrypt_parse data = Ok c →
  w_tty w = Some (Ok password :: rest) → password ≠ [] →
  gcm_Open (argon2_IDKey password (c_salt c) 3 (64 * 1024) 4 32)
    (c_nonce c) (c_ciphertext c) = None →
  ∃ w',
    Decrypt filePath w
    = (Err "decryption failed: invalid password or corrupted file", w')
    ∧ w_fs w' = w_fs w ∧ w_tty w' = Some rest
    ∧ w_heap w' = w_heap w ++ [replicate (length password) x00; replicate 32 x00]
    ∧ w_secure w' = w_secure w ++ [None; None].
Proof.
  intros Hstat Hdir Hread Hparse Htty Hne Hopen.
  destruct (Decrypt_parse_nonce data c Hparse) as [_ Hnonce].
  set (key := argon2_IDKey password (c_salt c) 3 (64 * 1024) 4 32) in *.
  assert (Hkey : len key = 32) by (by apply argon2_IDKey_length).
  destruct w as [fs cwd heap secure tty rand out]. wsimpl_in_all. subst tty.
  unfold Decrypt.
  erewrite bind_Ok by (unfold wrap, fs_read; wsimpl; by rewrite Hstat).
  rewrite Hdir.
  erewrite bind_Ok by (unfold wrap, fs_read; wsimpl; by rewrite Hread).
  erewrite bind_Ok by (unfold lift; by rewrite Hparse).
  erewrite bind_Ok by (by eapply ReadPasswordSecure_line).
  unfold defer. wsimpl. erewrite bind_Ok by apply Println_run. wsimpl.
  erewrite bind_Ok by (apply Data_at; wsimpl; apply lookup_snoc_length).
  erewrite bind_Ok by reflexivity. wsimpl. rewrite lookup_snoc_length. wsimpl. unfold id.
  erewrite bind_Ok by apply DeriveKey_run. wsimpl.
  change (argon2_IDKey password (c_salt c) argonTime argonMemory argonThreads KeySize)
    with key.
  unfold Decrypt_body. erewrite bind_Ok by apply Println_run. wsimpl.
  erewrite bind_Ok by (apply Data_at; wsimpl; apply lookup_snoc_length).
  erewrite bind_Ok by reflexivity. wsimpl. rewrite lookup_snoc_length. wsimpl. unfold id.
  erewrite bind_Err.
  2: { unfold lift. rewrite DecryptData_valid by (done || by right; right). by rewrite Hopen. }
  erewrite (Wipe_held _ _ _ key) by (wsimpl; apply lookup_snoc_length).
  wsimpl.
  erewrite (Wipe_held _ (length secure) (length heap) password).
  2: { wsimpl. grown. done. }
  2: { wsimpl. grown. done. }
  wsimpl. eexists. split; [reflexivity|]. wsimpl.
  split; [done|]. split; [done|].
  replace (length key) with 32%nat by (unfold len in Hkey; lia).
  split; by grown.
Qed.
Lemma Encrypt_passwords_do_not_match_witness :
  let w := set_tty (Some [Ok (bytes_of_string "pw123!"); Ok (bytes_of_string "pw124!")])
             example_world in
  ∃ w',
    Encrypt (H := toy.library) "docs" w = (Err "passwords do not match", w')
    ∧ w_fs w' = example_fs ∧ w_rand w' = replicate 44 x07 ∧ w_tty w' = Some []
    ∧ w_heap w' = [replicate 6 x00; replicate 6 x00]
    ∧ w_secure w' = [None; None].
Proof.
  intros w.
  apply (Encrypt_passwords_do_not_match (H := toy.library) "docs" "/home/u/docs.cloak"
           (bytes_of_string "pw123!") (bytes_of_string "pw124!") [] w).
  - vm_compute. reflexivity.
  - reflexivity.
  - vm_compute. discriminate.
  - vm_compute. discriminate.
  - vm_compute. discriminate.
Defined.

Lemma Decrypt_wrong_password_witness :
  let w := set_tty (Some [Ok (bytes_of_string "guess")]) evil_world in
  ∃ w',
    Decrypt (H := toy.library) "/in/evil.cloak" w
    = (Err "decryption failed: invalid password or corrupted file", w')
    ∧ w_fs w' = w_fs evil_world ∧ w_tty w' = Some []
    ∧ w_heap w' = [replicate 5 x00; replicate 32 x00]
    ∧ w_secure w' = [None; None].
Proof.
  intros w.
  apply (Decrypt_wrong_password (L := toy.library) (LibraryOk0 := toy_library_ok)
           "/in/evil.cloak" (info_of "evil.cloak" (NFile 420 evil_container))
           evil_container
           (Container evil_salt evil_nonce
              (toy.Seal (toy.IDKey (bytes_of_string "pw") evil_salt 3 65536 4 32)
                 evil_nonce evil_archive))
           (bytes_of_string "guess") [] w).
  - vm_compute. reflexivity.
  - reflexivity.
  - vm_compute. reflexivity.
  - vm_compute. reflexivity.
  - reflexivity.
  - vm_compute. discriminate.
  - vm_compute. reflexivity.
Defined.

(** ** Decrypt: the checks made before a password is asked for *)

(** A path that cannot be examined, a directory, a file that cannot be
    read, and a file that is not a well-formed container each end
    [Decrypt] at once: the error names the cause, no prompt is printed, no
    password is read, and the world is exactly as it was. *)
Theorem Decrypt_validates_before_password `{Library} (filePath : string) (w : World) :
  match os.Stat (w_fs w) (w_cwd w) filePath with
  | Err e => Decrypt filePath w = (Err ("cannot access file: " +:+ e), w)
  | Panic m => Decrypt filePath w = (Panic m, w)
  | Ok info =>
      if IsDir info
      then Decrypt filePath w = (Err "path is a directory, expected encrypted file", w)
      else
        match os.ReadFile (w_fs w) (w_cwd w) filePath with
        | Err e => Decrypt filePath w = (Err ("failed to read file: " +:+ e), w)
        | Panic m => Decrypt filePath w = (Panic m, w)
        | Ok data =>
            (len data < 59 →
               Decrypt filePath w
               = (Err "invalid file: too small to be a valid encrypted file", w))
            ∧ (59 ≤ len data → take 7 data ≠ bytes_of_string "CLOAK01" →
               Decrypt filePath w = (Err "invalid file: not a valid .cloak file", w))
            ∧ (∀ e, Decrypt_parse data = Err e → Decrypt filePath w = (Err e, w))
        end
  end.
Proof.
  unfold Decrypt.
  destruct (os.Stat (w_fs w) (w_cwd w) filePath) as [info|e|m] eqn:Hstat.
  - erewrite bind_Ok by (unfold wrap, fs_read; by rewrite Hstat).
    destruct (IsDir info); [done|].
    destruct (os.ReadFile (w_fs w) (w_cwd w) filePath) as [data|e|m] eqn:Hread.
    + erewrite bind_Ok by (unfold wrap, fs_read; by rewrite Hread).
      assert (Hparse : ∀ e, Decrypt_parse data = Err e →
                (let* c := lift (Decrypt_parse data) in
                 let* password := ReadPasswordSecure "Enter decryption password: " in
                 defer (Wipe password)
                   (Println "Deriving decryption key (this may take a moment)..." ;;;
                    let* password_Data := Data password in
                    let* password_bytes := load password_Data in
                    let* key := DeriveKey password_bytes (c_salt c) in
                    defer (Wipe key) (Decrypt_body filePath c key))) w = (Err e, w)).
      { intros e He. erewrite bind_Err; [done|]. unfold lift. by rewrite He. }
      split; [|split; [|exact Hparse]].
      * intros Hlen. apply Hparse. rewrite Decrypt_parse_unfold.
        by rewrite bool_decide_true.
      * intros Hlen Hmagic. apply Hparse. rewrite Decrypt_parse_unfold.
        rewrite bool_decide_false by lia. by rewrite bool_decide_true.
    + unfold bind, wrap, fs_read. by rewrite Hread.
    + unfold bind, wrap, fs_read. by rewrite Hread.
  - unfold bind, wrap, fs_read. by rewrite Hstat.
  - unfold bind, wrap, fs_read. by rewrite Hstat.
Qed.

Lemma Decrypt_validates_before_password_witness :
  Decrypt (H := toy.library) "docs.cloak" example_world
  = (Err "cannot access file: stat docs.cloak: no such file or directory", example_world)
  ∧ Decrypt (H := toy.library) "docs" example_world
    = (Err "path is a directory, expected encrypted file", example_world)
  ∧ Decrypt (H := toy.library) "docs/a.txt" example_world
    = (Err "invalid file: too small to be a valid encrypted file", example_world).
Proof.
  pose proof (Decrypt_validates_before_password (H := toy.library)
                "docs.cloak" example_world) as H1.
  pose proof (Decrypt_validates_before_password (H := toy.library)
                "docs" example_world) as H2.
  pose proof (Decrypt_validates_before_password (H := toy.library)
                "docs/a.txt" example_world) as H3.
  split; [exact H1|]. split; [exact H2|].
  apply (proj1 H3). vm_compute. reflexivity.
Defined.

(** ** Operations that only read *)

Lemma pure_read_ret {A} (a : A) : pure_read (ret a).
Proof. done. Qed.

Lemma pure_read_fail {A} (e : error) : pure_read (@fail A e).
Proof. done. Qed.

Lemma pure_read_lift {A} (r : result A) : pure_read (lift r).
Proof. done. Qed.

Lemma pure_read_fs_read {A} (f : gmap (list string) node → list string → result A) :
  pure_read (fs_read f).
Proof. done. Qed.

Lemma pure_read_bind {A B} (m : M A) (k : A → M B) :
  pure_read m → (∀ a, pure_read (k a)) → pure_read (bind m k).
Proof.
  intros Hm Hk w. unfold bind. specialize (Hm w).
  destruct (m w) as [[a|e|msg] w1]; simpl in Hm; subst w1; [apply Hk|done|done].
Qed.

Lemma pure_read_visit `{Library} (dirPath path : string) (info : option FileInfo)
    (err : option error) (tw : list tar_entry) :
  pure_read (ArchiveDirectory_visit dirPath path info err tw).
Proof.
  unfold ArchiveDirectory_visit.
  destruct err as [e|]; [apply pure_read_fail|].
  destruct info as [info|]; [|apply pure_read_lift].
  repeat (apply pure_read_bind; [try apply pure_read_lift|intros ?]).
  - destruct (IsSymlink info); [|apply pure_read_ret].
    apply pure_read_bind; [apply pure_read_fs_read|intros ?; apply pure_read_ret].
  - destruct (IsRegular info); [|apply pure_read_ret].
    apply pure_read_bind; [apply pure_read_fs_read|intros ?; apply pure_read_lift].
Qed.

Lemma pure_read_walk_names {St} (rec : string → FileInfo → @WalkFunc St → St → M St)
    (path : string) (walkFn : @WalkFunc St) (names : list string) (st : St) :
  (∀ p i st, pure_read (rec p i walkFn st)) →
  (∀ p i e st, pure_read (walkFn p i e st)) →
  pure_read (walk_names rec path walkFn names st).
Proof.
  intros Hrec Hfn. revert st. induction names as [|name names IH]; intros st w; [done|].
  rewrite walk_names_cons.
  destruct (os.Lstat (w_fs w) (w_cwd w) (filepath.Join [path; name])) as [fi|e|m];
    [| |done].
  - exact (pure_read_bind _ (λ st', walk_names rec path walkFn names st')
             (Hrec _ _ _) IH w).
  - exact (pure_read_bind _ (λ st', walk_names rec path walkFn names st')
             (Hfn _ _ _ _) IH w).
Qed.

Lemma pure_read_walk {St} (walkFn : @WalkFunc St) (fuel : nat) :
  (∀ p i e st, pure_read (walkFn p i e st)) →
  ∀ path info st, pure_read (walk fuel path info walkFn st).
Proof.
  intros Hfn. induction fuel as [|fuel IH]; intros path info st w.
  - simpl. destruct (IsDir info); simpl; [|apply Hfn].
    destruct (os.readDirNames (w_fs w) (w_cwd w) path) as [names|e|m]; [|apply Hfn|done].
    apply pure_read_bind; [apply Hfn|intros ?; apply pure_read_fail].
  - simpl. destruct (IsDir info); simpl; [|apply Hfn].
    destruct (os.readDirNames (w_fs w) (w_cwd w) path) as [names|e|m]; [|apply Hfn|done].
    apply pure_read_bind; [apply Hfn|intros st1].
    apply pure_read_walk_names; [intros; apply IH|done].
Qed.

Lemma pure_read_Walk {St} (root : string) (fn : @WalkFunc St) (st : St) :
  (∀ p i e st, pure_read (fn p i e st)) → pure_read (Walk root fn st).
Proof.
  intros Hfn w. unfold Walk.
  destruct (os.Lstat (w_fs w) (w_cwd w) root) as [info|e|m]; [|apply Hfn|done].
  by apply pure_read_walk.
Qed.

Lemma bind_pure_read {A B} (m : M A) (k : A → M B) (w : World) :
  pure_read m →
  bind m k w = match (m w).1 with
               | Ok a => k a w
               | Err e => (Err e, w)
               | Panic msg => (Panic msg, w)
               end.
Proof.
  intros Hm. unfold bind. specialize (Hm w).
  destruct (m w) as [[a|e|msg] w1]; simpl in *; by subst.
Qed.

(** What [ArchiveDirectory] leaves behind: on success one new buffer
    and one line of output, on failure nothing. *)
Lemma ArchiveDirectory_footprint `{Library} (dirPath : string) (w : World) :
  (∃ b line,
     ArchiveDirectory dirPath w
     = (Ok (Some (length (w_heap w))),
        set_out (w_out w ++ [line]) (set_heap (w_heap w ++ [b]) w)))
  ∨ (∃ r, ArchiveDirectory dirPath w = (r, w) ∧ is_Ok r = false).
Proof.
  unfold ArchiveDirectory.
  rewrite bind_pure_read by (apply pure_read_Walk, pure_read_visit).
  destruct (Walk dirPath (ArchiveDirectory_visit dirPath) [] w).1 as [tw|e|m];
    [|right; eexists; split; reflexivity|right; eexists; split; reflexivity].
  rewrite bind_pure_read by apply pure_read_lift.
  unfold lift. simpl.
  destruct (tar.Close tw) as [[]|e|m]; simpl;
    [|right; eexists; split; reflexivity|right; eexists; split; reflexivity].
  left. eexists _, _. unfold bind, alloc, load, Print, ret. wsimpl.
  rewrite lookup_snoc_length. reflexivity.
Qed.
(** ** ArchiveDirectory only reads *)

(** Whatever the path and the file system are, [ArchiveDirectory]
    changes no file, directory or link, reads no password and draws no
    random byte.  When it fails (the root cannot be examined, a directory
    or file cannot be read, an entry cannot be written) the whole world is
    as before: no buffer is left and nothing is printed.  When it succeeds
    it has made one buffer, the archive it returns, and printed one line. *)
Theorem ArchiveDirectory_only_reads `{Library} (dirPath : string) (w : World) :
  ∃ r w',
    ArchiveDirectory dirPath w = (r, w')
    ∧ w_fs w' = w_fs w ∧ w_cwd w' = w_cwd w ∧ w_secure w' = w_secure w
    ∧ w_tty w' = w_tty w ∧ w_rand w' = w_rand w
    ∧ (is_Ok r = false → w' = w)
    ∧ (is_Ok r = true →
         r = Ok (Some (length (w_heap w)))
         ∧ ∃ archive line, w_heap w' = w_heap w ++ [archive]
                           ∧ w_out w' = w_out w ++ [line])
    ∧ (∀ e, os.Lstat (w_fs w) (w_cwd w) dirPath = Err e → r = Err e).
Proof.
  assert (Hroot : ∀ e, os.Lstat (w_fs w) (w_cwd w) dirPath = Err e →
            (ArchiveDirectory dirPath w).1 = Err e).
  { intros e He. unfold ArchiveDirectory.
    rewrite bind_pure_read by (apply pure_read_Walk, pure_read_visit).
    unfold Walk. by rewrite He. }
  destruct (ArchiveDirectory_footprint dirPath w) as [(b & line & Hrun)|(r & Hrun & Hr)];
    rewrite Hrun in Hroot; eexists _, _; (split; [exact Hrun|]); wsimpl.
  - split_and!; try done. intros _. split; [done|]. by eexists _, _.
  - split_and!; try done. intros Hok. by rewrite Hr in Hok.
Qed.

Lemma ArchiveDirectory_only_reads_witness :
  ArchiveDirectory (H := toy.library) "docs/missing" example_world
  = (Err "lstat docs/missing: no such file or directory", example_world).
Proof.
  destruct (ArchiveDirectory_only_reads (H := toy.library) "docs/missing" example_world)
    as (r & w' & Hrun & _ & _ & _ & _ & _ & Hfail & _ & Hroot).
  assert (Hr : r = Err "lstat docs/missing: no such file or directory")
    by (apply Hroot; reflexivity).
  subst r. rewrite Hrun. f_equal. by apply Hfail.
Defined.
(** ** Encrypt and Decrypt on a directory tree *)

Lemma real_dir_drop (fs : gmap (list string) node) (o k : list string) :
  real_dir fs [] (o ++ k) → real_dir fs o k.
Proof.
  intros Hk i Hi. specialize (Hk (length o + i)%nat). simpl in Hk.
  rewrite take_app_add in Hk. apply Hk. rewrite length_app. lia.
Qed.

Lemma real_dir_take (fs : gmap (list string) node) (o k : list string) :
  real_dir fs [] (o ++ k) → real_dir fs [] o.
Proof.
  intros Hk i Hi. specialize (Hk i). rewrite take_app_le in Hk by lia.
  apply Hk. rewrite length_app. lia.
Qed.

Lemma valid_name_app (n s : string) :
  valid_name n = true → forallb name_char (String.list_ascii_of_string s) = true →
  valid_name (n +:+ s) = true.
Proof.
  intros Hn Hs. pose proof (valid_name_spec n Hn) as (Hne & Hd & Hdd & _).
  assert (Hx : n +:+ s ≠ "" ∧ n +:+ s ≠ "." ∧ n +:+ s ≠ "..").
  { destruct n as [|c1 [|c2 [|c3 n]]]; [done| | |].
    - rewrite append_cons, append_nil_l. split; [done|]. split.
      + intros Heq. injection Heq as -> _. by destruct Hd.
      + intros Heq. injection Heq as -> _. by destruct Hd.
    - rewrite !append_cons, append_nil_l. split; [done|]. split; [done|].
      intros Heq. injection Heq as -> -> _. by destruct Hdd.
    - rewrite !append_cons. by repeat split. }
  unfold valid_name in *. rewrite !andb_true_iff, !negb_true_iff, !String.eqb_neq in *.
  destruct Hn as [_ Hc]. rewrite list_ascii_append, forallb_app, Hc, Hs. tauto.
Qed.

Lemma abs_path_app_name (d : list string) (n s : string) :
  abs_path (d ++ [n]) +:+ s = abs_path (d ++ [n +:+ s]).
Proof.
  rewrite !abs_path_snoc. destruct d; by rewrite <- !append_assoc.
Qed.

Lemma GenerateRandomBytes_run (size : Z) (w : World) :
  size ≤ len (w_rand w) →
  GenerateRandomBytes size w
  = (Ok (take (Z.to_nat size) (w_rand w)), set_rand (drop (Z.to_nat size) (w_rand w)) w).
Proof.
  intros Hs. unfold GenerateRandomBytes, wrap, rand_Read.
  by rewrite bool_decide_true.
Qed.

Lemma Abs_path_string (r : bool) (k : list string) (w : World) :
  k ≠ [] → Forall (λ n, valid_name n = true) (origin r (w_cwd w) ++ k) →
  Abs (path_string r k) w = (Ok (abs_path (origin r (w_cwd w) ++ k)), w).
Proof.
  intros Hne Hk. destruct r; simpl in *.
  - by apply Abs_abs_path.
  - destruct k as [|n k]; [done|]. apply Forall_app in Hk as [Hc Hk].
    by apply Abs_rel_path.
Qed.

Lemma Encrypt_validate_tree (r : bool) (parent : list string) (base : string)
    (m : Z) (w : World) :
  let dir := origin r (w_cwd w) ++ parent in
  Forall (λ n, valid_name n = true) (dir ++ [base]) →
  real_dir (w_fs w) [] dir →
  w_fs w !! (dir ++ [base]) = Some (NDir m) →
  w_fs w !! (dir ++ [base +:+ ".cloak"]) = None →
  Encrypt_validate (path_string r (parent ++ [base])) w
  = (Ok (abs_path (dir ++ [base +:+ ".cloak"])), w).
Proof.
  intros dir Hv Hd Hb Hout. subst dir.
  assert (Hv' : Forall (λ n, valid_name n = true) (parent ++ [base])).
  { rewrite <- app_assoc in Hv. apply Forall_app in Hv. tauto. }
  unfold Encrypt_validate.
  erewrite bind_Ok.
  2: { unfold wrap, fs_read.
       rewrite (Stat_path_string _ _ r parent base (NDir m)); try done.
       - by apply real_dir_drop.
       - by rewrite app_assoc. }
  simpl.
  erewrite bind_Ok.
  2: { apply Abs_path_string; [by destruct parent|]. by rewrite app_assoc. }
  change filepath.Separator with "/".
  rewrite app_assoc, TrimSuffix_abs_path; [|by destruct (origin r (w_cwd w) ++ parent)|done].
  rewrite abs_path_app_name.
  destruct (Stat_path_string_missing (w_fs w) (w_cwd w) true
              (origin r (w_cwd w) ++ parent) (base +:+ ".cloak")) as [e He]; try done.
  - rewrite Forall_app, Forall_singleton in *. split; [tauto|].
    apply valid_name_app; [tauto|done].
  - simpl in He. by rewrite He.
Qed.
Ltac wnorm :=
  unfold set_fs, set_heap, set_secure, set_tty, set_rand, set_out; wsimpl.
Ltac run_by tac := erewrite bind_Ok by (wnorm; tac); wnorm.

Section encrypt_tree.
Context `{L : Library} `{!LibraryOk L}.
Context (r : bool) (parent : list string) (base : string) (t : tree).

Lemma Encrypt_body_tree (password : list byte) (s l : nat) (w : World) :
  let dir := origin r (w_cwd w) ++ parent in
  wf_tree t →
  Forall (λ n, valid_name n = true) (dir ++ [base]) →
  real_dir (w_fs w) [] dir →
  holds (w_fs w) (dir ++ [base]) t →
  w_fs w !! (dir ++ [base +:+ ".cloak"]) = None →
  w_secure w !! s = Some (Some l) → w_heap w !! l = Some password →
  44 ≤ len (w_rand w) →
  ∃ out,
    Encrypt_body (path_string r (parent ++ [base])) (abs_path (dir ++ [base +:+ ".cloak"]))
      s w
    = (Ok tt,
       mkWorld (<[dir ++ [base +:+ ".cloak"]
                  := NFile 438 (container_bytes base t password (w_rand w))]> (w_fs w))
         (w_cwd w)
         (w_heap w ++ [replicate (length (targz_bytes (flatten [base] t))) x00;
                       replicate 32 x00])
         (w_secure w ++ [None]) (w_tty w) (drop 44 (w_rand w)) out).
Proof.
  intros dir Hwf Hv Hd Hholds Hout Hs Hl Hrand. subst dir.
  assert (Hv' : Forall (λ n, valid_name n = true) (parent ++ [base])).
  { rewrite <- app_assoc in Hv. apply Forall_app in Hv. tauto. }
  set (key := argon2_IDKey password (take 32 (w_rand w)) argonTime argonMemory
                argonThreads KeySize).
  assert (Hkey : len key = 32) by (by apply argon2_IDKey_length).
  assert (Hnonce : len (take 12 (drop 32 (w_rand w))) = 12).
  { unfold len in *. rewrite length_take, length_drop. lia. }
  destruct w as [fs cwd heap secure tty rand out]. wsimpl_in_all.
  unfold Encrypt_body.
  run_by ltac:(apply Println_run).
  destruct (ArchiveDirectory_tree r parent base t
              (mkWorld fs cwd heap secure tty rand
                 (out ++ ["Archiving directory..." +:+ newline])))
    as [outA HA]; wnorm; try done.
  { by apply real_dir_drop. }
  { by rewrite app_assoc. }
  unfold set_out, set_heap in HA; wsimpl_in_all.
  run_by ltac:(unfold wrap; by rewrite HA).
  clear HA Hholds. remember (origin r cwd ++ parent) as dir eqn:Hdir. clear Hdir.
  run_by ltac:(apply GenerateRandomBytes_run; wsimpl; unfold SaltSize; lia).
  change (Z.to_nat SaltSize) with 32%nat.
  run_by ltac:(apply GenerateRandomBytes_run; wsimpl; unfold NonceSize, len in *;
               rewrite length_drop; lia).
  change (Z.to_nat NonceSize) with 12%nat.
  run_by ltac:(apply Println_run).
  run_by ltac:(apply Data_at; wsimpl; exact Hs).
  run_by ltac:(reflexivity).
  rewrite lookup_app_l by (by eapply lookup_lt_Some). rewrite Hl. wsimpl. unfold id.
  run_by ltac:(apply DeriveKey_run). fold key.
  unfold defer.
  run_by ltac:(apply Println_run).
  run_by ltac:(reflexivity). grown. unfold id.
  run_by ltac:(apply Data_at; wsimpl; apply lookup_snoc_length).
  run_by ltac:(reflexivity). grown. unfold id.
  run_by ltac:(unfold lift; rewrite EncryptData_valid by (done || by right; right);
               reflexivity).
  run_by ltac:(apply (zero_at _ (targz_bytes (flatten [base] t))); wsimpl; by grown).
  grown.
  run_by ltac:(unfold wrap, Create; wsimpl;
               rewrite (OpenFile_abs_new fs cwd dir (base +:+ ".cloak"));
               [reflexivity| |done|done];
               rewrite Forall_app, Forall_singleton in *; split; [tauto|];
               apply valid_name_app; [tauto|done]).
  run_by ltac:(apply Encrypt_write_ok; wsimpl; apply lookup_insert_eq).
  rewrite insert_insert_eq.
  run_by ltac:(reflexivity).
  unfold Print at 1. wsimpl.
  erewrite (Wipe_held _ (length secure) (length heap + 1) key).
  2: { wsimpl. apply lookup_snoc_length. }
  2: { wsimpl. by grown. }
  wnorm. grown.
  replace (length key) with 32%nat by (unfold len in Hkey; lia).
  rewrite drop_drop. eexists. reflexivity.
Qed.

End encrypt_tree.
Section encrypt_run.
Context `{L : Library} `{!LibraryOk L}.

Lemma Encrypt_tree_run (r : bool) (parent : list string) (base : string) (m : Z)
    (es : list (string * tree)) (password : list byte)
    (rest : list (result (list byte))) (w : World) :
  let dir := origin r (w_cwd w) ++ parent in
  wf_tree (Dir m es) →
  Forall (λ n, valid_name n = true) (dir ++ [base]) →
  real_dir (w_fs w) [] dir →
  holds (w_fs w) (dir ++ [base]) (Dir m es) →
  w_fs w !! (dir ++ [base +:+ ".cloak"]) = None →
  w_tty w = Some (Ok password :: Ok password :: rest) → password ≠ [] →
  44 ≤ len (w_rand w) →
  ∃ out,
    Encrypt (path_string r (parent ++ [base])) w
    = (Ok tt,
       mkWorld (<[dir ++ [base +:+ ".cloak"]
                  := NFile 438 (container_bytes base (Dir m es) password (w_rand w))]>
                  (w_fs w))
         (w_cwd w)
         (w_heap w ++ [replicate (length password) x00; replicate (length password) x00;
                       replicate (length (targz_bytes (flatten [base] (Dir m es)))) x00;
                       replicate 32 x00])
         (w_secure w ++ [None; None; None]) (Some rest) (drop 44 (w_rand w)) out).
Proof.
  intros dir Hwf Hv Hd Hholds Hout Htty Hne Hrand.
  pose proof (holds_node _ _ _ Hholds) as Hnode. simpl in Hnode.
  pose proof (Encrypt_validate_tree r parent base m w Hv Hd Hnode Hout) as Hval.
  subst dir.
  destruct w as [fs cwd heap secure tty rand out]. wsimpl_in_all. subst tty.
  unfold Encrypt.
  run_by ltac:(exact Hval).
  run_by ltac:(by eapply ReadPasswordSecure_line).
  unfold defer.
  run_by ltac:(by eapply ReadPasswordSecure_line).
  run_by ltac:(apply Data_at; wsimpl; by grown).
  run_by ltac:(apply Data_at; wsimpl; by grown).
  run_by ltac:(reflexivity).
  run_by ltac:(reflexivity). grown. unfold id.
  unfold ConstantTimeCompare. rewrite (bool_decide_true (password = password)) by done.
  rewrite bool_decide_false by (intros Hx; by apply Hx).
  destruct (Encrypt_body_tree r parent base (Dir m es) password (length secure) (length heap)
              (mkWorld fs cwd (heap ++ [password; password])
                 (secure ++ [Some (length heap); Some (length heap + 1)%nat])
                 (Some rest) rand
                 (out ++ ["Enter encryption password: "; newline; "Confirm password: ";
                          newline])))
    as [outB HB]; wsimpl; try done.
  { by grown. }
  { by grown. }
  wsimpl_in_all. grown.
  replace (length secure + 1)%nat with (S (length secure)) in * by lia.
  replace (length heap + 1)%nat with (S (length heap)) in * by lia.
  rewrite <- ?app_assoc in HB. cbn [app] in HB. rewrite HB. wnorm.
  erewrite (Wipe_held _ (S (length secure)) (S (length heap)) password).
  2: { wsimpl. replace (S (length secure)) with (length secure + 1)%nat by lia. by grown. }
  2: { wsimpl. replace (S (length heap)) with (length heap + 1)%nat by lia. by grown. }
  wnorm.
  erewrite (Wipe_held _ (length secure) (length heap) password).
  2: { wsimpl. replace (S (length secure)) with (length secure + 1)%nat by lia. by grown. }
  2: { wsimpl. replace (S (length heap)) with (length heap + 1)%nat by lia. by grown. }
  wnorm.
  replace (S (length secure)) with (length secure + 1)%nat by lia.
  replace (S (length heap)) with (length heap + 1)%nat by lia.
  grown. eexists. reflexivity.
Qed.

End encrypt_run.
Lemma Decrypt_parse_container (salt nonce ciphertext : list byte) :
  len salt = 32 → len nonce = 12 →
  Decrypt_parse (bytes_of_string MagicBytes ++ salt ++ nonce
                 ++ PutUint64 (uint64 (len ciphertext)) ++ ciphertext)
  = Ok (Container salt nonce ciphertext).
Proof.
  intros Hs Hn. set (v := uint64 (len ciphertext)).
  set (encoded := bytes_of_string MagicBytes ++ salt ++ nonce ++ PutUint64 v ++ ciphertext).
  assert (Hv : 0 ≤ v < 2 ^ 64) by (apply Z.mod_pos_bound; lia).
  assert (Hlen : len encoded = 59 + len ciphertext).
  { unfold encoded. rewrite !len_app, Hs, Hn. unfold len at 1 2. simpl. lia. }
  pose proof (len_nonneg ciphertext) as Hc0.
  rewrite Decrypt_parse_unfold.
  assert (Hsl : ∀ (a : list byte) (b : nat) (c : list byte),
            length a = b → take b (a ++ c) = a ∧ drop b (a ++ c) = c).
  { intros a b c <-. by rewrite take_app_length, drop_app_length. }
  assert (Hs' : length salt = 32%nat) by (unfold len in Hs; lia).
  assert (Hn' : length nonce = 12%nat) by (unfold len in Hn; lia).
  assert (Hd7 : drop 7 encoded = salt ++ nonce ++ PutUint64 v ++ ciphertext) by reflexivity.
  assert (Hd39 : drop 39 encoded = nonce ++ PutUint64 v ++ ciphertext).
  { change 39%nat with (7 + 32)%nat. rewrite <- drop_drop, Hd7. by apply Hsl. }
  assert (Hd51 : drop 51 encoded = PutUint64 v ++ ciphertext).
  { change 51%nat with (39 + 12)%nat. rewrite <- drop_drop, Hd39. by apply Hsl. }
  assert (Hd59 : drop 59 encoded = ciphertext).
  { change 59%nat with (51 + 8)%nat. rewrite <- drop_drop, Hd51. by apply Hsl. }
  rewrite bool_decide_false by lia.
  rewrite bool_decide_false by (intros Hne; by apply Hne).
  unfold slice_from, slice.
  change (Z.to_nat 59) with 59%nat. change (Z.to_nat 51) with 51%nat.
  change (Z.to_nat 39) with 39%nat. change (Z.to_nat 7) with 7%nat.
  change (Z.to_nat (59 - 51)) with 8%nat. change (Z.to_nat (39 - 7)) with 32%nat.
  change (Z.to_nat (51 - 39)) with 12%nat.
  rewrite Hd59, Hd51, Hd39, Hd7.
  rewrite (proj1 (Hsl salt 32%nat _ Hs')), (proj1 (Hsl nonce 12%nat _ Hn')).
  rewrite (proj1 (Hsl (PutUint64 v) 8%nat ciphertext eq_refl)).
  rewrite Uint64_PutUint64 by done. fold v.
  by rewrite bool_decide_false by (intros Hne; by apply Hne).
Qed.

Section decrypt_run.
Context `{L : Library} `{!LibraryOk L}.

Lemma Decrypt_tree_run (r : bool) (parent : list string) (name base : string) (t : tree)
    (perm : Z) (salt nonce password : list byte) (rest : list (result (list byte)))
    (w : World) :
  let dir := origin r (w_cwd w) ++ parent in
  let key := argon2_IDKey password salt argonTime argonMemory argonThreads KeySize in
  let archive := targz_bytes (flatten [base] t) in
  let ciphertext := gcm_Seal key nonce archive in
  wf_tree t →
  Forall (λ n, valid_name n = true) (dir ++ [name]) →
  valid_name base = true → strings.HasPrefix base ".." = false →
  real_dir (w_fs w) [] dir →
  len salt = 32 → len nonce = 12 →
  w_fs w !! (dir ++ [name])
  = Some (NFile perm (bytes_of_string MagicBytes ++ salt ++ nonce
                      ++ PutUint64 (uint64 (len ciphertext)) ++ ciphertext)) →
  (∀ k, (dir ++ [base]) `prefix_of` k → w_fs w !! k = None) →
  w_tty w = Some (Ok password :: rest) → password ≠ [] →
  ∃ out,
    Decrypt (path_string r (parent ++ [name])) w
    = (Ok tt,
       mkWorld (plant t (dir ++ [base]) (w_fs w)) (w_cwd w)
         (w_heap w ++ [replicate (length password) x00; replicate 32 x00;
                       replicate (length archive) x00])
         (w_secure w ++ [None; None]) (Some rest) (w_rand w) out).
Proof.
  intros dir key archive ciphertext Hwf Hv Hb Hdots Hd Hsalt Hnonce Hfile Hfree Htty Hne.
  assert (Hvd : Forall (λ n, valid_name n = true) dir).
  { apply Forall_app in Hv. tauto. }
  assert (Hv' : Forall (λ n, valid_name n = true) (parent ++ [name])).
  { subst dir. rewrite <- app_assoc in Hv. apply Forall_app in Hv. tauto. }
  assert (Hkey : len key = 32) by (by apply argon2_IDKey_length).
  assert (Hstat : os.Stat (w_fs w) (w_cwd w) (path_string r (parent ++ [name]))
                  = Ok (info_of (filepath.Base (path_string r (parent ++ [name])))
                          (NFile perm (bytes_of_string MagicBytes ++ salt ++ nonce
                             ++ PutUint64 (uint64 (len ciphertext)) ++ ciphertext)))).
  { apply Stat_path_string; try done.
    - by apply real_dir_drop.
    - subst dir. by rewrite app_assoc. }
  assert (Hread : os.ReadFile (w_fs w) (w_cwd w) (path_string r (parent ++ [name]))
                  = Ok (bytes_of_string MagicBytes ++ salt ++ nonce
                        ++ PutUint64 (uint64 (len ciphertext)) ++ ciphertext)).
  { eapply ReadFile_path_string; try done.
    - by apply real_dir_drop.
    - subst dir. rewrite app_assoc. exact Hfile. }
  assert (Habs : ∀ w0, w_cwd w0 = w_cwd w →
            Abs (path_string r (parent ++ [name])) w0 = (Ok (abs_path (dir ++ [name])), w0)).
  { intros w0 Hc. subst dir. rewrite <- app_assoc, <- Hc.
    apply Abs_path_string; [by destruct parent|]. by rewrite Hc, app_assoc. }
  clearbody dir.
  destruct w as [fs cwd heap secure tty rand out]. wsimpl_in_all. subst tty.
  unfold Decrypt.
  run_by ltac:(unfold wrap, fs_read; wsimpl; by rewrite Hstat).
  change (IsDir _) with false. cbv iota.
  run_by ltac:(unfold wrap, fs_read; wsimpl; by rewrite Hread).
  run_by ltac:(unfold lift; by rewrite Decrypt_parse_container).
  cbn [c_salt c_nonce c_ciphertext].
  run_by ltac:(by eapply ReadPasswordSecure_line).
  unfold defer.
  run_by ltac:(apply Println_run).
  run_by ltac:(apply Data_at; wsimpl; by grown).
  run_by ltac:(reflexivity). grown. unfold id.
  run_by ltac:(apply DeriveKey_run). fold key.
  unfold Decrypt_body. cbn [c_salt c_nonce c_ciphertext].
  run_by ltac:(apply Println_run).
  run_by ltac:(apply Data_at; wsimpl; by grown).
  run_by ltac:(reflexivity). grown. unfold id.
  run_by ltac:(unfold lift; rewrite DecryptData_valid by (done || by right; right);
               subst ciphertext; by rewrite gcm_Open_Seal by (done || by right; right)).
  run_by ltac:(reflexivity).
  run_by ltac:(by apply Habs).
  rewrite Dir_abs_path by done.
  run_by ltac:(apply Println_run).
  run_by ltac:(reflexivity). grown. unfold id.
  run_by ltac:(unfold wrap; wsimpl; subst archive;
               by rewrite ExtractArchive_flatten
                 by (done || (rewrite Forall_app, Forall_singleton; tauto))).
  run_by ltac:(apply (zero_at _ archive); wsimpl; by grown).
  grown. unfold Print at 1. wnorm.
  erewrite (Wipe_held _ (length secure + 1) (length heap + 1) key).
  2: { wsimpl. by grown. }
  2: { wsimpl. by grown. }
  wnorm. grown.
  erewrite (Wipe_held _ (length secure) (length heap) password).
  2: { wsimpl. by grown. }
  2: { wsimpl. by grown. }
  wnorm. grown.
  replace (length key) with 32%nat by (unfold len in Hkey; lia).
  eexists. reflexivity.
Qed.

End decrypt_run.



Lemma inbox_world_free : ∀ k, ["in"; "box"] `prefix_of` k → w_fs inbox_world !! k = None.
Proof.
  intros k [x Hx]. destruct (w_fs inbox_world !! k) as [nd|] eqn:E; [exfalso|done].
  unfold inbox_world in E. cbn [w_fs] in E. apply elem_of_list_to_map_2 in E.
  rewrite !elem_of_cons, elem_of_nil in E.
  destruct E as [E|[E|[E|[]]]]; injection E as -> _; discriminate Hx.
Qed.

Lemma inbox_world_file :
  w_fs inbox_world !! ["in"; "box.cloak"] = Some (NFile 438 inbox_container).
Proof. reflexivity. Qed.




(** ** ExtractArchive and symbolic links *)

Lemma resolve_through_link (fs : gmap (list string) node) (cwd dest target : list string)
    (l : string) (q : list string) :
  Forall (λ n, valid_name n = true) (dest ++ l :: q) →
  Forall (λ n, valid_name n = true) target →
  real_dir fs [] dest →
  fs !! (dest ++ [l]) = Some (NSymlink (abs_path target)) →
  os.resolve fs cwd true (abs_path (dest ++ l :: q))
  = os.resolve_hops 39 fs true [] (target ++ q).
Proof.
  intros Hv Ht Hd Hl. unfold os.resolve.
  rewrite bool_decide_false by apply abs_path_nonempty.
  change (abs_path (dest ++ l :: q)) with (path_string true (dest ++ l :: q)).
  rewrite start_path_string, elems_lookup_path_string by done. simpl origin.
  pose proof Hv as Hv'. apply Forall_app in Hv' as [Hvd Hvl].
  apply Forall_cons in Hvl as [Hvl _].
  apply valid_name_spec in Hvl as (_ & Hdot & Hdd & _).
  rewrite resolve_hops_dirs by done. simpl app.
  rewrite resolve_hops_cons.
  rewrite (bool_decide_false (l = ".")), (bool_decide_false (l = "..")) by done.
  rewrite Hl. rewrite andb_false_r.
  change os.MAXSYMLINKS with (S 39).
  rewrite bool_decide_false by apply abs_path_nonempty.
  rewrite IsAbs_abs_path.
  change (abs_path target) with (path_string true target).
  by rewrite elems_lookup_path_string.
Qed.

Lemma nul_free_abs_path (k : list string) :
  Forall (λ n, valid_name n = true) k → nul_free (abs_path k).
Proof.
  intros Hk. unfold abs_path, nul_free. rewrite list_ascii_append. simpl.
  rewrite not_elem_of_cons. split; [done|].
  destruct k as [|n k]; [apply not_elem_of_nil|].
  by apply (nul_free_rel_path (n :: k)).
Qed.

Section symlink.
Context `{L : Library} `{!LibraryOk L}.

Lemma ExtractArchive_link_then_file (dest target : list string) (l f : string)
    (mode : Z) (body : list byte) (w : World) :
  Forall (λ n, valid_name n = true) (dest ++ [l; f]) →
  Forall (λ n, valid_name n = true) target →
  strings.HasPrefix l ".." = false →
  0 ≤ mode < 2 ^ 32 →
  real_dir (w_fs w) [] dest → real_dir (w_fs w) [] target →
  w_fs w !! (dest ++ [l]) = None →
  w_fs w !! (target ++ [f]) = None →
  target ++ [f] ≠ dest ++ [l] →
  ExtractArchive (targz_bytes (link_then_file target l f mode body)) (abs_path dest) w
  = (Ok tt,
     set_fs (<[target ++ [f] := NFile mode body]>
               (<[dest ++ [l] := NSymlink (abs_path target)]> (w_fs w))) w).
Proof.
  intros Hv Ht Hdots Hmode Hd Htd Hl Hf Hne.
  assert (Hvl : Forall (λ n, valid_name n = true) (dest ++ [l])).
  { rewrite Forall_app in *. destruct Hv as [? Hv]. split; [done|].
    apply Forall_cons in Hv as [? _]. by constructor. }
  assert (Hvlf : Forall (λ n, valid_name n = true) [l; f]).
  { rewrite Forall_app in Hv. tauto. }
  assert (Hvd : Forall (λ n, valid_name n = true) dest).
  { rewrite Forall_app in Hv. tauto. }
  assert (Hvf : valid_name f = true).
  { apply Forall_cons in Hvlf as [_ Hvf]. by apply Forall_cons in Hvf as [? _]. }
  unfold ExtractArchive. rewrite targz_read_bytes.
  2: { unfold link_then_file. repeat constructor; simpl.
       - apply tar_encodable_names; simpl; [|by apply nul_free_abs_path|done].
         apply Forall_cons in Hvlf as [? _]. by apply nul_free_valid_name.
       - apply tar_encodable_names; simpl; [|apply nul_free_empty|apply len_nonneg].
         by apply (nul_free_rel_path [l; f]).
       - unfold entry_complete. simpl. by apply bool_decide_eq_true. }
  set (fs1 := <[dest ++ [l] := NSymlink (abs_path target)]> (w_fs w)).
  assert (Hd1 : real_dir fs1 [] dest).
  { eapply real_dir_ext; [|exact Hd]. intros i Hi. simpl. unfold fs1.
    apply lookup_insert_ne. intros Heq. apply (f_equal length) in Heq.
    rewrite length_app, length_take in Heq. simpl in Heq. lia. }
  assert (Htd1 : real_dir fs1 [] target).
  { eapply real_dir_ext; [|exact Htd]. intros i Hi. simpl. unfold fs1.
    apply lookup_insert_ne. intros Heq.
    destruct (Htd i Hi) as [m Hm]. simpl in Hm. by rewrite <- Heq, Hl in Hm. }
  assert (Hl1 : fs1 !! (dest ++ [l]) = Some (NSymlink (abs_path target)))
    by apply lookup_insert_eq.
  assert (Hf1 : fs1 !! (target ++ [f]) = None).
  { unfold fs1. by rewrite lookup_insert_ne. }
  unfold link_then_file.
  change (stream_of _) with
    (TarNext (te_header (tree_entry [l] (Symlink (abs_path target))))
       (te_body (tree_entry [l] (Symlink (abs_path target)))) None
       (TarNext (mkHeader (rel_path [l; f]) "" TypeReg mode (len body)) body None TarEOF)).
  rewrite ExtractArchive_loop_next. unfold bind at 1.
  rewrite (ExtractArchive_entry_tree dest [l] dest l l [] (Symlink (abs_path target)) w);
    try done.
  simpl node_of. fold fs1.
  change (ExtractArchive_loop (abs_path dest) (TarNext ?h ?b None TarEOF))
    with (ExtractArchive_entry (abs_path dest) h b None ;;; ret tt).
  assert (Hentry :
    ExtractArchive_entry (abs_path dest)
      (mkHeader (rel_path [l; f]) "" TypeReg mode (len body)) body None (set_fs fs1 w)
    = (Ok tt, set_fs (<[target ++ [f] := NFile mode body]> fs1) w)).
  { unfold ExtractArchive_entry. cbn [Name Typeflag Mode].
    assert (Hlne : l ≠ "").
    { apply Forall_cons in Hvlf as [Hx _]. by apply valid_name_spec in Hx as (? & _). }
    rewrite Clean_rel_path, HasPrefix_rel_path, Hdots, IsAbs_rel_path
      by (done || by apply Forall_cons in Hvlf as [? _]).
    simpl orb. cbv iota.
    rewrite Join_abs_rel by done.
    change (dest ++ [l; f]) with (dest ++ [l] ++ [f]). rewrite app_assoc.
    rewrite Dir_abs_path by (by rewrite <- app_assoc).
    assert (Hres : ∀ q, Forall (λ n, valid_name n = true) q →
              os.resolve fs1 (w_cwd w) true (abs_path (dest ++ l :: q))
              = os.resolve_hops 39 fs1 true target q).
    { intros q Hq. rewrite (resolve_through_link fs1 (w_cwd w) dest target l q);
        try done.
      - by rewrite resolve_hops_dirs.
      - rewrite Forall_app. split; [done|]. constructor; [|done].
        by apply Forall_cons in Hvlf as [? _]. }
    assert (Hmk : os.MkdirAll fs1 (w_cwd w) (abs_path (dest ++ [l])) 493 = Ok fs1).
    { unfold os.MkdirAll. rewrite MkdirAll_fuel_eq.
      unfold os.Stat, os.lookup_path. rewrite (Hres []) by done.
      rewrite resolve_hops_nil.
      destruct (real_dir_whole _ _ _ Htd1) as [m Hm]. simpl in Hm. by rewrite Hm. }
    change (false || false) with false. cbv iota.
    unfold bind at 1.
    rewrite (fs_update_Ok _ (set_fs fs1 w) fs1)
      by (rewrite w_fs_set_fs, w_cwd_set_fs; exact Hmk).
    rewrite set_fs_set_fs. unfold bind at 1. unfold wrap at 1.
    rewrite w_fs_set_fs, w_cwd_set_fs.
    assert (Hopen : os.OpenFile_create_trunc fs1 (w_cwd w)
                      (abs_path ((dest ++ [l]) ++ [f])) (FileMode mode)
                    = Ok (target ++ [f], <[target ++ [f] := NFile mode []]> fs1)).
    { unfold os.OpenFile_create_trunc. rewrite <- app_assoc. simpl app.
      rewrite (Hres [f]) by (by constructor).
      rewrite resolve_hops_last by (done || by rewrite Hf1).
      rewrite Hf1, removelast_last.
      destruct (real_dir_whole _ _ _ Htd1) as [m Hm]. simpl in Hm. rewrite Hm.
      by rewrite FileMode_small. }
    rewrite Hopen.
    unfold wrap, bind, fs_update, os.Write, ret.
    rewrite !w_fs_set_fs, lookup_insert_eq. simpl.
    by rewrite insert_insert_eq, !set_fs_set_fs. }
  unfold bind. by rewrite Hentry.
Qed.

End symlink.

(** The check of entry names does not confine what is written: an
    archive may plant a symbolic link and then name a file through it.
    Both names pass the check (neither is absolute nor begins with "..");
    the link is created under the destination, and the file is created in
    the directory the link points to, wherever that is, with the contents
    the archive gives.  No other path changes. *)
Theorem ExtractArchive_follows_planted_symlink `{L : Library} `{!LibraryOk L}
    (dest target : list string) (l f : string) (mode : Z) (body : list byte) (w : World) :
  Forall (λ n, valid_name n = true) (dest ++ [l; f]) →
  Forall (λ n, valid_name n = true) target →
  strings.HasPrefix l ".." = false →
  0 ≤ mode < 2 ^ 32 →
  real_dir (w_fs w) [] dest → real_dir (w_fs w) [] target →
  w_fs w !! (dest ++ [l]) = None →
  w_fs w !! (target ++ [f]) = None →
  target ++ [f] ≠ dest ++ [l] →
  ∃ w',
    ExtractArchive (targz_bytes (link_then_file target l f mode body)) (abs_path dest) w
    = (Ok tt, w')
    ∧ w_fs w' !! (dest ++ [l]) = Some (NSymlink (abs_path target))
    ∧ w_fs w' !! (target ++ [f]) = Some (NFile mode body)
    ∧ (∀ k, k ≠ dest ++ [l] → k ≠ target ++ [f] → w_fs w' !! k = w_fs w !! k)
    ∧ Forall (λ e, strings.HasPrefix (filepath.Clean (Name (te_header e))) ".." = false
                   ∧ filepath.IsAbs (filepath.Clean (Name (te_header e))) = false)
        (link_then_file target l f mode body).
Proof.
  intros Hv Ht Hdots Hmode Hd Htd Hl Hf Hne.
  eexists. split; [by apply ExtractArchive_link_then_file|].
  rewrite w_fs_set_fs. split; [|split; [|split]].
  - rewrite lookup_insert_ne by done. apply lookup_insert_eq.
  - apply lookup_insert_eq.
  - intros k H1 H2. by rewrite !lookup_insert_ne.
  - assert (Hvlf : Forall (λ n, valid_name n = true) [l; f]).
    { rewrite Forall_app in Hv. tauto. }
    assert (Hvl : valid_name l = true) by (by apply Forall_cons in Hvlf as [? _]).
    assert (Hlne : l ≠ "") by (by apply valid_name_spec in Hvl as (? & _)).
    assert (Hc1 : filepath.Clean l = l) by (apply (Clean_rel_path l []); by constructor).
    assert (Hc2 : filepath.Clean (rel_path [l; f]) = rel_path [l; f])
      by (by apply Clean_rel_path).
    assert (Ha1 : filepath.IsAbs l = false) by (by apply (IsAbs_rel_path l [])).
    unfold link_then_file. repeat constructor; cbn [Name te_header].
    + by rewrite Hc1.
    + by rewrite Hc1.
    + by rewrite Hc2, HasPrefix_rel_path.
    + rewrite Hc2. by apply IsAbs_rel_path.
Qed.

Lemma ExtractArchive_follows_planted_symlink_witness :
  ∃ w',
    ExtractArchive (H := toy.library)
      (toy.archive_bytes (link_then_file ["home"; "u"] "x" "planted" 420
                            (bytes_of_string "evil")))
      "/out" example_world
    = (Ok tt, w')
    ∧ w_fs w' !! ["out"; "x"] = Some (NSymlink "/home/u")
    ∧ w_fs w' !! ["home"; "u"; "planted"] = Some (NFile 420 (bytes_of_string "evil")).
Proof.
  destruct (ExtractArchive_follows_planted_symlink (L := toy.library)
              (LibraryOk0 := toy_library_ok) ["out"] ["home"; "u"] "x" "planted" 420
              (bytes_of_string "evil") example_world)
    as (w' & Hrun & Hlink & Hfile & _).
  - by repeat constructor.
  - by repeat constructor.
  - reflexivity.
  - lia.
  - intros i Hi. destruct i as [|[|i]]; [by exists 493|by exists 493|simpl in Hi; lia].
  - intros i Hi.
    destruct i as [|[|[|i]]]; [by exists 493|by exists 493|by exists 493|simpl in Hi; lia].
  - reflexivity.
  - reflexivity.
  - discriminate.
  - exists w'. split; [exact Hrun|]. split; [exact Hlink|exact Hfile].
Defined.
